(** * Scalable Bayesian rule lists: the trainer of [train.c]

    A shallow embedding of [src/train.c] (acceptance predicates, [propose],
    [train], [get_theta], [run_mcmc], the cooling schedule of
    [run_simulated_annealing], [compute_log_posterior], [ruleset_proposal])
    and the properties of it that the specification states.

    Conventions.
    - A C [double] is an IEEE-754 binary64 value: [spec_float] of the
      Standard Library with precision 53 and [emax] 1024, rounding to
      nearest even. A C [float] is binary32 (precision 24, [emax] 128).
    - A C [int] is a [Z]. The integers of the trainer are counts and indices
      bounded by the number of rules, samples and iterations; signed
      overflow, which C leaves undefined, is outside the model, except at the
      cast [(int)x] of a double, which is checked.
    - Reading outside an array, using an uninitialised variable and
      dereferencing [NULL] are [Fail Undefined].
    - [libm] and GSL ([log], [exp], [gsl_sf_lngamma], the Poisson functions)
      and the rule library of [rule.h] are interfaces ([MathLib], [RuleLib]):
      every theorem holds for all their implementations. Worked examples
      use the reference implementations of the modules [RefMath] and
      [SpecRules]. *)

From Stdlib Require Import ZArith List Bool Lia Arith Sorted.
From Stdlib Require Import Floats.SpecFloat.
Import ListNotations.
Local Open Scope Z_scope.

(** ** Results of C code that can go wrong *)

Inductive error : Type :=
| OutOfMemory   (* an allocation failed: the C function returns NULL / non-zero *)
| Undefined     (* undefined behaviour in C *)
| OutOfFuel.    (* a loop of the C code did not finish within the given fuel *)

Inductive res (A : Type) : Type :=
| Ret (a : A)
| Fail (e : error).
Arguments Ret {A} a.
Arguments Fail {A} e.

Definition rbind {A B} (r : res A) (k : A -> res B) : res B :=
  match r with
  | Ret a => k a
  | Fail e => Fail e
  end.

Declare Scope res_scope.
Delimit Scope res_scope with res.
Notation "x <- c ;; k" := (rbind c (fun x => k))
  (at level 61, c at next level, right associativity) : res_scope.
Notation "' p <- c ;; k" := (rbind c (fun x => let p := x in k))
  (at level 61, p pattern, c at next level, right associativity) : res_scope.
Local Open Scope res_scope.

(** [l[i]] for a C array held as a list: outside the array is undefined. *)
Definition zth {A} (l : list A) (i : Z) : res A :=
  if i <? 0 then Fail Undefined
  else match nth_error l (Z.to_nat i) with
       | Some a => Ret a
       | None => Fail Undefined
       end.

(** [l[i] = v]. *)
Fixpoint set_nth {A} (l : list A) (n : nat) (v : A) : res (list A) :=
  match l, n with
  | [], _ => Fail Undefined
  | _ :: t, O => Ret (v :: t)
  | h :: t, S n' => t' <- set_nth t n' v ;; Ret (h :: t')
  end.

Definition zset {A} (l : list A) (i : Z) (v : A) : res (list A) :=
  if i <? 0 then Fail Undefined else set_nth l (Z.to_nat i) v.

(** ** IEEE-754 doubles and floats *)

Module IEEE.

Definition double := spec_float.

Definition prec64 := 53.
Definition emax64 := 1024.
Definition prec32 := 24.
Definition emax32 := 128.

Definition dadd : double -> double -> double := SFadd prec64 emax64.
Definition dsub : double -> double -> double := SFsub prec64 emax64.
Definition dmul : double -> double -> double := SFmul prec64 emax64.
Definition ddiv : double -> double -> double := SFdiv prec64 emax64.
Definition dneg : double -> double := SFopp.

(** [x < y], [x > y], [x >= y], [x != y] of C. *)
Definition dlt (x y : double) : bool := SFltb x y.
Definition dgt (x y : double) : bool := SFltb y x.
Definition dge (x y : double) : bool := SFleb y x.
Definition dle (x y : double) : bool := SFleb x y.
Definition dne (x y : double) : bool := negb (SFeqb x y).

Definition is_nan (x : double) : bool :=
  match x with S754_nan => true | _ => false end.

(** The conversion [(double)n] of an [int] or [long]. *)
Definition d_of_int (n : Z) : double := binary_normalize prec64 emax64 n 0 false.

(** The conversion [(float)n] of a [long], and a [float] seen as a
    [double] (exact: every binary32 value is a binary64 value). *)
Definition f_of_int (n : Z) : spec_float := binary_normalize prec32 emax32 n 0 false.
Definition fdiv : spec_float -> spec_float -> spec_float := SFdiv prec32 emax32.
Definition d_of_float (x : spec_float) : double :=
  match x with
  | S754_finite s m e => binary_normalize prec64 emax64 (cond_Zopp s (Zpos m)) e s
  | _ => x
  end.

Definition INT_MAX := 2147483647.
Definition INT_MIN := -2147483648.

(** The integer part of a finite double, rounded towards zero. *)
Definition trunc_finite (s : bool) (m : positive) (e : Z) : Z :=
  cond_Zopp s (Z.shiftl (Zpos m) e).

(** The cast [(int)x]: truncation towards zero; undefined when the value
    is NaN, infinite or outside the range of [int]. *)
Definition int_of_double (x : double) : res Z :=
  match x with
  | S754_zero _ => Ret 0
  | S754_finite s m e =>
      let z := trunc_finite s m e in
      if (INT_MIN <=? z) && (z <=? INT_MAX) then Ret z else Fail Undefined
  | _ => Fail Undefined
  end.

(** The mathematical floor of a double, when it is a number. *)
Definition floor (x : double) : option Z :=
  match x with
  | S754_zero _ => Some 0
  | S754_finite false m e => Some (Z.shiftl (Zpos m) e)
  | S754_finite true m e => Some (Z.shiftl (Zneg m) e)
  | _ => None
  end.

Definition valid (x : double) : bool := valid_binary prec64 emax64 x.

(** Literals of the source. *)
Definition d0 : double := S754_zero false.
Definition d1 : double := Eval vm_compute in d_of_int 1.
Definition d2 : double := Eval vm_compute in d_of_int 2.
Definition d3 : double := Eval vm_compute in d_of_int 3.
Definition d0_25 : double := Eval vm_compute in ddiv d1 (d_of_int 4).
Definition d0_5 : double := Eval vm_compute in ddiv d1 d2.
Definition d1_5 : double := Eval vm_compute in ddiv d3 d2.
Definition d_third : double := Eval vm_compute in ddiv d1 d3.        (* 1.0 / 3.0 *)
Definition d_two_thirds : double := Eval vm_compute in ddiv d2 d3.  (* 2.0 / 3.0 *)
Definition d_m1e9 : double := Eval vm_compute in d_of_int (-1000000000).
Definition d_m1e10 : double := Eval vm_compute in d_of_int (-10000000000).
Definition pinf : double := S754_infinity false.
Definition ninf : double := S754_infinity true.
Definition nan : double := S754_nan.

End IEEE.
Import IEEE.

(** ** The C library's generator

    [rand()] and [random()] of the C library: one stream of long integers
    in [0, RAND_MAX] (in glibc [rand] is [random]). A generator state is the
    whole future of the stream and a cursor into it, so that every sequence
    of draws is a state. *)

Definition RAND_MAX := 2147483647.

Record rng_state : Type := { draws : nat -> Z; cursor : nat }.

Definition next_draw (g : rng_state) : Z * rng_state :=
  (draws g (cursor g) mod (RAND_MAX + 1),
   {| draws := draws g; cursor := S (cursor g) |}).

(** ** External mathematics: libm and GSL *)

Class MathLib : Type := {
  log : double -> double;
  exp : double -> double;
  gsl_sf_lngamma : double -> double;
  gsl_ran_poisson_pdf : Z -> double -> double;
  gsl_cdf_poisson_P : Z -> double -> double
}.

(** ** The types of [rule.h], as [train.c] uses them

    [rule.h] is not among the sources. The records have the fields that
    [train.c] reads and writes, under the names it uses. *)

(** Modelled from the spec: the BitVector of section 3, a function from
    the samples to bits ([VECTOR] of [rule.h], which is missing). A vector
    of [n_samples] bits is a non-negative integer: bit [j] is sample [j]. *)
Definition VECTOR := Z.

(** Modelled from the spec: the Rule of section 3 ([rule_t] of [rule.h],
    which is missing), with the fields [train.c] reads. *)
Record rule_t : Type := {
  cardinality : Z;
  support : Z;
  truthtable : VECTOR
}.

(** Modelled from the spec: the entries of the RuleList of section 3 (the
    elements of [rs->rules], declared in [rule.h], which is missing). *)
Record ruleset_entry_t : Type := {
  rule_id : Z;
  ncaptured : Z;
  captures : VECTOR
}.

(** Modelled from the spec: the RuleList of section 3 ([ruleset_t] of
    [rule.h], which is missing). *)
Record ruleset_t : Type := {
  n_rules : Z;
  n_samples : Z;
  rs_rules : list ruleset_entry_t     (* rs->rules[0 .. n_rules-1] *)
}.

(** Modelled from the spec: the [params] of section 6 ([params_t] of
    [rule.h], which is missing). *)
Record params_t : Type := {
  lambda : double;
  eta : double;
  threshold : double;
  alpha : double * double;     (* alpha[0], alpha[1] *)
  iters : Z;
  init_size : Z;
  nchain : Z
}.

(** Modelled from the spec: the inputs of section 6 ([data_t] of
    [rule.h], which is missing), with the fields [train] reads. *)
Record data_t : Type := {
  td_rules : list rule_t;
  td_labels : list rule_t;
  td_nrules : Z;
  td_nsamples : Z
}.

(** Modelled from the spec: the outputs of section 6 ([pred_model_t] of
    [rule.h], which is missing). *)
Record pred_model_t : Type := {
  pm_rs : ruleset_t;
  pm_theta : list double
}.

(** ** The rule library of [rule.h]

    [train.c] calls these functions and does not define them. A function
    that returns a status in C returns [Fail OutOfMemory] for a non-zero
    status; [rule_vand a b n] is the conjunction of two vectors and the
    number of its set bits. *)

Class RuleLib : Type := {
  ruleset_copy : ruleset_t -> res ruleset_t;
  ruleset_add : list rule_t -> Z -> ruleset_t -> Z -> Z -> res ruleset_t;
  ruleset_delete : list rule_t -> Z -> ruleset_t -> Z -> res ruleset_t;
  ruleset_swap_any : ruleset_t -> Z -> Z -> list rule_t -> res ruleset_t;
  ruleset_backup : ruleset_t -> res (list Z);
  ruleset_init : Z -> Z -> list Z -> list rule_t -> res ruleset_t;
  create_random_ruleset :
    Z -> Z -> Z -> list rule_t -> rng_state -> res (ruleset_t * rng_state);
  pick_random_rule : Z -> ruleset_t -> rng_state -> res (Z * rng_state);
  rule_vand : VECTOR -> VECTOR -> Z -> VECTOR * Z
}.

(** ** The state of the process

    The file-scope variables of [train.c], the [static] of
    [compute_log_posterior], the generator, and what the unconditional
    [printf]s of [compute_log_posterior] wrote. *)

(** The three NaN messages of [compute_log_posterior], with the position
    [i] they report. *)
Inductive nan_message : Type :=
| NanLogEtaNorm (i : Z)   (* "NAN log(eta_norm) at i= ..." *)
| NanHereAA (i : Z)       (* "NAN here at i= ..., aa" *)
| NanHereBB (i : Z).      (* "NAN here at i= ..., bb" *)

Record globals : Type := {
  rng : rng_state;
  log_lambda_pmf : option (list double);   (* [None] is the NULL pointer *)
  log_eta_pmf : option (list double);
  eta_norm : double;
  n_add : Z;
  n_delete : Z;
  n_swap : Z;
  printed : list nan_message               (* latest first *)
}.

(** A C function that reads and writes the state and can go wrong. *)
Definition prog (A : Type) : Type := globals -> res (A * globals).

Definition pret {A} (a : A) : prog A := fun g => Ret (a, g).
Definition pfail {A} (e : error) : prog A := fun _ => Fail e.
Definition pbind {A B} (c : prog A) (k : A -> prog B) : prog B :=
  fun g => match c g with
           | Ret (a, g') => k a g'
           | Fail e => Fail e
           end.
Definition lift {A} (r : res A) : prog A :=
  fun g => match r with Ret a => Ret (a, g) | Fail e => Fail e end.

Notation "x <~ c ;; k" := (pbind c (fun x => k))
  (at level 61, c at next level, right associativity) : res_scope.
Notation "' p <~ c ;; k" := (pbind c (fun x => let p := x in k))
  (at level 61, p pattern, c at next level, right associativity) : res_scope.

(** [rand()] and [random()]. *)
Definition rand : prog Z :=
  fun g =>
    let (r, s) := next_draw (rng g) in
    Ret (r, {| rng := s; log_lambda_pmf := log_lambda_pmf g;
               log_eta_pmf := log_eta_pmf g; eta_norm := eta_norm g;
               n_add := n_add g; n_delete := n_delete g; n_swap := n_swap g;
               printed := printed g |}).
Definition random : prog Z := rand.

(** A library function that draws from the generator. *)
Definition with_rng {A} (f : rng_state -> res (A * rng_state)) : prog A :=
  fun g =>
    match f (rng g) with
    | Ret (a, s) =>
        Ret (a, {| rng := s; log_lambda_pmf := log_lambda_pmf g;
                   log_eta_pmf := log_eta_pmf g; eta_norm := eta_norm g;
                   n_add := n_add g; n_delete := n_delete g; n_swap := n_swap g;
                   printed := printed g |})
    | Fail e => Fail e
    end.

Definition printf (m : nan_message) : prog unit :=
  fun g =>
    Ret (tt, {| rng := rng g; log_lambda_pmf := log_lambda_pmf g;
                log_eta_pmf := log_eta_pmf g; eta_norm := eta_norm g;
                n_add := n_add g; n_delete := n_delete g; n_swap := n_swap g;
                printed := m :: printed g |}).

(** [a % b] of C on integers. *)
Definition c_mod (a b : Z) : res Z :=
  if b =? 0 then Fail Undefined else Ret (Z.rem a b).

(** State updates of the globals. *)
Definition set_pmf (llp lep : option (list double)) (en : double) (g : globals) : globals :=
  {| rng := rng g; log_lambda_pmf := llp; log_eta_pmf := lep; eta_norm := en;
     n_add := n_add g; n_delete := n_delete g; n_swap := n_swap g;
     printed := printed g |}.

Definition set_moves (a d s : Z) (g : globals) : globals :=
  {| rng := rng g; log_lambda_pmf := log_lambda_pmf g;
     log_eta_pmf := log_eta_pmf g; eta_norm := eta_norm g;
     n_add := a; n_delete := d; n_swap := s; printed := printed g |}.

Definition get {A} (f : globals -> A) : prog A := fun g => Ret (f g, g).
Definition modify (f : globals -> globals) : prog unit := fun g => Ret (tt, f g).

(** The pointer read [*p] of a table that may be [NULL]. *)
Definition deref {A} (p : option A) : res A :=
  match p with Some a => Ret a | None => Fail Undefined end.

(** [for (i = lo; i < lo + n; i++) body], without and with effects. *)
Fixpoint for_range {S : Type} (n : nat) (i : Z) (body : Z -> S -> res S) (s : S)
  : res S :=
  match n with
  | O => Ret s
  | Datatypes.S n' => s' <- body i s ;; for_range n' (i + 1) body s'
  end.

Fixpoint pfor_range {S : Type} (n : nat) (i : Z) (body : Z -> S -> prog S) (s : S)
  : prog S :=
  match n with
  | O => pret s
  | Datatypes.S n' => s' <~ body i s ;; pfor_range n' (i + 1) body s'
  end.

(** [f(0), ..., f(n-1)]: a table filled by [for (i = 0; i < n; i++)]. *)
Definition table (n : Z) (f : Z -> double) : list double :=
  map (fun i => f (Z.of_nat i)) (seq 0 (Z.to_nat n)).

Definition MAX_RULE_CARDINALITY := 10.

(** ** The embedding of [train.c] *)

Section Train.
Context {M : MathLib} {L : RuleLib}.

(** [random() / (float)RAND_MAX]: the division is done in [float], the
    result is passed to [log] as a [double]. *)
Definition unit_draw (r : Z) : double :=
  d_of_float (fdiv (f_of_int r) (f_of_int RAND_MAX)).

(** The acceptance predicates. [extra] is the value [*extra] read at the
    call; [random()] is called only when the first conjunct holds. *)
Definition mcmc_accepts
    (new_log_post old_log_post prefix_bound max_log_post extra : double)
  : prog bool :=
  if dgt prefix_bound max_log_post then
    r <~ random ;;
    pret (dlt (log (unit_draw r))
              (dadd (dsub new_log_post old_log_post) (log extra)))
  else pret false.

Definition sa_accepts
    (new_log_post old_log_post prefix_bound max_log_post extra : double)
  : prog bool :=
  if dgt prefix_bound max_log_post then
    if dgt new_log_post old_log_post then pret true
    else
      r <~ random ;;
      pret (dlt (log (unit_draw r))
                (ddiv (dsub new_log_post old_log_post) extra))
  else pret false.

(** *** [compute_log_posterior] *)

(** The prior pre-calculation, done when [log_lambda_pmf == NULL]. *)
Definition init_pmf (nrules : Z) (params : params_t) : prog unit :=
  fun g =>
    match log_lambda_pmf g with
    | Some _ => Ret (tt, g)
    | None =>
        Ret (tt,
             set_pmf
               (Some (table nrules
                        (fun i => log (gsl_ran_poisson_pdf i (lambda params)))))
               (Some (table (1 + MAX_RULE_CARDINALITY)
                        (fun i => log (gsl_ran_poisson_pdf i (eta params)))))
               (dsub (gsl_cdf_poisson_P MAX_RULE_CARDINALITY (eta params))
                     (gsl_ran_poisson_pdf 0 (eta params)))
               g)
    end.

(** [card_count[rules[i].cardinality]++] for every rule of the library.
    ([maxcard] of the source is never read and is left out.) *)
Definition count_card (rules : list rule_t) (i : Z) (card_count : list Z)
  : res (list Z) :=
  r <- zth rules i ;;
  c <- zth card_count (cardinality r) ;;
  zset card_count (cardinality r) (c + 1).

Definition card_counts (rules : list rule_t) (nrules : Z) : res (list Z) :=
  for_range (Z.to_nat nrules) 0 (count_card rules)
    (repeat 0 (Z.to_nat (1 + MAX_RULE_CARDINALITY))).

(** The index of the lambda table whose entry starts [prefix_prior]. *)
Definition prefix_lambda_index (n_rules : Z) (lam : double) : res Z :=
  if dgt (d_of_int (n_rules - 1)) lam then Ret (n_rules - 1)
  else int_of_double lam.

Definition prefix_lambda_term (tbl : list double) (n_rules : Z) (lam : double)
  : res double :=
  i <- prefix_lambda_index n_rules lam ;; zth tbl i.

Record prior_state : Type := {
  log_prior : double;
  prefix_prior : double;
  norm_constant : double;
  card_count : list Z
}.

Definition warn_if (b : bool) (m : nan_message) : prog unit :=
  if b then printf m else pret tt.

(** One turn of the loop over the positions before the default rule. *)
Definition prior_step (rs : ruleset_t) (rules : list rule_t) (lep : list double)
    (length4bound : Z) (i : Z) (st : prior_state) : prog prior_state :=
  e <~ lift (zth (rs_rules rs) i) ;;
  r <~ lift (zth rules (rule_id e)) ;;
  let li := cardinality r in
  let lnc := log (norm_constant st) in
  _ <~ warn_if (dne lnc lnc) (NanLogEtaNorm i) ;;
  le <~ lift (zth lep li) ;;
  let lp1 := dadd (log_prior st) (dsub le lnc) in
  _ <~ warn_if (dne lp1 lp1) (NanHereAA i) ;;
  cc <~ lift (zth (card_count st) li) ;;
  let lcc := log (d_of_int cc) in
  let lp2 := dadd lp1 (dneg lcc) in
  _ <~ warn_if (dne lp2 lp2) (NanHereBB i) ;;
  let pp :=
    if i <=? length4bound
    then dadd (prefix_prior st) (dsub (dsub le lnc) lcc)
    else prefix_prior st in
  cc' <~ lift (zset (card_count st) li (cc - 1)) ;;
  let nc :=
    if cc - 1 =? 0 then dsub (norm_constant st) (exp le)
    else norm_constant st in
  pret {| log_prior := lp2; prefix_prior := pp; norm_constant := nc;
          card_count := cc' |}.

Record lik_state : Type := {
  log_likelihood : double;
  prefix_log_likelihood : double;
  left0 : Z;
  left1 : Z
}.

(** One turn of the loop over all positions, the default rule included. *)
Definition lik_step (rs : ruleset_t) (label0 : rule_t) (params : params_t)
    (length4bound : Z) (j : Z) (st : lik_state) : res lik_state :=
  e <- zth (rs_rules rs) j ;;
  let n0 := snd (rule_vand (captures e) (truthtable label0) (n_samples rs)) in
  let n1 := ncaptured e - n0 in
  let lg := gsl_sf_lngamma in
  let a0 := fst (alpha params) in
  let a1 := snd (alpha params) in
  let ll :=
    dadd (log_likelihood st)
      (dsub (dadd (lg (dadd (d_of_int n0) a0)) (lg (dadd (d_of_int n1) a1)))
            (lg (dadd (dadd (d_of_int (n0 + n1)) a0) a1))) in
  let l0 := left0 st - n0 in
  let l1 := left1 st - n1 in
  let pll :=
    if j <=? length4bound then
      let p1 :=
        dadd (prefix_log_likelihood st)
          (dsub (dadd (lg (d_of_int (n0 + 1))) (lg (d_of_int (n1 + 1))))
                (lg (d_of_int (n0 + n1 + 2)))) in
      if j =? length4bound then
        dadd p1
          (dsub (dadd (dadd (dsub (dadd (lg (d_of_int 1)) (lg (d_of_int (l0 + 1))))
                                  (lg (d_of_int (l0 + 2))))
                            (lg (d_of_int 1)))
                      (lg (d_of_int (l1 + 1))))
                (lg (d_of_int (l1 + 2))))
      else p1
    else prefix_log_likelihood st in
  Ret {| log_likelihood := ll; prefix_log_likelihood := pll;
         left0 := l0; left1 := l1 |}.

(** [compute_log_posterior]: the log posterior and [*prefix_bound].
    ([ifPrint] only selects debugging output.) *)
Definition compute_log_posterior (rs : ruleset_t) (rules : list rule_t)
    (nrules : Z) (labels : list rule_t) (params : params_t)
    (ifPrint : Z) (length4bound : Z) : prog (double * double) :=
  _ <~ init_pmf nrules params ;;
  cc <~ lift (card_counts rules nrules) ;;
  en <~ get eta_norm ;;
  llp <~ (p <~ get log_lambda_pmf ;; lift (deref p)) ;;
  lep <~ (p <~ get log_eta_pmf ;; lift (deref p)) ;;
  lm <~ lift (zth llp (n_rules rs - 1)) ;;
  pl <~ lift (prefix_lambda_term llp (n_rules rs) (lambda params)) ;;
  pr <~ pfor_range (Z.to_nat (n_rules rs - 1)) 0
          (prior_step rs rules lep length4bound)
          {| log_prior := dadd d0 lm; prefix_prior := dadd d0 pl;
             norm_constant := en; card_count := cc |} ;;
  label0 <~ lift (zth labels 0) ;;
  label1 <~ lift (zth labels 1) ;;
  lk <~ lift (for_range (Z.to_nat (n_rules rs)) 0
                (lik_step rs label0 params length4bound)
                {| log_likelihood := d0; prefix_log_likelihood := d0;
                   left0 := support label0; left1 := support label1 |}) ;;
  pret (dadd (log_prior pr) (log_likelihood lk),
        dadd (prefix_prior pr) (prefix_log_likelihood lk)).

(** *** [ruleset_proposal] *)

Definition MOVEPROBS : list double :=
  [ d0; d1; d0;
    d0; d0_5; d0_5;
    d0_5; d0; d0_5;
    d_third; d_third; d_third;
    d_third; d_third; d_third ].

Definition JUMPRATIOS : list double :=
  [ d0; d0_5; d0;
    d0; d_two_thirds; d2;
    d1; d0; d_two_thirds;
    d1; d1_5; d1;
    d1; d1; d1 ].

(** The [if]/[else if] chain that selects the row of the tables. *)
Definition regime_offset (n_rules nrules : Z) : Z :=
  if n_rules =? 1 then 0
  else if n_rules =? 2 then 3
  else if n_rules =? nrules - 1 then 6
  else if n_rules =? nrules - 2 then 9
  else 12.

(** [memcpy(row, TABLE + offset, 3 * sizeof(double))]. *)
Definition row3 (tbl : list double) (offset : Z) : list double :=
  firstn 3 (skipn (Z.to_nat offset) tbl).

Definition at3 (r : list double) (k : nat) : double := nth k r nan.

(** The moves, [*stepchar]: ['A'], ['D'], ['S']. *)
Inductive step_t : Type := StepA | StepD | StepS.

Record proposal_t : Type := {
  ndx1 : Z;
  ndx2 : Z;
  stepchar : step_t;
  jumpRatio : double
}.

(** [do { index2 = rand() % n; } while (index2 == index1);] *)
Fixpoint draw_other (fuel : nat) (n index1 : Z) : prog Z :=
  match fuel with
  | O => pfail OutOfFuel
  | S fuel' =>
      r <~ rand ;;
      index2 <~ lift (c_mod r n) ;;
      if index2 =? index1 then draw_other fuel' n index1 else pret index2
  end.

(** [(double)rand() / RAND_MAX]. *)
Definition unit_double (r : Z) : double := ddiv (d_of_int r) (d_of_int RAND_MAX).

(** [ruleset_proposal]. In the last [else] of the source nothing is
    assigned and the function then copies the uninitialised [index1] and
    [index2] out: undefined. [fuel] bounds the turns of the swap loop. *)
Definition ruleset_proposal (fuel : nat) (rs : ruleset_t) (nrules : Z)
  : prog proposal_t :=
  let offset := regime_offset (n_rules rs) nrules in
  let moveProbs := row3 MOVEPROBS offset in
  let jumpRatios := row3 JUMPRATIOS offset in
  r <~ rand ;;
  let u := unit_double r in
  if dlt u (at3 moveProbs 0) then
    r1 <~ rand ;;
    index1 <~ lift (c_mod r1 (n_rules rs - 1)) ;;
    index2 <~ draw_other fuel (n_rules rs - 1) index1 ;;
    pret {| ndx1 := index1; ndx2 := index2; stepchar := StepS;
            jumpRatio := at3 jumpRatios 0 |}
  else if dlt u (dadd (at3 moveProbs 0) (at3 moveProbs 1)) then
    index1 <~ with_rng (pick_random_rule nrules rs) ;;
    r2 <~ rand ;;
    index2 <~ lift (c_mod r2 (n_rules rs)) ;;
    pret {| ndx1 := index1; ndx2 := index2; stepchar := StepA;
            jumpRatio :=
              dmul (at3 jumpRatios 1) (d_of_int (nrules - 1 - n_rules rs)) |}
  else if dlt u (dadd (dadd (at3 moveProbs 0) (at3 moveProbs 1))
                      (at3 moveProbs 2)) then
    r1 <~ rand ;;
    index1 <~ lift (c_mod r1 (n_rules rs - 1)) ;;
    pret {| ndx1 := index1; ndx2 := 0; stepchar := StepD;
            jumpRatio :=
              dmul (at3 jumpRatios 2) (d_of_int (nrules - n_rules rs)) |}
  else pfail Undefined.

(** *** [propose] *)

(** Where the argument [extra] of [propose] points: at the cell that
    [jump_prob] points at too (as [run_mcmc] calls it), or at another cell
    with the given content (the [tk] of simulated annealing). *)
Inductive extra_ptr : Type :=
| ExtraJumpProb
| ExtraCell (v : double).

Definition read_extra (p : extra_ptr) (jump_prob : double) : double :=
  match p with
  | ExtraJumpProb => jump_prob
  | ExtraCell v => v
  end.

Definition accept_func_t : Type :=
  double -> double -> double -> double -> double -> prog bool.

(** The proposal after steps 1 to 3 of [propose]: the new rule list, its
    log posterior, its prefix bound and the jump ratio written to
    [*jump_prob]. *)
Record evaluated_t : Type := {
  rs_new : ruleset_t;
  new_log_post : double;
  prefix_bound : double;
  ev_jump_prob : double
}.

Definition bump_add : prog unit :=
  modify (fun g => set_moves (n_add g + 1) (n_delete g) (n_swap g) g).
Definition bump_delete : prog unit :=
  modify (fun g => set_moves (n_add g) (n_delete g + 1) (n_swap g) g).
Definition bump_swap : prog unit :=
  modify (fun g => set_moves (n_add g) (n_delete g) (n_swap g + 1) g).

Definition propose_eval (fuel : nat) (rs : ruleset_t) (rules labels : list rule_t)
    (nrules : Z) (params : params_t) : prog evaluated_t :=
  rs_copy <~ lift (ruleset_copy rs) ;;
  p <~ ruleset_proposal fuel rs_copy nrules ;;
  '(rs', change_ndx) <~
    match stepchar p with
    | StepA =>
        r <~ lift (ruleset_add rules nrules rs_copy (ndx1 p) (ndx2 p)) ;;
        _ <~ bump_add ;; pret (r, ndx2 p)
    | StepD =>
        r <~ lift (ruleset_delete rules nrules rs_copy (ndx1 p)) ;;
        _ <~ bump_delete ;; pret (r, ndx1 p)
    | StepS =>
        r <~ lift (ruleset_swap_any rs_copy (ndx1 p) (ndx2 p) rules) ;;
        _ <~ bump_swap ;; pret (r, ndx1 p)
    end ;;
  '(nlp, pb) <~ compute_log_posterior rs' rules nrules labels params 0 change_ndx ;;
  pret {| rs_new := rs'; new_log_post := nlp; prefix_bound := pb;
          ev_jump_prob := jumpRatio p |}.

(** What [propose] returns and leaves in the cells its pointer
    arguments address. *)
Record proposed_t : Type := {
  rs_ret : ruleset_t;
  jump_prob_out : double;      (* *jump_prob *)
  ret_log_post : double;       (* *ret_log_post *)
  cnt : Z                      (* *cnt *)
}.

Definition propose_decide (accept_func : accept_func_t) (rs : ruleset_t)
    (old_log_post max_log_post : double) (cnt0 : Z) (extra : extra_ptr)
    (ev : evaluated_t) : prog proposed_t :=
  let cnt1 := if dlt (prefix_bound ev) max_log_post then cnt0 + 1 else cnt0 in
  b <~ accept_func (new_log_post ev) old_log_post (prefix_bound ev) max_log_post
         (read_extra extra (ev_jump_prob ev)) ;;
  if b then
    pret {| rs_ret := rs_new ev; jump_prob_out := ev_jump_prob ev;
            ret_log_post := new_log_post ev; cnt := cnt1 |}
  else
    pret {| rs_ret := rs; jump_prob_out := ev_jump_prob ev;
            ret_log_post := old_log_post; cnt := cnt1 |}.

Definition propose (fuel : nat) (rs : ruleset_t) (rules labels : list rule_t)
    (nrules : Z) (old_log_post max_log_post : double) (cnt0 : Z)
    (extra : extra_ptr) (params : params_t) (accept_func : accept_func_t)
  : prog proposed_t :=
  ev <~ propose_eval fuel rs rules labels nrules params ;;
  propose_decide accept_func rs old_log_post max_log_post cnt0 extra ev.

(** *** [get_theta] *)

Definition theta_step (rs : ruleset_t) (label0 : rule_t) (params : params_t)
    (j : Z) (theta : list double) : res (list double) :=
  e <- zth (rs_rules rs) j ;;
  let n0 := snd (rule_vand (captures e) (truthtable label0) (n_samples rs)) in
  let n1 := ncaptured e - n0 in
  let a0 := fst (alpha params) in
  let a1 := snd (alpha params) in
  Ret (theta ++
       [ ddiv (dmul (dadd (d_of_int n1) a1) d1)
              (dadd (dadd (d_of_int (n1 + n0)) a0) a1) ]).

Definition get_theta (rs : ruleset_t) (rules labels : list rule_t)
    (params : params_t) : res (list double) :=
  label0 <- zth labels 0 ;;
  for_range (Z.to_nat (n_rules rs)) 0 (theta_step rs label0 params) [].

(** *** The chains: [run_mcmc] and [run_simulated_annealing] *)

(** The local variables of a chain that live across its iterations. *)
Record chain_t : Type := {
  cur_rs : ruleset_t;              (* rs *)
  log_post_rs : double;
  max_log_posterior : double;
  rs_idarray : list Z;
  len : Z;
  nsuccessful_rej : Z              (* [dummy] in simulated annealing *)
}.

(** One iteration: a proposal, then the update of the best list seen. *)
Definition chain_step (fuel : nat) (rules labels : list rule_t) (nrules : Z)
    (params : params_t) (extra : extra_ptr) (accept_func : accept_func_t)
    (st : chain_t) : prog chain_t :=
  p <~ propose fuel (cur_rs st) rules labels nrules (log_post_rs st)
         (max_log_posterior st) (nsuccessful_rej st) extra params accept_func ;;
  if dgt (ret_log_post p) (max_log_posterior st) then
    ids <~ lift (ruleset_backup (rs_ret p)) ;;
    pret {| cur_rs := rs_ret p; log_post_rs := ret_log_post p;
            max_log_posterior := ret_log_post p; rs_idarray := ids;
            len := n_rules (rs_ret p); nsuccessful_rej := cnt p |}
  else
    pret {| cur_rs := rs_ret p; log_post_rs := ret_log_post p;
            max_log_posterior := max_log_posterior st;
            rs_idarray := rs_idarray st; len := len st;
            nsuccessful_rej := cnt p |}.

Definition mcmc_step (fuel : nat) (rules labels : list rule_t) (nrules : Z)
    (params : params_t) (i : Z) (st : chain_t) : prog chain_t :=
  chain_step fuel rules labels nrules params ExtraJumpProb mcmc_accepts st.

(** [while (prefix_bound < v_star)]: draw initial rule lists until one has
    a prefix bound that is not below [v_star]. [rs] is [None] while it is
    [NULL]. *)
Fixpoint mcmc_init (fuel : nat) (init_size nsamples nrules : Z)
    (rules labels : list rule_t) (params : params_t) (v_star : double)
    (rs : option ruleset_t) (log_post prefix_bound0 : double)
  : prog (option ruleset_t * double) :=
  if dlt prefix_bound0 v_star then
    match fuel with
    | O => pfail OutOfFuel
    | S fuel' =>
        rs' <~ with_rng (create_random_ruleset init_size nsamples nrules rules) ;;
        '(lp, pb) <~ compute_log_posterior rs' rules nrules labels params 0 0 ;;
        mcmc_init fuel' init_size nsamples nrules rules labels params v_star
          (Some rs') lp pb
    end
  else pret (rs, log_post).

(** The chain at the start of the loop over the iterations. *)
Definition mcmc_start (fuel : nat) (init_size nsamples nrules : Z)
    (rules labels : list rule_t) (params : params_t) (v_star : double)
  : prog chain_t :=
  _ <~ modify (set_moves 0 0 0) ;;
  '(rs0, lp) <~ mcmc_init fuel init_size nsamples nrules rules labels params
                  v_star None d0 d_m1e10 ;;
  rs <~ lift (deref rs0) ;;
  ids <~ lift (ruleset_backup rs) ;;
  pret {| cur_rs := rs; log_post_rs := lp; max_log_posterior := lp;
          rs_idarray := ids; len := n_rules rs; nsuccessful_rej := 0 |}.

(** [run_mcmc]. ([init_gsl_rand_gen] leaves [RAND_GSL], which the chain
    never reads, as it is.) *)
Definition run_mcmc (fuel : nat) (iters init_size nsamples nrules : Z)
    (rules labels : list rule_t) (params : params_t) (v_star : double)
  : prog ruleset_t :=
  st0 <~ mcmc_start fuel init_size nsamples nrules rules labels params v_star ;;
  st <~ pfor_range (Z.to_nat iters) 0 (mcmc_step fuel rules labels nrules params) st0 ;;
  lift (ruleset_init (len st) nsamples (rs_idarray st) rules).

(** The cooling schedule of [run_simulated_annealing]: [T[0 .. ntimepoints-1]]
    and the last [tmp[i]]. [T] has room for 100000 temperatures. *)
Record schedule_t : Type := {
  sched_T : list double;
  sched_tmp : double
}.

Definition schedule_step (i : Z) (st : schedule_t) : res schedule_t :=
  let tmp_i := dadd (sched_tmp st) (exp (dmul d0_25 (d_of_int (i + 1)))) in
  lo <- int_of_double (sched_tmp st) ;;
  hi <- int_of_double tmp_i ;;
  let T' := sched_T st ++ repeat (ddiv d1 (d_of_int (i + 1))) (Z.to_nat (hi - lo)) in
  if Z.of_nat (length T') <=? 100000
  then Ret {| sched_T := T'; sched_tmp := tmp_i |}
  else Fail Undefined.

Definition cooling_schedule : res (list double) :=
  st <- for_range 27 1 schedule_step {| sched_T := []; sched_tmp := d_of_int 1 |} ;;
  Ret (sched_T st).





(** *** [train] *)

(** The loop over the chains after the first. [destroyed] lists the final
    rule lists of chains that [train] handed to [ruleset_destroy], each with
    the log posterior [train] computed for it, latest first. *)
Record best_t : Type := {
  best_rs : ruleset_t;       (* rs *)
  max_pos : double;
  destroyed : list (ruleset_t * double)
}.

Definition train_chain (fuel : nat) (train_data : data_t) (params : params_t)
    (chain : Z) (b : best_t) : prog best_t :=
  rs_temp <~ run_mcmc fuel (iters params) (init_size params)
               (td_nsamples train_data) (td_nrules train_data)
               (td_rules train_data) (td_labels train_data) params (max_pos b) ;;
  '(pos_temp, _) <~ compute_log_posterior rs_temp (td_rules train_data)
                      (td_nrules train_data) (td_labels train_data) params 1 (-1) ;;
  if dge pos_temp (max_pos b) then
    pret {| best_rs := rs_temp; max_pos := pos_temp;
            destroyed := (best_rs b, max_pos b) :: destroyed b |}
  else
    pret {| best_rs := best_rs b; max_pos := max_pos b;
            destroyed := (rs_temp, pos_temp) :: destroyed b |}.

Definition train_chains (fuel : nat) (train_data : data_t) (params : params_t)
  : prog best_t :=
  rs <~ run_mcmc fuel (iters params) (init_size params)
          (td_nsamples train_data) (td_nrules train_data)
          (td_rules train_data) (td_labels train_data) params d_m1e9 ;;
  '(pos, _) <~ compute_log_posterior rs (td_rules train_data)
                 (td_nrules train_data) (td_labels train_data) params 1 (-1) ;;
  pfor_range (Z.to_nat (nchain params - 1)) 1 (train_chain fuel train_data params)
    {| best_rs := rs; max_pos := pos; destroyed := [] |}.

(** [free(log_lambda_pmf); free(log_eta_pmf)]: the pointers keep their
    value and address nothing that may be read. *)
Definition free_pmf : prog unit :=
  modify (fun g =>
            set_pmf (option_map (fun _ => []) (log_lambda_pmf g))
                    (option_map (fun _ => []) (log_eta_pmf g))
                    (eta_norm g) g).

Definition train (fuel : nat) (train_data : data_t) (initialization method : Z)
    (params : params_t) : prog pred_model_t :=
  b <~ train_chains fuel train_data params ;;
  theta <~ lift (get_theta (best_rs b) (td_rules train_data)
                   (td_labels train_data) params) ;;
  _ <~ free_pmf ;;
  pret {| pm_rs := best_rs b; pm_theta := theta |}.

End Train.

(** ** The helpers of [train.c] for GSL

    [RAND_GSL] is a file-scope pointer that [train.c] initialises to
    nothing, so that it is [NULL] when the process starts. A generator is
    its state; a Poisson sample is an [unsigned int]. *)

Class GslLib : Type := {
  gsl_rng : Type;
  (** [gsl_rng_env_setup(); gsl_rng_alloc(gsl_rng_default)] *)
  gsl_rng_alloc_default : gsl_rng;
  gsl_ran_poisson : gsl_rng -> double -> N * gsl_rng;
  gsl_ran_gamma_pdf : double -> double -> double -> double
}.

Section Gsl.
Context {M : MathLib} {G : GslLib}.

(** [init_gsl_rand_gen]: the generator is allocated when [RAND_GSL] is
    not [NULL]. *)
Definition init_gsl_rand_gen (RAND_GSL : option gsl_rng) : option gsl_rng :=
  match RAND_GSL with
  | Some _ => Some gsl_rng_alloc_default
  | None => None
  end.

(** The conversion [(int)k] of an [unsigned int], as gcc defines it. *)
Definition int_of_unsigned (k : N) : Z :=
  let z := Z.of_N k mod 2 ^ 32 in
  if z <=? INT_MAX then z else z - 2 ^ 32.

(** A sample through [RAND_GSL]: GSL reads the generator it is given. *)
Definition sample_poisson (mu : double) (RAND_GSL : option gsl_rng)
  : res (N * option gsl_rng) :=
  match RAND_GSL with
  | None => Fail Undefined
  | Some r => let (k, r') := gsl_ran_poisson r mu in Ret (k, Some r')
  end.

Definition gen_poisson (mu : double) (RAND_GSL : option gsl_rng)
  : res (Z * option gsl_rng) :=
  '(k, r) <- sample_poisson mu RAND_GSL ;; Ret (int_of_unsigned k, r).

Definition gen_poission_pdf (k : Z) (mu : double) : double := gsl_ran_poisson_pdf k mu.

Definition gen_gamma_pdf (x a b : double) : double := gsl_ran_gamma_pdf x a b.

(** [gsl_ran_poisson_test]: two samples of mean 5, then [nrolls] samples
    of mean 4.1 counted in [p[0 .. 9]], then a row of
    [p[i] * nstars / nrolls] stars for each [i]. What it prints: the two
    samples and the numbers of stars. *)
Definition nrolls : Z := 10000.
Definition nstars : Z := 100.
Definition d4_1 : double := Eval vm_compute in ddiv (d_of_int 41) (d_of_int 10).

Definition poisson_roll (i : Z) (st : list Z * option gsl_rng)
  : res (list Z * option gsl_rng) :=
  '(number, r) <- sample_poisson d4_1 (snd st) ;;
  if (number <? 10)%N then
    c <- zth (fst st) (Z.of_N number) ;;
    p <- zset (fst st) (Z.of_N number) (c + 1) ;;
    Ret (p, r)
  else Ret (fst st, r).

Definition star_row (p : list Z) (i : Z) (rows : list Z) : res (list Z) :=
  c <- zth p i ;;
  Ret (rows ++ [Z.max 0 (Z.quot (c * nstars) nrolls)]).

Record poisson_test_output : Type := {
  pt_k1 : N;
  pt_k2 : N;
  pt_stars : list Z
}.

Definition gsl_ran_poisson_test (RAND_GSL : option gsl_rng)
  : res (poisson_test_output * option gsl_rng) :=
  '(k1, r1) <- sample_poisson (d_of_int 5) RAND_GSL ;;
  '(k2, r2) <- sample_poisson (d_of_int 5) r1 ;;
  '(p, r3) <- for_range (Z.to_nat nrolls) 0 poisson_roll (repeat 0 10, r2) ;;
  rows <- for_range 10 0 (star_row p) [] ;;
  Ret ({| pt_k1 := k1; pt_k2 := k2; pt_stars := rows |}, r3).

End Gsl.

(** ** Reference mathematics for worked examples

    An implementation of [MathLib] that computes: [log] and [exp] by series
    in fixed point with 192 fractional bits, rounded once to binary64;
    [gsl_sf_lngamma] at the positive integers, as the logarithm of the
    factorial (NaN elsewhere: the examples use integer arguments only);
    the Poisson density by the formula of GSL,
    [exp(log(mu) * k - lnfact(k) - mu)], and the Poisson distribution
    function as the sum of the densities. *)

Module RefMath.

Definition P : Z := 192.
Definition one : Z := Eval vm_compute in 2 ^ P.

(** [sum over k < n of z^(2k+1) / (2k+1)], scaled by [2^P], for
    [z^2 = num2 / den2]; [t] is the current power of [z]. *)
Fixpoint atanh_terms (n : nat) (k t num2 den2 acc : Z) : Z :=
  match n with
  | O => acc
  | S n' =>
      atanh_terms n' (k + 1) (t * num2 / den2) num2 den2 (acc + t / (2 * k + 1))
  end.

Definition atanh_fix (num den : Z) : Z :=
  atanh_terms 70 0 (num * one / den) (num * num) (den * den) 0.

Definition ln2_fix : Z := Eval vm_compute in 2 * atanh_fix 1 3.

(** [log (m * 2^e)], scaled by [2^P]:
    [m = x * 2^(d-1)] with [x] in [1, 2) and
    [log x = 2 atanh ((x - 1) / (x + 1))]. *)
Definition log_fix (m : positive) (e : Z) : Z :=
  let d := Zpos (digits2_pos m) in
  let h := 2 ^ (d - 1) in
  2 * atanh_fix (Zpos m - h) (Zpos m + h) + (e + d - 1) * ln2_fix.

Definition ref_log (x : double) : double :=
  match x with
  | S754_nan => nan
  | S754_zero _ => ninf
  | S754_infinity false => pinf
  | S754_infinity true => nan
  | S754_finite true _ _ => nan
  | S754_finite false m e => binary_normalize prec64 emax64 (log_fix m e) (- P) false
  end.

(** [sum over k < n of r^k / k!], scaled by [2^P]; [t] is the current term. *)
Fixpoint exp_terms (n : nat) (k t r acc : Z) : Z :=
  match n with
  | O => acc
  | S n' => exp_terms n' (k + 1) (t * r / one / (k + 1)) r (acc + t)
  end.

Definition ref_exp (x : double) : double :=
  match x with
  | S754_nan => nan
  | S754_zero _ => d1
  | S754_infinity false => pinf
  | S754_infinity true => d0
  | S754_finite s m e =>
      if 11 <? Zpos (digits2_pos m) + e then (if s then d0 else pinf)
      else
        let X := cond_Zopp s (Z.shiftl (Zpos m) (e + P)) in
        let k := X / ln2_fix in
        let r := X mod ln2_fix in
        binary_normalize prec64 emax64 (exp_terms 60 0 one r 0) (k - P) false
  end.

Fixpoint fact_Z (n : nat) : Z :=
  match n with
  | O => 1
  | S n' => Z.of_nat n * fact_Z n'
  end.

Definition ref_lngamma (x : double) : double :=
  match x with
  | S754_infinity false => pinf
  | S754_finite false m e =>
      let n := Z.shiftl (Zpos m) e in
      if (SFeqb (d_of_int n) x) && (1 <=? n) && (n <=? 100000) then
        match fact_Z (Z.to_nat (n - 1)) with
        | Zpos f => binary_normalize prec64 emax64 (log_fix f 0) (- P) false
        | _ => nan
        end
      else nan
  | _ => nan
  end.

Definition ref_poisson_pdf (k : Z) (mu : double) : double :=
  ref_exp (dsub (dsub (dmul (ref_log mu) (d_of_int k))
                      (ref_lngamma (d_of_int (k + 1))))
                mu).

Definition ref_poisson_P (k : Z) (mu : double) : double :=
  fold_left (fun acc i => dadd acc (ref_poisson_pdf (Z.of_nat i) mu))
            (seq 0 (Z.to_nat (k + 1))) d0.

Definition lib : MathLib := {|
  log := ref_log;
  exp := ref_exp;
  gsl_sf_lngamma := ref_lngamma;
  gsl_ran_poisson_pdf := ref_poisson_pdf;
  gsl_cdf_poisson_P := ref_poisson_P
|}.

(** The values glibc's [exp] returns at [0.25 * k], [k = 2 .. 28], the
    arguments of the cooling schedule (mantissa and exponent). *)
Definition glibc_exp_quarters : list (positive * Z) :=
  [ (7425180500362908%positive, -52); (4767060242980088%positive, -51);
    (6121026514868073%positive, -51); (7859553621310192%positive, -51);
    (5045933306791233%positive, -50); (6479106616831167%positive, -50);
    (8319337573440942%positive, -50); (5341120447151745%positive, -49);
    (6858134407733435%positive, -49); (8806018890590461%positive, -49);
    (5653576037675270%positive, -48); (7259335327551819%positive, -48);
    (4660585534417883%positive, -47); (5984310282839783%positive, -47);
    (7684006504512088%positive, -47); (4933229826893725%positive, -46);
    (6334392484093610%positive, -46); (8133520948851996%positive, -46);
    (5221823812744079%positive, -45); (6704954497028687%positive, -45);
    (8609331991919606%positive, -45); (5527300549163838%positive, -44);
    (7097194390798479%positive, -44); (4556488992479459%positive, -43);
    (5850647677201545%positive, -43); (7512380321611881%positive, -43);
    (4823043636387242%positive, -42) ].

End RefMath.

(** ** The rule library, from the specification *)

Module SpecRules.

(** Modelled from the spec: the number of set bits of a bit vector
    ([popcount] of section 3; [rulelib.c] is not part of the sources). *)
Fixpoint popcount_pos (p : positive) : Z :=
  match p with
  | xH => 1
  | xO q => popcount_pos q
  | xI q => 1 + popcount_pos q
  end.

Definition popcount (v : VECTOR) : Z :=
  match v with
  | Zpos p => popcount_pos p
  | _ => 0
  end.

(** Modelled from the spec: [and(a,b) -> (c, popcount)] of section 4.1. *)
Definition spec_vand (a b : VECTOR) (n : Z) : VECTOR * Z :=
  (Z.land a b, popcount (Z.land a b)).

(** Modelled from the spec: invariants I2 and I3 of section 3, the captures
    of a position are the samples its rule matches and no earlier position
    captured. [seen] is the union of the earlier captures. *)
Fixpoint cascade (rules : list rule_t) (ids : list Z) (seen : VECTOR)
  : res (list ruleset_entry_t) :=
  match ids with
  | [] => Ret []
  | id :: ids' =>
      r <- zth rules id ;;
      let c := Z.ldiff (truthtable r) seen in
      es <- cascade rules ids' (Z.lor seen c) ;;
      Ret ({| rule_id := id; ncaptured := popcount c; captures := c |} :: es)
  end.

(** Modelled from the spec: [rebuild(ids, library)] of section 4.2. *)
Definition rebuild (nsamples : Z) (rules : list rule_t) (ids : list Z)
  : res ruleset_t :=
  es <- cascade rules ids 0 ;;
  Ret {| n_rules := Z.of_nat (length ids); n_samples := nsamples; rs_rules := es |}.

(** Modelled from the spec: [backup(rs)] of section 4.2. *)
Definition ids_of (rs : ruleset_t) : list Z := map rule_id (rs_rules rs).

(** Modelled from the spec: [add], [delete] and [swap_any] of section 4.2,
    with their ranges of positions; outside them the call is undefined. *)
Definition spec_add (rules : list rule_t) (nrules : Z) (rs : ruleset_t)
    (id position : Z) : res ruleset_t :=
  if (0 <=? position) && (position <=? n_rules rs - 1) then
    let k := Z.to_nat position in
    rebuild (n_samples rs) rules
      (firstn k (ids_of rs) ++ id :: skipn k (ids_of rs))
  else Fail Undefined.

Definition spec_delete (rules : list rule_t) (nrules : Z) (rs : ruleset_t)
    (position : Z) : res ruleset_t :=
  if (0 <=? position) && (position <=? n_rules rs - 2) then
    let k := Z.to_nat position in
    rebuild (n_samples rs) rules
      (firstn k (ids_of rs) ++ skipn (S k) (ids_of rs))
  else Fail Undefined.

Definition spec_swap_any (rs : ruleset_t) (i j : Z) (rules : list rule_t)
  : res ruleset_t :=
  if (0 <=? i) && (i <=? n_rules rs - 2) && (0 <=? j) && (j <=? n_rules rs - 2)
     && negb (i =? j) then
    a <- zth (ids_of rs) i ;;
    b <- zth (ids_of rs) j ;;
    l1 <- zset (ids_of rs) i b ;;
    l2 <- zset l1 j a ;;
    rebuild (n_samples rs) rules l2
  else Fail Undefined.

Definition spec_init (n nsamples : Z) (ids : list Z) (rules : list rule_t)
  : res ruleset_t :=
  rebuild nsamples rules (firstn (Z.to_nat n) ids).

(** Modelled from the spec: rejection sampling over [0, nrules) of a rule
    that is not in the list (section 4.4, Add). The default rule, id 0, is
    in every list. At most [fuel] draws. *)
Fixpoint draw_fresh (fuel : nat) (nrules : Z) (used : list Z) (g : rng_state)
  : res (Z * rng_state) :=
  match fuel with
  | O => Fail OutOfFuel
  | S fuel' =>
      let (r, g') := next_draw g in
      id <- c_mod r nrules ;;
      if existsb (Z.eqb id) used then draw_fresh fuel' nrules used g'
      else Ret (id, g')
  end.

Definition spec_pick_random_rule (nrules : Z) (rs : ruleset_t) (g : rng_state)
  : res (Z * rng_state) :=
  draw_fresh 1000 nrules (ids_of rs) g.

(** Modelled from the spec: [create_random] of section 4.2, [init_size]
    distinct rules drawn one after the other, then the default rule. *)
Fixpoint draw_ids (n : nat) (nrules : Z) (chosen : list Z) (g : rng_state)
  : res (list Z * rng_state) :=
  match n with
  | O => Ret (chosen ++ [0], g)
  | S n' =>
      '(id, g') <- draw_fresh 1000 nrules (0 :: chosen) g ;;
      draw_ids n' nrules (chosen ++ [id]) g'
  end.

Definition spec_create_random_ruleset (init_size nsamples nrules : Z)
    (rules : list rule_t) (g : rng_state) : res (ruleset_t * rng_state) :=
  '(ids, g') <- draw_ids (Z.to_nat init_size) nrules [] g ;;
  rs <- rebuild nsamples rules ids ;;
  Ret (rs, g').

Definition lib : RuleLib := {|
  ruleset_copy := fun rs => Ret rs;
  ruleset_add := spec_add;
  ruleset_delete := spec_delete;
  ruleset_swap_any := spec_swap_any;
  ruleset_backup := fun rs => Ret (ids_of rs);
  ruleset_init := spec_init;
  create_random_ruleset := spec_create_random_ruleset;
  pick_random_rule := spec_pick_random_rule;
  rule_vand := spec_vand
|}.

End SpecRules.

(** ** A small training set

    Eight samples, bit [j] of a vector is sample [j]; class 0 is samples 4
    to 7, class 1 is samples 0 to 3. Rule 0 is the default rule; rule 1
    matches exactly class 0. *)

Module Toy.

Definition mk_rule (card : Z) (tt : VECTOR) : rule_t :=
  {| cardinality := card; support := SpecRules.popcount tt; truthtable := tt |}.

Definition rules : list rule_t :=
  [ mk_rule 0 255; mk_rule 1 240; mk_rule 1 170; mk_rule 2 204 ].
Definition labels : list rule_t := [ mk_rule 1 240; mk_rule 1 15 ].
Definition nrules : Z := 4.
Definition nsamples : Z := 8.

Definition params : params_t :=
  {| lambda := d1; eta := d1; threshold := d0_5; alpha := (d1, d1);
     iters := 3; init_size := 1; nchain := 3 |}.

Definition data : data_t :=
  {| td_rules := rules; td_labels := labels; td_nrules := nrules;
     td_nsamples := nsamples |}.

(** A generator state whose draws are the given ones, then zeros. *)
Definition replay (l : list Z) : rng_state :=
  {| draws := fun k => nth k l 0; cursor := 0 |}.

(** Sixty draws for the examples. *)
Definition sample_draws : list Z :=
  [ 1714975599; 1733452559; 55433204; 975884830; 199840141; 2022266433;
    712763; 577630074; 1605534718; 936943047; 719338710; 952721705;
    1637092034; 624966048; 63827396; 2101159724; 294512090; 1086335437;
    181662469; 1875460482; 1872762181; 173567564; 1072843929; 275623980;
    2076875011; 34146079; 589888129; 1596617512; 906850580; 668070982;
    880278716; 1543473784; 510172537; 2075342271; 1944015691; 116192795;
    886840881; 2108476300; 1633615404; 1609741842; 2036855613; 767473068;
    2096561506; 1729153628; 1812733083; 199816224; 1185370346; 474428153;
    214473293; 405505767; 1047525574; 2140532713; 1537043539; 1384541697;
    1683027188; 285016365; 1485476523; 989440366; 944391543; 1350330052 ].

(** The state of a process that has not run the trainer yet. *)
Definition fresh (r : rng_state) : globals :=
  {| rng := r; log_lambda_pmf := None; log_eta_pmf := None;
     eta_norm := d0; n_add := 0; n_delete := 0; n_swap := 0; printed := [] |}.

(** The state after the prior pre-calculation of [compute_log_posterior]
    with the reference mathematics: the tables of [lambda = eta = 1]. *)
Definition tables : globals :=
  Eval vm_compute in
    match @init_pmf RefMath.lib nrules params (fresh (replay [])) with
    | Ret (_, g) => g
    | Fail _ => fresh (replay [])
    end.

Definition ready (r : rng_state) : globals :=
  {| rng := r; log_lambda_pmf := log_lambda_pmf tables;
     log_eta_pmf := log_eta_pmf tables; eta_norm := eta_norm tables;
     n_add := 0; n_delete := 0; n_swap := 0; printed := [] |}.

(** The rule list with the given rule ids. *)
Definition ruleset (ids : list Z) : ruleset_t :=
  match SpecRules.rebuild nsamples rules ids with
  | Ret rs => rs
  | Fail _ => {| n_rules := 0; n_samples := nsamples; rs_rules := [] |}
  end.

End Toy.

(** * Notions of the properties *)

(** ** The order of doubles

    [SFcompare] orders the numbers as the lexicographic order of a class
    (negative infinity, negative, zero, positive, positive infinity), then
    the exponent and the mantissa, signed. *)

Module Order.

Definition rank (x : double) : Z * Z * Z :=
  match x with
  | S754_nan => (0, 0, 0)
  | S754_infinity true => (-2, 0, 0)
  | S754_finite true m e => (-1, - e, Zneg m)
  | S754_zero _ => (0, 0, 0)
  | S754_finite false m e => (1, e, Zpos m)
  | S754_infinity false => (2, 0, 0)
  end.

Definition lex_compare (a b : Z * Z * Z) : comparison :=
  let '(a1, a2, a3) := a in
  let '(b1, b2, b3) := b in
  match a1 ?= b1 with
  | Eq => match a2 ?= b2 with Eq => a3 ?= b3 | c => c end
  | c => c
  end.

Definition lex_lt (a b : Z * Z * Z) : Prop :=
  let '(a1, a2, a3) := a in
  let '(b1, b2, b3) := b in
  a1 < b1 \/ (a1 = b1 /\ (a2 < b2 \/ (a2 = b2 /\ a3 < b3))).

Definition lex_le (a b : Z * Z * Z) : Prop :=
  let '(a1, a2, a3) := a in
  let '(b1, b2, b3) := b in
  a1 < b1 \/ (a1 = b1 /\ (a2 < b2 \/ (a2 = b2 /\ a3 <= b3))).

(** A double that is zero, positive or NaN. *)
Definition not_negative (x : spec_float) : Prop :=
  match x with
  | S754_zero s | S754_infinity s | S754_finite s _ _ => s = false
  | S754_nan => True
  end.

(** [b] is [a], or above it. *)
Definition not_below (a b : double) : Prop := b = a \/ dlt a b = true.

(** Structural equality of doubles, to compare them by computation. *)
Definition same_double (x y : double) : bool :=
  match x, y with
  | S754_zero a, S754_zero b => Bool.eqb a b
  | S754_infinity a, S754_infinity b => Bool.eqb a b
  | S754_nan, S754_nan => true
  | S754_finite a m e, S754_finite b m' e' =>
      Bool.eqb a b && Pos.eqb m m' && Z.eqb e e'
  | _, _ => false
  end.

End Order.
Import Order.

(** ** The generator *)

(** The state after one draw, and the [j]-th draw from a state. *)
Definition advance (g : globals) : globals :=
  {| rng := snd (next_draw (rng g)); log_lambda_pmf := log_lambda_pmf g;
     log_eta_pmf := log_eta_pmf g; eta_norm := eta_norm g;
     n_add := n_add g; n_delete := n_delete g; n_swap := n_swap g;
     printed := printed g |}.

Definition nth_draw (g : globals) (j : nat) : Z :=
  fst (next_draw (rng (Nat.iter j advance g))).

(** A program that prints nothing. *)
Definition silent {A} (c : prog A) : Prop :=
  forall g a g', c g = Ret (a, g') -> printed g' = printed g.

(** ** The draw of the acceptance predicates *)

(** [r / 2^q] rounded to the nearest integer, a tie to the even one. *)
Definition nearest_even (r q : Z) : Z :=
  let k := r / 2 ^ q in
  let rem := r mod 2 ^ q in
  let half := 2 ^ (q - 1) in
  if rem <? half then k
  else if half <? rem then k + 1
  else if Z.even k then k else k + 1.

(** The value of [(float)r] for an integer [r >= 0]: [r] rounded to 24
    significant binary digits, a tie to the even one. *)
Definition round_to_float (r : Z) : Z :=
  let q := Z.log2 r + 1 - 24 in
  if q <=? 0 then r else nearest_even r q * 2 ^ q.

(** The double of value [n * 2^e], for an integer [n >= 0] of at most 53
    binary digits: its mantissa has 53 digits. *)
Definition dyadic (n e : Z) : double :=
  let s := 53 - (Z.log2 n + 1) in
  match n * 2 ^ s with
  | Zpos m => S754_finite false m (e - s)
  | _ => S754_zero false
  end.

(** The draw [r] of [random()] divided by [(float)RAND_MAX], in [float],
    as a [double]: [(float)r / 2^31], for [(float)RAND_MAX] is [2^31]. *)
Definition draw_quotient (r : Z) : double :=
  dyadic (round_to_float r) (- Z.log2 (round_to_float RAND_MAX)).

(** What [shr_1] keeps of the digits it drops: after [k >= 1] shifts of
    [m], the record holds [m / 2^k], the last digit dropped, and whether a
    digit dropped before it was set. *)
Definition shifted (m : Z) (k : Z) (mrs : shr_record) : Prop :=
  exists t,
    m = shr_m mrs * 2 ^ k + Z.b2z (shr_r mrs) * 2 ^ (k - 1) + t /\
    0 <= t < 2 ^ (k - 1) /\
    (shr_s mrs = true <-> 0 < t) /\
    0 <= shr_m mrs.

(** ** The proposal kernel *)

(** The move probabilities (swap, add, delete) in the words of the
    specification's table, section 4.4; a row applies when no row above it
    does. *)
Definition move_probabilities (n_rules nrules : Z) : double * double * double :=
  if n_rules =? 1 then (d0, d1, d0)
  else if n_rules =? 2 then (d0, d0_5, d0_5)
  else if n_rules =? nrules - 1 then (d0_5, d0, d0_5)
  else if n_rules =? nrules - 2 then (d_third, d_third, d_third)
  else (d_third, d_third, d_third).

(** ** The cooling schedule *)

(** The temperature of block [i]: [1.0 / (i + 1)]. *)
Definition block_temperature (i : Z) : double := ddiv d1 (d_of_int (i + 1)).

(** A sequence in which no temperature is above an earlier one. *)
Definition nonincreasing (T : list double) : Prop :=
  StronglySorted (fun a b => dle b a = true) T.

(** What glibc's [exp] returns at [0.25 * k], [k = 2 .. 28]. *)
Definition glibc_exp_quarter (k : Z) : double :=
  match nth_error RefMath.glibc_exp_quarters (Z.to_nat (k - 2)) with
  | Some (m, e) => S754_finite false m e
  | None => nan
  end.

(** The schedule with glibc's values of [exp]: the number of timepoints
    of each block [i = 1 .. 27], and the temperatures. *)
Definition glibc_block_sizes : list nat :=
  [ 1; 2; 3; 3; 5; 6; 7; 10; 12; 15; 20; 26; 33; 43; 55; 70; 90; 115; 149;
    190; 245; 314; 404; 518; 665; 854; 1096 ]%nat.

Definition glibc_schedule : list double :=
  flat_map (fun b => repeat (block_temperature (fst b)) (snd b))
           (combine (map Z.of_nat (seq 1 27)) glibc_block_sizes).

(** A sequence that decreases strictly, and the schedule the
    specification describes: about [10^5] temperatures (here: within a
    factor two of it), strictly decreasing, the first one [1/2]. *)
Definition strictly_decreasing (T : list double) : Prop :=
  forall k x y, nth_error T k = Some x -> nth_error T (S k) = Some y ->
                dlt y x = true.

Definition schedule_as_specified (T : list double) : Prop :=
  50000 <= Z.of_nat (length T) <= 200000 /\
  strictly_decreasing T /\
  nth_error T 0 = Some d0_5.

Section ScheduleNotions.
Context {M : MathLib}.

(** The schedule in the words of the specification. [tmp[0] = 1] and
    [tmp[i] = tmp[i-1] + exp(0.25 * (i + 1))]. *)
Fixpoint schedule_tmp (i : nat) : double :=
  match i with
  | O => d_of_int 1
  | S j => dadd (schedule_tmp j) (exp (dmul d0_25 (d_of_int (Z.of_nat i + 1))))
  end.

(** Block [i] has [floor(tmp[i]) - floor(tmp[i-1])] timepoints. *)
Definition block_length (i : nat) : nat :=
  match floor (schedule_tmp (i - 1)), floor (schedule_tmp i) with
  | Some lo, Some hi => Z.to_nat (hi - lo)
  | _, _ => O
  end.

(** The blocks [i = 1 .. 27], each its temperature [1 / (i + 1)] repeated. *)
Definition schedule_blocks : list double :=
  flat_map (fun i => repeat (block_temperature (Z.of_nat i)) (block_length i))
           (seq 1 27).

End ScheduleNotions.

(** The same with glibc's values of [exp]. *)
Fixpoint glibc_tmp (i : nat) : double :=
  match i with
  | O => d_of_int 1
  | S j => dadd (glibc_tmp j) (glibc_exp_quarter (Z.of_nat i + 1))
  end.

Definition glibc_block_length (i : nat) : nat :=
  match floor (glibc_tmp (i - 1)), floor (glibc_tmp i) with
  | Some lo, Some hi => Z.to_nat (hi - lo)
  | _, _ => O
  end.

(** ** [propose], the chains and [train] *)

Section Notions.
Context {M : MathLib} {L : RuleLib}.

(** A predicate that requires [prefix_bound > max_log_post]: without it
    the predicate answers no and leaves the state as it is. *)
Definition guarded (accept_func : accept_func_t) : Prop :=
  forall n o pb mx extra g,
    dgt pb mx = false -> accept_func n o pb mx extra g = Ret (false, g).

(** The state of [run_mcmc] after [n] turns of its loop over the
    iterations, from the state [st] at the start of the loop. *)
Definition mcmc_iterate (fuel : nat) (rules labels : list rule_t) (nrules : Z)
    (params : params_t) (n : nat) (st : chain_t) : prog chain_t :=
  pfor_range n 0 (mcmc_step fuel rules labels nrules params) st.

(** The turns of the loop of [run_mcmc] that draws the initial list, taken
    whatever the bounds are: [n] times, a list is drawn and evaluated with
    [length4bound = 0]. [cur] is [rs] ([None] is [NULL]), [log_post_rs] and
    [prefix_bound]. *)
Fixpoint init_turns (n : nat) (init_size nsamples nrules : Z)
    (rules labels : list rule_t) (params : params_t)
    (cur : option ruleset_t * double * double)
  : prog (option ruleset_t * double * double) :=
  match n with
  | O => pret cur
  | S k =>
      rs' <~ with_rng (create_random_ruleset init_size nsamples nrules rules) ;;
      '(lp, pb) <~ compute_log_posterior rs' rules nrules labels params 0 0 ;;
      init_turns k init_size nsamples nrules rules labels params (Some rs', lp, pb)
  end.

(** The bound after each of the first [n] turns is below [v_star]. *)
Definition below_until (init_size nsamples nrules : Z) (rules labels : list rule_t)
    (params : params_t) (v_star : double) (n : nat)
    (cur : option ruleset_t * double * double) (g : globals) : Prop :=
  forall k, (k < n)%nat ->
    exists r l p gk,
      init_turns k init_size nsamples nrules rules labels params cur g
      = Ret ((r, l, p), gk) /\
      dlt p v_star = true.

(** One chain of [train] with its score: [run_mcmc] from [v_star], then
    the log posterior [train] computes for the list it returned. *)
Definition scored_chain (fuel : nat) (train_data : data_t) (params : params_t)
    (v_star : double) : prog (ruleset_t * double) :=
  rs <~ run_mcmc fuel (iters params) (init_size params)
          (td_nsamples train_data) (td_nrules train_data)
          (td_rules train_data) (td_labels train_data) params v_star ;;
  '(pos, _) <~ compute_log_posterior rs (td_rules train_data)
                 (td_nrules train_data) (td_labels train_data) params 1 (-1) ;;
  pret (rs, pos).

(** The chains [train] has run one after the other from the state [g]:
    the final list and the score of each, in the order of the chains; the
    position [k] of the list [train] holds; the state after the last chain.
    The first chain starts from [v_star = -1e9], a later one from the score
    of the list held, and its list is held when its score is [>=] that. *)
Inductive chains_ran (fuel : nat) (train_data : data_t) (params : params_t)
    (g : globals) : list (ruleset_t * double) -> nat -> globals -> Prop :=
| ran_first rs pos g1 :
    scored_chain fuel train_data params d_m1e9 g = Ret ((rs, pos), g1) ->
    chains_ran fuel train_data params g [(rs, pos)] 0 g1
| ran_next l k g1 rs_k pos_k rs pos g2 :
    chains_ran fuel train_data params g l k g1 ->
    nth_error l k = Some (rs_k, pos_k) ->
    scored_chain fuel train_data params pos_k g1 = Ret ((rs, pos), g2) ->
    chains_ran fuel train_data params g (l ++ [(rs, pos)])
      (if dge pos pos_k then length l else k) g2.

(** What [train] holds after the chains [l]: the list at position [k] and
    its score; it has destroyed the lists at the other positions. *)
Definition holds (b : best_t) (l : list (ruleset_t * double)) (k : nat) : Prop :=
  nth_error l k = Some (best_rs b, max_pos b) /\
  forall x, In x (destroyed b) <-> exists j, j <> k /\ nth_error l j = Some x.

(** No list at another position than [k] compares above the one at [k]:
    its score is a number that the score at [k] is at least, or a NaN. *)
Definition best_at (l : list (ruleset_t * double)) (k : nat) (pos : double) : Prop :=
  forall j rs_j pos_j,
    j <> k -> nth_error l j = Some (rs_j, pos_j) ->
    (dge pos pos_j = true \/ is_nan pos_j = true) /\ dlt pos pos_j = false.

End Notions.

(** The selection as the specification words it: the log posterior of the
    list returned is [>=] that of every destroyed list. *)
Definition chain_best_as_specified (b : best_t) : Prop :=
  forall rs_d pos_d, In (rs_d, pos_d) (destroyed b) -> dge (max_pos b) pos_d = true.

(** The numeric failure as the specification wants it handled: a
    proposal during whose evaluation a NaN message is printed, or whose
    prior loop runs on a normalisation constant that is not positive, is
    rejected and counted. *)
Definition numeric_failure_handled (M : MathLib) (L : RuleLib) : Prop :=
  forall fuel rs rules labels nrules old mx cnt0 extra params g ev g1
         accept_func p g2,
    propose_eval fuel rs rules labels nrules params g = Ret (ev, g1) ->
    printed g1 <> printed g \/
    (dle (eta_norm g1) d0 = true /\ 2 <= n_rules (rs_new ev)) ->
    accept_func = mcmc_accepts \/ accept_func = sa_accepts ->
    propose fuel rs rules labels nrules old mx cnt0 extra params accept_func g
    = Ret (p, g2) ->
    rs_ret p = rs /\ ret_log_post p = old /\ cnt p = cnt0 + 1.

(** ** The state, the chains and the counts

    The parts of the state: the tables of the prior with [eta_norm], and
    the three move counters. *)
Definition tables_of (g : globals) : option (list double) * option (list double) * double :=
  (log_lambda_pmf g, log_eta_pmf g, eta_norm g).

Definition moves_of (g : globals) : Z * Z * Z := (n_add g, n_delete g, n_swap g).

(** The number of moves counted. *)
Definition moves (g : globals) : Z := n_add g + n_delete g + n_swap g.

(** A program that leaves a part of the state as it is. *)
Definition preserves {A B} (f : globals -> A) (c : prog B) : Prop :=
  forall g b g', c g = Ret (b, g') -> f g' = f g.

(** [c2] returns what [c1] returns, where [c1] returns. *)
Definition returns_as {A} (c1 c2 : prog A) : Prop :=
  forall g a g', c1 g = Ret (a, g') -> c2 g = Ret (a, g').

(** Two states of the prior loop, and of the likelihood loop, that differ
    at most in what is kept for the prefix bound. *)
Definition same_prior (a b : prior_state) : Prop :=
  log_prior a = log_prior b /\ norm_constant a = norm_constant b /\
  card_count a = card_count b.

Definition same_lik (a b : lik_state) : Prop :=
  log_likelihood a = log_likelihood b /\ left0 a = left0 b /\ left1 a = left1 b.

(** A program whose result depends on the state through the tables only,
    and that maps states with equal tables to states with equal tables. *)
Definition reads_tables_only {A} (c : prog A) : Prop :=
  forall g a g' g2,
    c g = Ret (a, g') -> tables_of g2 = tables_of g ->
    exists g2', c g2 = Ret (a, g2') /\ tables_of g2' = tables_of g'.

Section ChainNotions.
Context {M : MathLib} {L : RuleLib}.
Variables (rules labels : list rule_t) (nrules : Z) (params : params_t).

(** In the state [g], [lp] is the log posterior that
    [compute_log_posterior] returns for [rs], whatever [ifPrint] and
    [length4bound] are. *)
Definition scored (g : globals) (rs : ruleset_t) (lp : double) : Prop :=
  forall ifPrint l4b, exists pb g',
    compute_log_posterior rs rules nrules labels params ifPrint l4b g
    = Ret ((lp, pb), g').

(** The variables of a chain agree: [log_post_rs] is the log posterior of
    the current list, it is not above [max_log_posterior], and
    [rs_idarray] and [len] are the backup of a list whose log posterior is
    [max_log_posterior]. *)
Definition chain_coherent (st : chain_t) (g : globals) : Prop :=
  log_lambda_pmf g <> None /\
  scored g (cur_rs st) (log_post_rs st) /\
  dgt (log_post_rs st) (max_log_posterior st) = false /\
  exists rs_b,
    scored g rs_b (max_log_posterior st) /\
    ruleset_backup rs_b = Ret (rs_idarray st) /\
    len st = n_rules rs_b.

End ChainNotions.

(** The number of rules of cardinality [c] among the first [n] of the
    library. *)
Definition count_of_cardinality (rules : list rule_t) (n : nat) (c : Z) : Z :=
  Z.of_nat (length (filter (fun r => cardinality r =? c) (firstn n rules))).

(** The sum of a list of integers. *)
Definition zsum (l : list Z) : Z := fold_right Z.add 0 l.

(** * Worked runs

    Runs of the embedding on the small training set, with the reference
    mathematics and the rule library of the specification. *)

(** ** A training set with a degenerate [eta]

    [eta = 1e-40] is positive. The Poisson density of 8 and more underflows
    to 0, so its logarithm is minus infinity; the distribution function at
    10 and the density at 0 both round to 1, so [eta_norm] is 0. Rule 1 has
    cardinality 1, rule 2 has cardinality 9. *)

Module Degenerate.

#[local] Existing Instance RefMath.lib.
#[local] Existing Instance SpecRules.lib.

Definition d_1e_40 : double := S754_finite false 4903985730770844 (-185).

Definition rules : list rule_t :=
  [ Toy.mk_rule 0 255; Toy.mk_rule 1 240; Toy.mk_rule 9 170 ].
Definition nrules : Z := 3.

Definition params : params_t :=
  {| lambda := d1; eta := d_1e_40; threshold := d0_5; alpha := (d1, d1);
     iters := 0; init_size := 1; nchain := 2 |}.

Definition data : data_t :=
  {| td_rules := rules; td_labels := Toy.labels; td_nrules := nrules;
     td_nsamples := Toy.nsamples |}.

Definition ruleset (ids : list Z) : ruleset_t :=
  match SpecRules.rebuild Toy.nsamples rules ids with
  | Ret rs => rs
  | Fail _ => {| n_rules := 0; n_samples := Toy.nsamples; rs_rules := [] |}
  end.

(** The state after the prior pre-calculation. *)
Definition tables : globals :=
  Eval vm_compute in
    match init_pmf nrules params (Toy.fresh (Toy.replay [])) with
    | Ret (_, g) => g
    | Fail _ => Toy.fresh (Toy.replay [])
    end.

Definition ready (r : rng_state) : globals :=
  {| rng := r; log_lambda_pmf := log_lambda_pmf tables;
     log_eta_pmf := log_eta_pmf tables; eta_norm := eta_norm tables;
     n_add := 0; n_delete := 0; n_swap := 0; printed := [] |}.

(** The log posterior of the list [0]. *)
Definition post_default : double := S754_finite true 8383135251022501 (-50).

(** From the list [0] the move is an add. With the draws 5 and 2 the rule
    added is rule 2: the log prior is [-inf - (-inf)], NaN. *)
Definition nan_state : globals := ready (Toy.replay [5; 2; 7; 1000]).

Definition nan_eval : res (evaluated_t * globals) :=
  Eval vm_compute in
    propose_eval 10 (ruleset [0]) rules Toy.labels nrules params nan_state.

Definition nan_run : res (proposed_t * globals) :=
  Eval vm_compute in
    propose 10 (ruleset [0]) rules Toy.labels nrules post_default post_default 0
      ExtraJumpProb params mcmc_accepts nan_state.

(** With the draws 5 and 1 the rule added is rule 1: the log prior is
    [log_eta_pmf[1] - log 0], plus infinity, and the proposal is accepted. *)
Definition zero_state : globals := ready (Toy.replay [5; 1; 7; 1000]).

Definition zero_eval : res (evaluated_t * globals) :=
  Eval vm_compute in
    propose_eval 10 (ruleset [0]) rules Toy.labels nrules params zero_state.

Definition zero_run : res (proposed_t * globals) :=
  Eval vm_compute in
    propose 10 (ruleset [0]) rules Toy.labels nrules post_default post_default 0
      ExtraJumpProb params mcmc_accepts zero_state.

(** Two chains without iterations. The first draws the list [1; 0], log
    posterior plus infinity; the second draws [2; 0], log posterior NaN,
    and is destroyed. *)
Definition chains_state : globals := ready (Toy.replay [1; 2]).

Definition chains_run : res (best_t * globals) :=
  Eval vm_compute in train_chains 5 data params chains_state.

End Degenerate.

(** ** Runs on the small training set *)

Module Runs.

#[local] Existing Instance RefMath.lib.
#[local] Existing Instance SpecRules.lib.

(** The log posterior of the rule list [1; 0], the best of the set. *)
Definition best_post : double := S754_finite true 6139923829704103 (-50).

(** A proposal from the list [1; 0]. *)
Definition pruned_state : globals :=
  Toy.ready (Toy.replay [55433204; 975884830; 199840141]).

Definition pruned_eval : res (evaluated_t * globals) :=
  Eval vm_compute in
    propose_eval 10 (Toy.ruleset [1; 0]) Toy.rules Toy.labels Toy.nrules
      Toy.params pruned_state.

(** A chain that starts at the rule list [3; 0]. *)
Definition start : chain_t :=
  {| cur_rs := Toy.ruleset [3; 0];
     log_post_rs := S754_finite true 5087303734340308 (-49);
     max_log_posterior := S754_finite true 5087303734340308 (-49);
     rs_idarray := [3; 0]; len := 2; nsuccessful_rej := 0 |}.

Definition start_state : globals :=
  Toy.ready (Toy.replay (skipn 2 Toy.sample_draws)).

Definition after_1 : res (chain_t * globals) :=
  Eval vm_compute in
    mcmc_iterate 10 Toy.rules Toy.labels Toy.nrules Toy.params 1 start start_state.

Definition after_2 : res (chain_t * globals) :=
  Eval vm_compute in
    mcmc_iterate 10 Toy.rules Toy.labels Toy.nrules Toy.params 2 start start_state.



Definition d2_5 : double := Eval vm_compute in ddiv (d_of_int 5) d2.

(** Three chains of two iterations, from initial lists of two rules and
    the default rule. *)
Definition train_params : params_t :=
  {| lambda := d1; eta := d1; threshold := d0_5; alpha := (d1, d1);
     iters := 2; init_size := 2; nchain := 3 |}.

Definition train_state : globals :=
  Toy.ready (Toy.replay (skipn 2 Toy.sample_draws)).

Definition train_run : res (pred_model_t * globals) :=
  Eval vm_compute in train 20 Toy.data 0 0 train_params train_state.

End Runs.

(** ** More runs on the small training set *)

Module MoreRuns.

#[local] Existing Instance RefMath.lib.
#[local] Existing Instance SpecRules.lib.

(** The list [1; 0] scored as [propose] does, with [length4bound = 0], and
    as [train] does. *)
Definition scored_state : globals := Toy.ready (Toy.replay []).

Definition score_10 : res (double * double * globals) :=
  Eval vm_compute in
    compute_log_posterior (Toy.ruleset [1; 0]) Toy.rules Toy.nrules Toy.labels
      Toy.params 0 0 scored_state.

Definition score_10_train : res (double * double * globals) :=
  Eval vm_compute in
    compute_log_posterior (Toy.ruleset [1; 0]) Toy.rules Toy.nrules Toy.labels
      Toy.params 1 (-1) scored_state.

(** From the list [3; 0] the draw 1714975599 selects a delete, of rule 3:
    the list [0] has a higher log posterior. *)
Definition improve_state : globals := Toy.ready (Toy.replay [1714975599; 7; 1000]).

Definition improve_eval : res (evaluated_t * globals) :=
  Eval vm_compute in
    propose_eval 10 (Toy.ruleset [3; 0]) Toy.rules Toy.labels Toy.nrules
      Toy.params improve_state.

Definition improve_run : res (proposed_t * globals) :=
  Eval vm_compute in
    propose 10 (Toy.ruleset [3; 0]) Toy.rules Toy.labels Toy.nrules
      (log_post_rs Runs.start) (log_post_rs Runs.start) 0 ExtraJumpProb
      Toy.params mcmc_accepts improve_state.

(** A chain of three iterations. *)
Definition chain_state : globals := Toy.ready (Toy.replay Toy.sample_draws).

Definition chain_run : res (ruleset_t * globals) :=
  Eval vm_compute in
    run_mcmc 10 3 1 Toy.nsamples Toy.nrules Toy.rules Toy.labels Toy.params
      d_m1e9 chain_state.

(** [theta] of the list [1; 0]. *)
Definition theta_10 : res (list double) :=
  Eval vm_compute in get_theta (Toy.ruleset [1; 0]) Toy.rules Toy.labels Toy.params.

(** [train] with [nchain = 0]. *)
Definition no_chain_params : params_t :=
  {| lambda := d1; eta := d1; threshold := d0_5; alpha := (d1, d1);
     iters := 2; init_size := 2; nchain := 0 |}.

Definition no_chain_run : res (pred_model_t * globals) :=
  Eval vm_compute in train 20 Toy.data 0 0 no_chain_params Runs.train_state.

(** With the degenerate [eta], a first chain that draws the list [2; 0]. *)
Definition nan_first_state : globals := Degenerate.ready (Toy.replay [2]).

Definition nan_first_chain : res (ruleset_t * globals) :=
  Eval vm_compute in
    run_mcmc 5 0 1 Toy.nsamples Degenerate.nrules Degenerate.rules Toy.labels
      Degenerate.params d_m1e9 nan_first_state.

(** The score [train] computes for that list. *)
Definition nan_first_score : res (double * double * globals) :=
  Eval vm_compute in
    match nan_first_chain with
    | Ret (rs, g) =>
        compute_log_posterior rs Degenerate.rules Degenerate.nrules Toy.labels
          Degenerate.params 1 (-1) g
    | Fail e => Fail e
    end.

(** A chain started from [v_star], the log posterior of the list [1; 0]:
    the draws 3, 2 and 1 make the lists [3; 0], [2; 0] and [1; 0]. *)
Definition restart_state : globals := Toy.ready (Toy.replay [3; 2; 1]).

Definition restart_turn (k : nat) : res (option ruleset_t * double * double * globals) :=
  init_turns k 1 Toy.nsamples Toy.nrules Toy.rules Toy.labels Toy.params
    (None, d0, d_m1e10) (set_moves 0 0 0 restart_state).

Definition restart_below (k : nat) : bool :=
  match restart_turn k with
  | Ret ((_, _, p), _) => dlt p Runs.best_post
  | Fail _ => false
  end.

Definition restart_third : res (option ruleset_t * double * double * globals) :=
  Eval vm_compute in restart_turn 3.






(** The lists of the rule library of the specification that are
    consistent: [n_rules] is the number of entries. *)
Definition counted (rs : ruleset_t) : Prop :=
  n_rules rs = Z.of_nat (length (rs_rules rs)).

End MoreRuns.

(** ** A run of [train] that does not return *)

(** A generator state whose draws are the given ones, then those of [f]. *)
Definition replay_then (l : list Z) (f : nat -> Z) : rng_state :=
  {| draws := fun k => nth k l (f (k - length l)%nat); cursor := 0 |}.

Module Stuck.
#[local] Existing Instance RefMath.lib.
#[local] Existing Instance SpecRules.lib.

(** Two chains of one iteration, from initial lists of two rules and the
    default rule. *)
Definition params : params_t :=
  {| lambda := d1; eta := d1; threshold := d0_5; alpha := (d1, d1);
     iters := 1; init_size := 2; nchain := 2 |}.

(** The draws of the first chain: 1 and 2 make the list [1; 2; 0]; [2^30]
    selects a delete, 1 its position, and 5 is the draw of [mcmc_accepts]. *)
Definition first_draws : list Z := [1; 2; 1073741824; 1; 5].

(** The lists [a; b; 0] that [create_random_ruleset] can draw, and the
    prefix bound of each at [length4bound = 0]. *)
Definition drawable : list (list Z) :=
  [ [1; 2; 0]; [1; 3; 0]; [2; 1; 0]; [2; 3; 0]; [3; 1; 0]; [3; 2; 0] ].

Definition bound_of (ids : list Z) : res double :=
  match compute_log_posterior (Toy.ruleset ids) Toy.rules Toy.nrules Toy.labels
          params 0 0 (Toy.ready (Toy.replay [])) with
  | Ret ((_, pb), _) => Ret pb
  | Fail e => Fail e
  end.

Definition below_best (ids : list Z) : bool :=
  match bound_of ids with
  | Ret pb => dlt pb Runs.best_post
  | Fail _ => false
  end.

End Stuck.

(** * Properties *)

(** ** The order of doubles *)

Module IEEEFacts.

Lemma SFcompare_rank x y :
  is_nan x = false -> is_nan y = false ->
  SFcompare x y = Some (lex_compare (rank x) (rank y)).
Proof.
  destruct x as [sx|sx| |sx mx ex], y as [sy|sy| |sy my ey]; simpl; try discriminate;
    intros _ _; try (destruct sx); try (destruct sy); try reflexivity.
  unfold lex_compare. change (-1 ?= -1) with Eq. cbv iota.
  rewrite Z.compare_opp, (Z.compare_antisym ex ey).
  destruct (ex ?= ey); reflexivity.
Qed.

Lemma lex_compare_lt a b : lex_compare a b = Lt <-> lex_lt a b.
Proof.
  destruct a as [[a1 a2] a3], b as [[b1 b2] b3]; simpl.
  destruct (Z.compare_spec a1 b1), (Z.compare_spec a2 b2), (Z.compare_spec a3 b3);
    split; intros; try discriminate; try reflexivity; try lia.
Qed.

Lemma lex_compare_eq a b : lex_compare a b = Eq <-> a = b.
Proof.
  destruct a as [[a1 a2] a3], b as [[b1 b2] b3]; simpl.
  destruct (Z.compare_spec a1 b1), (Z.compare_spec a2 b2), (Z.compare_spec a3 b3);
    split; intros H'; try discriminate; try reflexivity;
    try (inversion H'; lia); try (f_equal; [f_equal|]; lia).
Qed.

Lemma compare_nan_l y : SFcompare S754_nan y = None.
Proof. reflexivity. Qed.

Lemma compare_nan_r x : SFcompare x S754_nan = None.
Proof. destruct x; reflexivity. Qed.

Lemma dlt_rank x y :
  dlt x y = true <->
  is_nan x = false /\ is_nan y = false /\ lex_lt (rank x) (rank y).
Proof.
  unfold dlt, SFltb. split.
  - destruct (is_nan x) eqn:Hx.
    { destruct x; try discriminate Hx. rewrite compare_nan_l. discriminate. }
    destruct (is_nan y) eqn:Hy.
    { destruct y; try discriminate Hy. rewrite compare_nan_r. discriminate. }
    rewrite SFcompare_rank by assumption.
    destruct (lex_compare (rank x) (rank y)) eqn:E; try discriminate.
    intros _. repeat split. now apply lex_compare_lt.
  - intros (Hx & Hy & H). rewrite SFcompare_rank by assumption.
    apply lex_compare_lt in H. now rewrite H.
Qed.

Lemma lex_compare_le a b : lex_compare a b <> Gt <-> lex_le a b.
Proof.
  destruct a as [[a1 a2] a3], b as [[b1 b2] b3]; simpl.
  destruct (Z.compare_spec a1 b1), (Z.compare_spec a2 b2), (Z.compare_spec a3 b3);
    split; intros; try discriminate; try congruence; try lia.
Qed.

Lemma dle_rank x y :
  dle x y = true <->
  is_nan x = false /\ is_nan y = false /\ lex_le (rank x) (rank y).
Proof.
  unfold dle, SFleb. split.
  - destruct (is_nan x) eqn:Hx.
    { destruct x; try discriminate Hx. rewrite compare_nan_l. discriminate. }
    destruct (is_nan y) eqn:Hy.
    { destruct y; try discriminate Hy. rewrite compare_nan_r. discriminate. }
    rewrite SFcompare_rank by assumption.
    destruct (lex_compare (rank x) (rank y)) eqn:E; try discriminate;
      intros _; repeat split; apply lex_compare_le; rewrite E; discriminate.
  - intros (Hx & Hy & H). rewrite SFcompare_rank by assumption.
    apply lex_compare_le in H.
    destruct (lex_compare (rank x) (rank y)); congruence.
Qed.

(** After [dlt_rank] and [dle_rank] a goal on the order is linear
    arithmetic on the ranks. *)
Ltac ranks :=
  repeat match goal with
         | H : dlt _ _ = true |- _ => apply dlt_rank in H
         | H : dle _ _ = true |- _ => apply dle_rank in H
         | H : _ /\ _ |- _ => destruct H
         end;
  try apply dlt_rank; try apply dle_rank;
  repeat match goal with
         | |- _ /\ _ => split; [assumption|]
         end;
  repeat match goal with
         | |- context [rank ?x] =>
             let a := fresh "a" in let b := fresh "b" in let c := fresh "c" in
             destruct (rank x) as [[a b] c]
         | H : context [rank ?x] |- _ =>
             let a := fresh "a" in let b := fresh "b" in let c := fresh "c" in
             destruct (rank x) as [[a b] c]
         end;
  unfold lex_lt, lex_le in *; try lia.

Lemma dlt_asym x y : dlt x y = true -> dlt y x = false.
Proof. intros H. destruct (dlt y x) eqn:E; [|reflexivity]. ranks. Qed.

Lemma dlt_irrefl x : dlt x x = false.
Proof. destruct (dlt x x) eqn:E; [|reflexivity]. ranks. Qed.

Lemma dlt_trans x y z : dlt x y = true -> dlt y z = true -> dlt x z = true.
Proof. intros H1 H2. ranks. Qed.

Lemma dle_trans x y z : dle x y = true -> dle y z = true -> dle x z = true.
Proof. intros H1 H2. ranks. Qed.

Lemma dlt_dle_trans x y z : dlt x y = true -> dle y z = true -> dlt x z = true.
Proof. intros H1 H2. ranks. Qed.

Lemma dle_refl x : is_nan x = false -> dle x x = true.
Proof. intros H. ranks. Qed.

Lemma dlt_dle x y : dlt x y = true -> dle x y = true.
Proof. intros H. ranks. Qed.

Lemma dle_not_dlt x y : dle x y = true -> dlt y x = false.
Proof. intros H. destruct (dlt y x) eqn:E; [|reflexivity]. ranks. Qed.

Lemma dlt_not_nan x y : dlt x y = true -> is_nan x = false /\ is_nan y = false.
Proof. intros H. apply dlt_rank in H. tauto. Qed.

Lemma dle_not_nan x y : dle x y = true -> is_nan x = false /\ is_nan y = false.
Proof. intros H. apply dle_rank in H. tauto. Qed.

(** Two numbers are comparable: one of [x < y] and [y <= x] holds. *)
Lemma dlt_or_dle x y :
  is_nan x = false -> is_nan y = false -> dlt x y = true \/ dle y x = true.
Proof.
  intros Hx Hy.
  destruct (dlt x y) eqn:E; [now left|right].
  apply dle_rank. repeat split; try assumption.
  destruct (lex_compare (rank x) (rank y)) eqn:C.
  - apply lex_compare_eq in C. rewrite C.
    destruct (rank y) as [[a b] c]. simpl. lia.
  - apply lex_compare_lt in C.
    assert (dlt x y = true) by (apply dlt_rank; auto). congruence.
  - assert (C' : lex_compare (rank y) (rank x) <> Gt).
    { destruct (rank x) as [[a1 a2] a3], (rank y) as [[b1 b2] b3]. simpl in *.
      destruct (Z.compare_spec a1 b1), (Z.compare_spec a2 b2),
        (Z.compare_spec a3 b3); try discriminate;
        destruct (Z.compare_spec b1 a1), (Z.compare_spec b2 a2),
        (Z.compare_spec b3 a3); try discriminate; lia. }
    now apply lex_compare_le.
Qed.

(** A comparison with NaN is false; [x != x] holds of NaN only. *)
Lemma dlt_nan_l y : dlt nan y = false.
Proof. reflexivity. Qed.

Lemma dlt_nan_r x : dlt x nan = false.
Proof. unfold dlt, SFltb, nan. now rewrite compare_nan_r. Qed.

Lemma dne_self x : dne x x = is_nan x.
Proof.
  unfold dne, SFeqb. destruct (is_nan x) eqn:E.
  - destruct x; try discriminate E. reflexivity.
  - rewrite SFcompare_rank by assumption.
    replace (lex_compare (rank x) (rank x)) with Eq; [reflexivity|].
    symmetry. now apply lex_compare_eq.
Qed.

(** NaN is absorbing for the arithmetic. *)
Lemma dadd_nan_l y : dadd nan y = nan.
Proof. reflexivity. Qed.

Lemma dadd_nan_r x : dadd x nan = nan.
Proof. destruct x; reflexivity. Qed.

Lemma dsub_nan_r x : dsub x nan = nan.
Proof. destruct x; reflexivity. Qed.

Lemma ddiv_nan_l y : ddiv nan y = nan.
Proof. reflexivity. Qed.

Lemma is_nan_eq x : is_nan x = true -> x = nan.
Proof. destruct x; try discriminate. reflexivity. Qed.

End IEEEFacts.
Import IEEEFacts.

(** ** Running programs *)

Lemma rbind_ret {A B} (r : res A) (k : A -> res B) b :
  rbind r k = Ret b -> exists a, r = Ret a /\ k a = Ret b.
Proof. destruct r as [a|e]; simpl; [eauto|discriminate]. Qed.

Lemma pbind_ret {A B} (c : prog A) (k : A -> prog B) g b g' :
  pbind c k g = Ret (b, g') ->
  exists a g1, c g = Ret (a, g1) /\ k a g1 = Ret (b, g').
Proof.
  unfold pbind. destruct (c g) as [[a g1]|e]; [eauto|discriminate].
Qed.

Lemma pbind_run {A B} (c : prog A) (k : A -> prog B) g a g1 :
  c g = Ret (a, g1) -> pbind c k g = k a g1.
Proof. unfold pbind. now intros ->. Qed.

Lemma lift_ret {A} (r : res A) g a g' :
  lift r g = Ret (a, g') -> r = Ret a /\ g' = g.
Proof. unfold lift. destruct r; intros H; inversion H; auto. Qed.

Lemma pret_ret {A} (a b : A) g g' : pret a g = Ret (b, g') -> b = a /\ g' = g.
Proof. unfold pret. intros H; inversion H; auto. Qed.

(** Inversion of a run that returned: one hypothesis per bind. *)
Ltac run_inv :=
  repeat match goal with
         | H : pbind _ _ _ = Ret _ |- _ =>
             let a := fresh "a" in let g := fresh "g" in
             let H1 := fresh "Hrun" in let H2 := fresh "Hrun" in
             apply pbind_ret in H; destruct H as (a & g & H1 & H2)
         | H : lift _ _ = Ret _ |- _ =>
             let H1 := fresh "Hres" in
             apply lift_ret in H; destruct H as [H1 ?]; subst
         | H : pret _ _ = Ret _ |- _ =>
             apply pret_ret in H; destruct H; subst
         | H : rbind _ _ = Ret _ |- _ =>
             let a := fresh "a" in
             let H1 := fresh "Hres" in let H2 := fresh "Hres" in
             apply rbind_ret in H; destruct H as (a & H1 & H2)
         | H : Ret _ = Ret _ |- _ => inversion H; clear H; subst
         end.

(** A loop over [i + k] turns is a loop over [i] turns, then over [k]. *)
Lemma pfor_range_add {St} (body : Z -> St -> prog St) (i k : nat) :
  forall i0 s g,
    pfor_range (i + k) i0 body s g =
    pbind (pfor_range i i0 body s)
          (fun s' => pfor_range k (i0 + Z.of_nat i) body s') g.
Proof.
  induction i as [|i IH]; intros i0 s g.
  - simpl. unfold pbind, pret. now rewrite Z.add_0_r.
  - cbn [Nat.add pfor_range]. unfold pbind at 1 2 3.
    destruct (body i0 s g) as [[s1 g1]|e]; [|reflexivity].
    rewrite IH. unfold pbind.
    replace (i0 + 1 + Z.of_nat i) with (i0 + Z.of_nat (S i)) by lia.
    reflexivity.
Qed.

Lemma pfor_range_shift {St} (f : St -> prog St) (n : nat) :
  forall i0 i1 s g,
    pfor_range n i0 (fun _ => f) s g = pfor_range n i1 (fun _ => f) s g.
Proof.
  induction n as [|n IH]; intros i0 i1 s g; [reflexivity|].
  simpl. unfold pbind. destruct (f s g) as [[s1 g1]|e]; [|reflexivity].
  apply IH.
Qed.

(** ** The acceptance predicates and [propose] *)

Section Propose.
Context {M : MathLib} {L : RuleLib}.

Lemma mcmc_accepts_guarded : guarded mcmc_accepts.
Proof. intros n o pb mx extra g H. unfold mcmc_accepts. now rewrite H. Qed.

Lemma sa_accepts_guarded : guarded sa_accepts.
Proof. intros n o pb mx extra g H. unfold sa_accepts. now rewrite H. Qed.

Lemma propose_decide_pruned accept_func rs old mx cnt0 extra ev g :
  guarded accept_func ->
  dlt (prefix_bound ev) mx = true ->
  propose_decide accept_func rs old mx cnt0 extra ev g =
  Ret ({| rs_ret := rs; jump_prob_out := ev_jump_prob ev;
          ret_log_post := old; cnt := cnt0 + 1 |}, g).
Proof.
  intros Hg Hlt. unfold propose_decide. rewrite Hlt.
  unfold pbind. rewrite Hg by (apply dlt_asym, Hlt). reflexivity.
Qed.

(** C1. When the proposal that [propose] evaluated has
    [prefix_bound < max_log_post], [propose] returns, the reject counter is
    one more than it was, the rule list returned is the old one and
    [*ret_log_post] is what it was, with [mcmc_accepts] and with
    [sa_accepts] alike; no random number is drawn for the decision. *)
Theorem propose_prunes_below_bound :
  forall fuel rs rules labels nrules old mx cnt0 extra params g ev g1 accept_func,
    propose_eval fuel rs rules labels nrules params g = Ret (ev, g1) ->
    dlt (prefix_bound ev) mx = true ->
    accept_func = mcmc_accepts \/ accept_func = sa_accepts ->
    propose fuel rs rules labels nrules old mx cnt0 extra params accept_func g =
    Ret ({| rs_ret := rs; jump_prob_out := ev_jump_prob ev;
            ret_log_post := old; cnt := cnt0 + 1 |}, g1).
Proof.
  intros fuel rs rules labels nrules old mx cnt0 extra params g ev g1 acc He Hlt Hacc.
  unfold propose. rewrite (pbind_run _ _ _ _ _ He).
  apply propose_decide_pruned; [|exact Hlt].
  destruct Hacc as [-> | ->];
    [apply mcmc_accepts_guarded | apply sa_accepts_guarded].
Qed.

End Propose.


(** ** The chains *)

Section Chain.
Context {M : MathLib} {L : RuleLib}.

Lemma not_below_trans a b c : not_below a b -> not_below b c -> not_below a c.
Proof.
  intros [-> | H1] [-> | H2]; unfold not_below; auto.
  right. eapply dlt_trans; eassumption.
Qed.

Lemma not_below_not_dlt a b : not_below a b -> dlt b a = false.
Proof. intros [-> | H]; [apply dlt_irrefl | now apply dlt_asym]. Qed.

(** One iteration leaves [max_log_posterior] as it is, unless the current
    log posterior is strictly above it, and then sets it to that. *)
Lemma chain_step_max fuel rules labels nrules params extra accept_func st g st' g' :
  chain_step fuel rules labels nrules params extra accept_func st g = Ret (st', g') ->
  (max_log_posterior st' = max_log_posterior st /\
   dgt (log_post_rs st') (max_log_posterior st) = false) \/
  (max_log_posterior st' = log_post_rs st' /\
   dgt (log_post_rs st') (max_log_posterior st) = true).
Proof.
  unfold chain_step. intros H. run_inv.
  destruct (dgt (ret_log_post a) (max_log_posterior st)) eqn:Hgt; run_inv; simpl; auto.
Qed.

Lemma mcmc_loop_max fuel rules labels nrules params (n : nat) :
  forall i0 st g st' g',
    pfor_range n i0 (mcmc_step fuel rules labels nrules params) st g = Ret (st', g') ->
    not_below (max_log_posterior st) (max_log_posterior st').
Proof.
  induction n as [|n IH]; intros i0 st g st' g' H.
  - simpl in H. run_inv. now left.
  - simpl in H. run_inv.
    apply not_below_trans with (max_log_posterior a); [|eapply IH; eassumption].
    unfold mcmc_step in Hrun.
    destruct (chain_step_max _ _ _ _ _ _ _ _ _ _ _ Hrun) as [[-> _] | [-> Hgt]];
      [now left | now right].
Qed.

(** C8. Within a chain of [run_mcmc], [max_log_posterior] after [j]
    iterations is its value after [i <= j] iterations or is above it, so it
    is never below it; and an iteration that changes it sets it to the
    current log posterior, which is then strictly above the old maximum. *)
Theorem max_log_posterior_never_decreases :
  forall fuel rules labels nrules params st g (i j : nat) si gi sj gj,
    (i <= j)%nat ->
    mcmc_iterate fuel rules labels nrules params i st g = Ret (si, gi) ->
    mcmc_iterate fuel rules labels nrules params j st g = Ret (sj, gj) ->
    not_below (max_log_posterior si) (max_log_posterior sj) /\
    dlt (max_log_posterior sj) (max_log_posterior si) = false /\
    (j = S i -> max_log_posterior sj <> max_log_posterior si ->
     max_log_posterior sj = log_post_rs sj /\
     dgt (log_post_rs sj) (max_log_posterior si) = true).
Proof.
  intros fuel rules labels nrules params st g i j si gi sj gj Hij Hi Hj.
  unfold mcmc_iterate in *.
  replace j with (i + (j - i))%nat in Hj by lia.
  rewrite pfor_range_add in Hj. rewrite (pbind_run _ _ _ _ _ Hi) in Hj.
  assert (Hnb : not_below (max_log_posterior si) (max_log_posterior sj))
    by (eapply mcmc_loop_max; eassumption).
  split; [exact Hnb|]. split; [now apply not_below_not_dlt|].
  intros -> Hne. replace (S i - i)%nat with 1%nat in Hj by lia.
  simpl in Hj. run_inv. unfold mcmc_step in Hrun.
  destruct (chain_step_max _ _ _ _ _ _ _ _ _ _ _ Hrun) as [[E _] | [E Hgt]];
    [contradiction | auto].
Qed.

End Chain.


(** ** The proposal kernel *)

Lemma rand_run g : rand g = Ret (fst (next_draw (rng g)), advance g).
Proof. reflexivity. Qed.

Lemma next_draw_range g : 0 <= fst (next_draw g) <= RAND_MAX.
Proof.
  unfold next_draw. cbn [fst].
  pose proof (Z.mod_pos_bound (draws g (cursor g)) (RAND_MAX + 1) eq_refl) as H.
  unfold RAND_MAX in *. lia.
Qed.

Section Kernel.
Context {M : MathLib} {L : RuleLib}.

Lemma moveProbs_table n_rules nrules :
  row3 MOVEPROBS (regime_offset n_rules nrules) =
  let '(pS, pA, pD) := move_probabilities n_rules nrules in [pS; pA; pD].
Proof.
  unfold regime_offset, move_probabilities.
  destruct (n_rules =? 1); [reflexivity|].
  destruct (n_rules =? 2); [reflexivity|].
  destruct (n_rules =? nrules - 1); [reflexivity|].
  destruct (n_rules =? nrules - 2); reflexivity.
Qed.


(** Rounding a number that is not negative gives one that is not. *)
Lemma round_aux_not_negative p e mx ex lx :
  not_negative (binary_round_aux p e false mx ex lx).
Proof.
  unfold binary_round_aux.
  destruct (shr_fexp p e mx ex lx) as [mrs' e'].
  destruct (shr_fexp p e (round_nearest_even (shr_m mrs') (loc_of_shr_record mrs'))
              e' loc_Exact) as [mrs'' e''].
  destruct (shr_m mrs''); simpl; auto.
  destruct (e'' <=? e - p); simpl; auto.
Qed.

Lemma normalize_not_negative p e n ex :
  0 <= n -> not_negative (binary_normalize p e n ex false).
Proof.
  intros Hn. destruct n as [|q|q]; [reflexivity| |lia].
  unfold binary_normalize, binary_round.
  destruct (shl_align q ex (fexp p e (Z.pos (digits2_pos q) + ex))) as [mz ez].
  apply round_aux_not_negative.
Qed.

Lemma not_negative_dlt x : not_negative x -> dlt x d0 = false.
Proof. destruct x as [s|s| |s m e]; simpl; intros H; subst; reflexivity. Qed.

Lemma div_not_negative p e x m2 e2 :
  not_negative x -> not_negative (SFdiv p e x (S754_finite false m2 e2)).
Proof.
  destruct x as [s|s| |s m1 e1]; simpl; intros H; subst; try exact I;
    try reflexivity.
  destruct (SFdiv_core_binary p e (Z.pos m1) e1 (Z.pos m2) e2) as [[mz ez] lz].
  apply round_aux_not_negative.
Qed.

(** The draw [u] of [ruleset_proposal] is not negative. *)
Lemma unit_double_not_negative r : 0 <= r -> not_negative (unit_double r).
Proof.
  intros Hr. unfold unit_double.
  change (d_of_int RAND_MAX) with (S754_finite false 9007199250546688 (-22)).
  apply div_not_negative, normalize_not_negative, Hr.
Qed.

Lemma unit_double_nonneg r : 0 <= r -> dlt (unit_double r) d0 = false.
Proof. intros Hr. apply not_negative_dlt, unit_double_not_negative, Hr. Qed.

End Kernel.

(** *** The swap loop *)

Section SwapLoop.
Context {M : MathLib} {L : RuleLib}.

Lemma nth_draw_advance g j : nth_draw (advance g) j = nth_draw g (S j).
Proof. unfold nth_draw. now rewrite Nat.iter_succ_r. Qed.

(** The loop that draws [index2] ends at the first draw whose residue is
    not [index1]. *)
Lemma draw_other_first (n index1 : Z) :
  n <> 0 ->
  forall (k fuel : nat) g,
    (k < fuel)%nat ->
    (forall j, (j < k)%nat -> Z.rem (nth_draw g j) n = index1) ->
    Z.rem (nth_draw g k) n <> index1 ->
    draw_other fuel n index1 g =
    Ret (Z.rem (nth_draw g k) n, Nat.iter (S k) advance g).
Proof.
  intros Hn. induction k as [|k IH]; intros fuel g Hk Hsame Hother.
  - destruct fuel as [|fuel]; [lia|]. simpl.
    unfold pbind. rewrite rand_run. unfold lift, c_mod.
    apply Z.eqb_neq in Hn. rewrite Hn.
    change (fst (next_draw (rng g))) with (nth_draw g 0).
    apply Z.eqb_neq in Hother. now rewrite Hother.
  - destruct fuel as [|fuel]; [lia|]. cbn [draw_other].
    unfold pbind. rewrite rand_run. unfold lift, c_mod.
    pose proof Hn as Hn'. apply Z.eqb_neq in Hn'. rewrite Hn'.
    change (fst (next_draw (rng g))) with (nth_draw g 0).
    rewrite (Hsame 0%nat) by lia. rewrite Z.eqb_refl.
    rewrite (IH fuel (advance g)).
    + rewrite nth_draw_advance. f_equal. f_equal.
      cbn [Nat.iter]. now rewrite <- !Nat.iter_succ_r.
    + lia.
    + intros j Hj. rewrite nth_draw_advance. apply Hsame. lia.
    + now rewrite nth_draw_advance.
Qed.

(** With one candidate only the loop never ends: every draw is rejected. *)
Lemma draw_other_single fuel g : draw_other fuel 1 0 g = Fail OutOfFuel.
Proof.
  revert g. induction fuel as [|fuel IH]; intros g; [reflexivity|].
  cbn [draw_other]. unfold pbind. rewrite rand_run. unfold lift, c_mod.
  change (1 =? 0) with false. cbv iota. rewrite Z.rem_1_r. apply IH.
Qed.

(** C9. When [ruleset_proposal] enters the swap branch on a rule list
    with its default rule ([n_rules >= 1]), the list has [n_rules >= 3]: the
    first two rows of the table give a swap probability 0 and the draw is
    not negative. The loop that draws [index2] in [0, n_rules - 1) then has a
    value other than [index1] among the residues of the draws 0 and 1, and
    it returns at the first draw whose residue is not [index1], with an
    index in range. *)
Theorem swap_has_two_candidates :
  forall rs nrules r,
    1 <= n_rules rs ->
    0 <= r ->
    dlt (unit_double r) (at3 (row3 MOVEPROBS (regime_offset (n_rules rs) nrules)) 0)
      = true ->
    3 <= n_rules rs /\
    (forall index1, exists r2,
        0 <= r2 <= 1 /\ Z.rem r2 (n_rules rs - 1) <> index1) /\
    (forall index1 g (k fuel : nat),
        (k < fuel)%nat ->
        (forall j, (j < k)%nat -> Z.rem (nth_draw g j) (n_rules rs - 1) = index1) ->
        Z.rem (nth_draw g k) (n_rules rs - 1) <> index1 ->
        exists index2 g',
          draw_other fuel (n_rules rs - 1) index1 g = Ret (index2, g') /\
          index2 <> index1 /\ 0 <= index2 < n_rules rs - 1).
Proof.
  intros rs nrules r Hn Hr Hu.
  assert (H3 : 3 <= n_rules rs).
  { rewrite moveProbs_table in Hu. unfold move_probabilities in Hu.
    pose proof (unit_double_nonneg r Hr) as Hneg.
    destruct (n_rules rs =? 1) eqn:E1; [cbn in Hu; congruence|].
    destruct (n_rules rs =? 2) eqn:E2; [cbn in Hu; congruence|].
    apply Z.eqb_neq in E1, E2. lia. }
  split; [exact H3|]. split.
  - intros index1. destruct (Z.eq_dec index1 0) as [-> | Hne].
    + exists 1. split; [lia|]. rewrite Z.rem_small by lia. lia.
    + exists 0. split; [lia|]. rewrite Z.rem_0_l by lia. congruence.
  - intros index1 g k fuel Hk Hsame Hother.
    exists (Z.rem (nth_draw g k) (n_rules rs - 1)), (Nat.iter (S k) advance g).
    split; [apply draw_other_first; auto; lia|].
    split; [exact Hother|].
    apply Z.rem_bound_pos; [|lia].
    unfold nth_draw. apply next_draw_range.
Qed.

End SwapLoop.


(** ** Integers and doubles *)

Module IntDouble.

Lemma digits2_pos_bounds m :
  2 ^ (Zpos (digits2_pos m) - 1) <= Zpos m < 2 ^ Zpos (digits2_pos m).
Proof.
  induction m as [p IH|p IH|]; cbn [digits2_pos].
  - rewrite Pos2Z.inj_succ.
    replace (Z.succ (Z.pos (digits2_pos p)) - 1) with (Z.pos (digits2_pos p) - 1 + 1) by lia.
    rewrite Z.pow_succ_r by lia.
    rewrite Z.pow_add_r by lia. change (2 ^ 1) with 2. lia.
  - rewrite Pos2Z.inj_succ.
    replace (Z.succ (Z.pos (digits2_pos p)) - 1) with (Z.pos (digits2_pos p) - 1 + 1) by lia.
    rewrite Z.pow_succ_r by lia.
    rewrite Z.pow_add_r by lia. change (2 ^ 1) with 2. lia.
  - simpl. lia.
Qed.

Lemma iter_xO_value m d : Zpos (Pos.iter xO m d) = Zpos m * 2 ^ Zpos d.
Proof.
  revert m. induction d using Pos.peano_ind; intros m.
  - simpl. lia.
  - rewrite Pos.iter_succ. rewrite Pos2Z.inj_xO, IHd, Pos2Z.inj_succ, Z.pow_succ_r by lia. lia.
Qed.

Lemma iter_xO_digits m d :
  digits2_pos (Pos.iter xO m d) = (digits2_pos m + d)%positive.
Proof.
  revert m. induction d using Pos.peano_ind; intros m.
  - simpl. lia.
  - rewrite Pos.iter_succ. cbn [digits2_pos]. rewrite IHd. lia.
Qed.

Lemma binary_round_aligned s mz ez :
  digits2_pos mz = 53%positive -> -1074 <= ez <= 971 ->
  binary_round_aux prec64 emax64 s (Zpos mz) ez loc_Exact = S754_finite s mz ez.
Proof.
  intros Hd He. unfold binary_round_aux, shr_fexp.
  cbn [Zdigits2 shr_record_of_loc]. rewrite Hd.
  replace (fexp prec64 emax64 (53 + ez) - ez) with 0
    by (unfold fexp, emin, prec64, emax64; lia).
  cbn [shr shr_m loc_of_shr_record round_nearest_even Zdigits2 shr_record_of_loc].
  rewrite Hd.
  replace (fexp prec64 emax64 (53 + ez) - ez) with 0
    by (unfold fexp, emin, prec64, emax64; lia).
  cbn [shr shr_m].
  replace (ez <=? emax64 - prec64) with true; [reflexivity|].
  symmetry. apply Z.leb_le. unfold emax64, prec64. lia.
Qed.

(** [(double)n] is exact for |n| < 2^53. *)
Lemma binary_round_exact s p :
  Zpos p < 2 ^ 53 ->
  exists mz ez,
    binary_round prec64 emax64 s p 0 = S754_finite s mz ez /\
    digits2_pos mz = 53%positive /\ -52 <= ez <= 0 /\
    Zpos mz = Zpos p * 2 ^ (- ez).
Proof.
  intros Hp. pose proof (digits2_pos_bounds p) as Hb.
  assert (Hd : Zpos (digits2_pos p) <= 53).
  { destruct (Z.le_gt_cases (Zpos (digits2_pos p)) 53) as [|Hgt]; [assumption|].
    assert (2 ^ 53 <= 2 ^ (Zpos (digits2_pos p) - 1)) by (apply Z.pow_le_mono_r; lia).
    lia. }
  unfold binary_round, shl_align.
  replace (fexp prec64 emax64 (Z.pos (digits2_pos p) + 0))
    with (Zpos (digits2_pos p) - 53)
    by (unfold fexp, emin, prec64, emax64; lia).
  rewrite Z.sub_0_r.
  destruct (Zpos (digits2_pos p) - 53) as [|q|q] eqn:E; [| lia |].
  - assert (Hd53 : digits2_pos p = 53%positive) by lia.
    exists p, 0. rewrite (binary_round_aligned s p 0 Hd53) by lia.
    repeat split; try lia.
  - exists (Pos.iter xO p q), (Zpos (digits2_pos p) - 53).
    rewrite E.
    assert (Hd53 : digits2_pos (Pos.iter xO p q) = 53%positive)
      by (rewrite iter_xO_digits; lia).
    rewrite (binary_round_aligned s _ (Z.neg q) Hd53) by lia.
    split; [reflexivity|]. split; [exact Hd53|].
    split; [lia|]. rewrite iter_xO_value. reflexivity.
Qed.

(** The value of a double as a fraction of integers, compared with an
    integer: [m * 2^e < n]. *)
Lemma shiftl_lt_iff m e n :
  e <= 0 -> (Z.shiftl (Zpos m) e < n <-> Zpos m < n * 2 ^ (- e)).
Proof.
  intros He. rewrite Z.shiftl_div_pow2 by lia.
  assert (0 < 2 ^ (- e)) by (apply Z.pow_pos_nonneg; lia).
  pose proof (Z.div_mod (Zpos m) (2 ^ (- e)) ltac:(lia)) as Hdm.
  pose proof (Z.mod_pos_bound (Zpos m) (2 ^ (- e)) ltac:(lia)) as Hmb.
  split; intros Hlt.
  - nia.
  - apply Z.div_lt_upper_bound; lia.
Qed.

Lemma pow2_split a b : 0 <= a -> 0 <= b -> 2 ^ (a + b) = 2 ^ a * 2 ^ b.
Proof. intros. now rewrite Z.pow_add_r. Qed.

(** For a valid positive double [lam] and an integer [0 < n < 2^53],
    [lam < (double)n] exactly when the integer part of [lam] is below [n]. *)
Lemma dlt_d_of_int ml el n :
  valid (S754_finite false ml el) = true ->
  0 < n < 2 ^ 53 ->
  (dlt (S754_finite false ml el) (d_of_int n) = true <->
   Z.shiftl (Zpos ml) el < n).
Proof.
  intros Hv Hn. destruct n as [|p|p]; try lia.
  unfold d_of_int, binary_normalize.
  destruct (binary_round_exact false p) as (mz & ez & -> & Hdz & Hez & Hmz); [lia|].
  unfold valid, valid_binary, bounded, canonical_mantissa in Hv.
  apply andb_true_iff in Hv. destruct Hv as [Hc _]. apply Z.eqb_eq in Hc.
  unfold fexp, emin, prec64, emax64 in Hc.
  pose proof (digits2_pos_bounds ml) as Hbl.
  pose proof (digits2_pos_bounds mz) as Hbz. rewrite Hdz in Hbz.
  change (2 ^ (53 - 1)) with 4503599627370496 in Hbz.
  change (2 ^ 53) with 9007199254740992 in *.
  assert (Hdl : Zpos (digits2_pos ml) <= 53) by lia.
  assert (Hml : Zpos ml < 9007199254740992).
  { assert (2 ^ Zpos (digits2_pos ml) <= 2 ^ 53) by (apply Z.pow_le_mono_r; lia).
    change (2 ^ 53) with 9007199254740992 in *. lia. }
  assert (Hpz : 0 < 2 ^ (- ez)) by (apply Z.pow_pos_nonneg; lia).
  unfold dlt, SFltb, SFcompare.
  destruct (Z.compare_spec el ez) as [Heq | Hlt | Hgt].
  - (* same exponent *)
    subst el. rewrite shiftl_lt_iff by lia.
    change (Pos.compare_cont Eq ml mz) with (ml ?= mz)%positive.
    destruct (Pos.compare_spec ml mz) as [E | E | E]; split; intros H;
      try discriminate; try reflexivity; try nia.
  - (* smaller exponent: below *)
    split; [intros _|reflexivity]. rewrite shiftl_lt_iff by lia.
    replace (- el) with (- ez + (ez - el)) by lia.
    rewrite pow2_split by lia.
    assert (2 ^ 1 <= 2 ^ (ez - el)) by (apply Z.pow_le_mono_r; lia).
    change (2 ^ 1) with 2 in *. nia.
  - (* larger exponent: a normal number, not below *)
    split; [discriminate|]. intros Hlt. exfalso.
    assert (Hd53 : Zpos (digits2_pos ml) = 53) by lia.
    rewrite Hd53 in Hbl. change (2 ^ (53 - 1)) with 4503599627370496 in Hbl.
    destruct (Z.le_gt_cases el 0) as [Hle | Hpos].
    + rewrite shiftl_lt_iff in Hlt by lia.
      replace (- ez) with (- el + (el - ez)) in Hmz, Hpz by lia.
      rewrite pow2_split in Hmz, Hpz by lia.
      assert (2 ^ 1 <= 2 ^ (el - ez)) by (apply Z.pow_le_mono_r; lia).
      change (2 ^ 1) with 2 in *.
      assert (0 < 2 ^ (- el)) by (apply Z.pow_pos_nonneg; lia). nia.
    + rewrite Z.shiftl_mul_pow2 in Hlt by lia.
      assert (2 ^ 1 <= 2 ^ el) by (apply Z.pow_le_mono_r; lia).
      change (2 ^ 1) with 2 in *. nia.
Qed.


(** [(double)m > lam] decides whether the floor of [lam] is below [m]. *)
Lemma dgt_d_of_int_floor m lam f :
  valid lam = true -> floor lam = Some f -> 0 <= f ->
  - 2 ^ 53 < m < 2 ^ 53 ->
  dgt (d_of_int m) lam = (f <? m).
Proof.
  intros Hv Hf Hf0 Hm. unfold dgt.
  change (SFltb lam (d_of_int m)) with (dlt lam (d_of_int m)).
  destruct lam as [s|s| |s ml el]; try discriminate Hf.
  - (* zero *)
    injection Hf as <-. destruct m as [|p|p].
    + reflexivity.
    + unfold d_of_int, binary_normalize.
      destruct (binary_round_exact false p) as (mz & ez & -> & _); [lia|].
      reflexivity.
    + unfold d_of_int, binary_normalize.
      destruct (binary_round_exact true p) as (mz & ez & -> & _); [lia|].
      reflexivity.
  - destruct s.
    + (* negative: its floor is negative *)
      injection Hf as <-. exfalso.
      assert (H : 0 <= Z.neg ml) by (apply (Z.shiftl_nonneg (Z.neg ml) el); exact Hf0).
      lia.
    + injection Hf as <-. destruct m as [|p|p].
      * cbn. symmetry. apply Z.ltb_ge. exact Hf0.
      * destruct (dlt (S754_finite false ml el) (d_of_int (Z.pos p))) eqn:E.
        -- apply dlt_d_of_int in E; [|exact Hv|lia]. symmetry. now apply Z.ltb_lt.
        -- symmetry. apply Z.ltb_ge.
           destruct (Z.le_gt_cases (Z.pos p) (Z.shiftl (Z.pos ml) el)) as [|Hlt];
             [assumption|].
           apply (proj2 (dlt_d_of_int ml el (Z.pos p) Hv ltac:(lia))) in Hlt.
           congruence.
      * unfold d_of_int, binary_normalize.
        destruct (binary_round_exact true p) as (mz & ez & -> & _); [lia|].
        cbn. symmetry. apply Z.ltb_ge. lia.
Qed.

(** The cast [(int)lam] of a double that is not negative is its floor. *)
Lemma int_of_double_floor lam f :
  floor lam = Some f -> 0 <= f ->
  int_of_double lam = if f <=? INT_MAX then Ret f else Fail Undefined.
Proof.
  intros Hf Hf0. destruct lam as [s|s| |s ml el]; try discriminate Hf.
  - injection Hf as <-. reflexivity.
  - destruct s; injection Hf as <-.
    + exfalso.
      assert (H : 0 <= Z.neg ml) by (apply (Z.shiftl_nonneg (Z.neg ml) el); exact Hf0).
      lia.
    + unfold int_of_double, trunc_finite, cond_Zopp.
      replace (INT_MIN <=? Z.shiftl (Z.pos ml) el) with true; [reflexivity|].
      symmetry. apply Z.leb_le. unfold INT_MIN. lia.
Qed.

End IntDouble.
Import IntDouble.

(** ** The draw of the acceptance predicates

    [random() / (float)RAND_MAX]: the draw is converted to [float], which
    rounds it to 24 digits, divided by [(float)RAND_MAX = 2^31], and widened
    to [double] for [log]. *)

Module FloatDraw.

Lemma round_aux_aligned p emax s mz ez :
  Zpos (digits2_pos mz) = p -> 3 - emax - p <= ez <= emax - p ->
  binary_round_aux p emax s (Zpos mz) ez loc_Exact = S754_finite s mz ez.
Proof.
  intros Hd He. unfold binary_round_aux, shr_fexp.
  cbn [Zdigits2 shr_record_of_loc]. rewrite Hd.
  replace (fexp p emax (p + ez) - ez) with 0 by (unfold fexp, emin; lia).
  cbn [shr shr_m loc_of_shr_record round_nearest_even Zdigits2 shr_record_of_loc].
  rewrite Hd.
  replace (fexp p emax (p + ez) - ez) with 0 by (unfold fexp, emin; lia).
  cbn [shr shr_m].
  replace (ez <=? emax - p) with true; [reflexivity|].
  symmetry. apply Z.leb_le. lia.
Qed.

Lemma digits2_pos_unique m k :
  2 ^ (k - 1) <= Zpos m < 2 ^ k -> Zpos (digits2_pos m) = k.
Proof.
  intros [Hlo Hhi]. pose proof (digits2_pos_bounds m) as [Blo Bhi].
  assert (0 < k).
  { destruct k as [|k|k]; [|lia|]; cbn in Hhi; lia. }
  destruct (Z.lt_trichotomy (Zpos (digits2_pos m)) k) as [Hlt | [Heq | Hgt]];
    [|exact Heq|].
  - assert (2 ^ Zpos (digits2_pos m) <= 2 ^ (k - 1)) by (apply Z.pow_le_mono_r; lia).
    lia.
  - assert (2 ^ k <= 2 ^ (Zpos (digits2_pos m) - 1)) by (apply Z.pow_le_mono_r; lia).
    lia.
Qed.

(** [shr_1] halves the mantissa. *)
Lemma shr_1_m mrs : 0 <= shr_m mrs -> shr_m (shr_1 mrs) = shr_m mrs / 2.
Proof.
  destruct mrs as [m r s]. cbn [shr_m]. intros Hm.
  destruct m as [|p|p]; [reflexivity| |lia].
  destruct p as [q|q|]; cbn [shr_1 shr_m].
  - rewrite Pos2Z.inj_xI. apply Z.div_unique with 1; lia.
  - rewrite Pos2Z.inj_xO. apply Z.div_unique with 0; lia.
  - reflexivity.
Qed.

Lemma iter_shr_1_m n :
  forall mrs, 0 <= shr_m mrs ->
    shr_m (iter_pos shr_1 n mrs) = shr_m mrs / 2 ^ Zpos n.
Proof.
  induction n as [n IH|n IH|]; intros mrs Hm; cbn [iter_pos].
  - assert (H1 : 0 <= shr_m (shr_1 mrs)).
    { rewrite shr_1_m by exact Hm. apply Z.div_pos; lia. }
    assert (H2 : 0 <= shr_m (iter_pos shr_1 n (shr_1 mrs))).
    { rewrite IH by exact H1. apply Z.div_pos; [exact H1|]. apply Z.pow_pos_nonneg; lia. }
    rewrite IH by exact H2. rewrite IH by exact H1. rewrite shr_1_m by exact Hm.
    rewrite !Z.div_div by (try apply Z.pow_pos_nonneg; lia).
    f_equal. rewrite (Pos2Z.inj_xI n).
    replace (2 * Zpos n + 1) with (1 + Zpos n + Zpos n) by lia.
    rewrite (Z.pow_add_r 2 (1 + Zpos n) (Zpos n)) by lia.
    rewrite (Z.pow_add_r 2 1 (Zpos n)) by lia. change (2 ^ 1) with 2. lia.
  - assert (H2 : 0 <= shr_m (iter_pos shr_1 n mrs)).
    { rewrite IH by exact Hm. apply Z.div_pos; [exact Hm|]. apply Z.pow_pos_nonneg; lia. }
    rewrite IH by exact H2. rewrite IH by exact Hm.
    rewrite !Z.div_div by (try apply Z.pow_pos_nonneg; lia).
    f_equal. rewrite (Pos2Z.inj_xO n).
    replace (2 * Zpos n) with (Zpos n + Zpos n) by lia.
    rewrite (Z.pow_add_r 2 (Zpos n) (Zpos n)) by lia. lia.
  - rewrite shr_1_m by exact Hm. reflexivity.
Qed.

Lemma round_nearest_even_cases m l :
  round_nearest_even m l = m \/ round_nearest_even m l = m + 1.
Proof.
  destruct l as [|[| |]]; simpl; auto. destruct (Z.even m); auto.
Qed.


Lemma iter_pos_nat {A} (f : A -> A) (n : positive) :
  forall x, iter_pos f n x = Nat.iter (Pos.to_nat n) f x.
Proof.
  induction n as [n IH|n IH|]; intros x; cbn [iter_pos].
  - rewrite !IH. rewrite Pos2Nat.inj_xI.
    replace (S (2 * Pos.to_nat n)) with (Pos.to_nat n + (Pos.to_nat n + 1))%nat by lia.
    rewrite !Nat.iter_add. reflexivity.
  - rewrite !IH. rewrite Pos2Nat.inj_xO.
    replace (2 * Pos.to_nat n)%nat with (Pos.to_nat n + Pos.to_nat n)%nat by lia.
    rewrite Nat.iter_add. reflexivity.
  - reflexivity.
Qed.

Lemma shr_1_digit mrs :
  0 <= shr_m mrs ->
  shr_m mrs = 2 * shr_m (shr_1 mrs) + Z.b2z (shr_r (shr_1 mrs)) /\
  shr_s (shr_1 mrs) = shr_r mrs || shr_s mrs /\
  0 <= shr_m (shr_1 mrs).
Proof.
  destruct mrs as [m r s]. cbn [shr_m shr_r shr_s]. intros Hm.
  destruct m as [|p|p]; [cbn; auto with zarith| |lia].
  destruct p as [q|q|]; cbn [shr_1 shr_m shr_r shr_s Z.b2z]; repeat split; lia.
Qed.

Lemma shifted_first m :
  0 <= m ->
  shifted m 1 (shr_1 {| shr_m := m; shr_r := false; shr_s := false |}).
Proof.
  intros Hm.
  destruct (shr_1_digit {| shr_m := m; shr_r := false; shr_s := false |} Hm)
    as (Hd & Hs & Hp).
  cbn [shr_m shr_r shr_s orb] in Hd, Hs.
  exists 0. change (2 ^ (1 - 1)) with 1. change (2 ^ 1) with 2.
  rewrite Hs. repeat split; try lia; try discriminate.
Qed.

Lemma shifted_next m k mrs :
  1 <= k -> shifted m k mrs -> shifted m (k + 1) (shr_1 mrs).
Proof.
  intros Hk (t & Hm & Ht & Hs & Hp).
  destruct (shr_1_digit mrs Hp) as (Hd & Hs1 & Hp1).
  exists (Z.b2z (shr_r mrs) * 2 ^ (k - 1) + t).
  replace (k + 1 - 1) with k by lia.
  assert (H2 : 2 ^ k = 2 * 2 ^ (k - 1)).
  { replace k with (k - 1 + 1) at 1 by lia. rewrite Z.pow_add_r by lia.
    change (2 ^ 1) with 2. lia. }
  assert (H3 : 2 ^ (k + 1) = 2 * 2 ^ k) by (rewrite Z.pow_add_r by lia; change (2 ^ 1) with 2; lia).
  assert (Hpos : 0 < 2 ^ (k - 1)) by (apply Z.pow_pos_nonneg; lia).
  split; [|split; [|split; [|exact Hp1]]].
  - rewrite Hm at 1. rewrite Hd at 1. rewrite H3. ring.
  - destruct (shr_r mrs); cbn [Z.b2z]; lia.
  - rewrite Hs1. split.
    + intros H. apply orb_true_iff in H. destruct H as [Hr | Hs'].
      * rewrite Hr. cbn [Z.b2z]. lia.
      * apply Hs in Hs'. destruct (shr_r mrs); cbn [Z.b2z]; lia.
    + intros H. apply orb_true_iff.
      destruct (shr_r mrs); [left; reflexivity|right].
      apply Hs. cbn [Z.b2z] in H. lia.
Qed.

Lemma shifted_iter m (j : nat) :
  0 <= m ->
  shifted m (Z.of_nat (S j))
    (Nat.iter (S j) shr_1 {| shr_m := m; shr_r := false; shr_s := false |}).
Proof.
  intros Hm. induction j as [|j IH].
  - apply shifted_first. exact Hm.
  - replace (Z.of_nat (S (S j))) with (Z.of_nat (S j) + 1) by lia.
    change (Nat.iter (S (S j)) shr_1 ?x) with (shr_1 (Nat.iter (S j) shr_1 x)).
    apply shifted_next; [lia|exact IH].
Qed.

(** Rounding after [q] shifts is rounding to the nearest, ties to even. *)
Lemma round_shifted m q mrs :
  1 <= q -> shifted m q mrs ->
  round_nearest_even (shr_m mrs) (loc_of_shr_record mrs) = nearest_even m q.
Proof.
  intros Hq (t & Hm & Ht & Hs & Hp).
  assert (Hpos : 0 < 2 ^ (q - 1)) by (apply Z.pow_pos_nonneg; lia).
  assert (H2 : 2 ^ q = 2 * 2 ^ (q - 1)).
  { replace q with (q - 1 + 1) at 1 by lia. rewrite Z.pow_add_r by lia.
    change (2 ^ 1) with 2. lia. }
  set (rem := Z.b2z (shr_r mrs) * 2 ^ (q - 1) + t).
  assert (Hrem : 0 <= rem < 2 ^ q) by (unfold rem; destruct (shr_r mrs); cbn [Z.b2z]; lia).
  assert (Hdiv : m / 2 ^ q = shr_m mrs).
  { symmetry. apply Z.div_unique with rem; [lia|]. unfold rem. lia. }
  assert (Hmod : m mod 2 ^ q = rem).
  { symmetry. apply Z.mod_unique with (shr_m mrs); [lia|]. unfold rem. lia. }
  unfold nearest_even. cbv zeta. rewrite Hdiv, Hmod.
  destruct mrs as [M r s]. cbn [shr_m shr_r shr_s loc_of_shr_record] in *.
  unfold rem. destruct r, s; cbn [Z.b2z round_nearest_even].
  - assert (0 < t) by (apply Hs; reflexivity).
    replace (1 * 2 ^ (q - 1) + t <? 2 ^ (q - 1)) with false by (symmetry; apply Z.ltb_ge; lia).
    replace (2 ^ (q - 1) <? 1 * 2 ^ (q - 1) + t) with true by (symmetry; apply Z.ltb_lt; lia).
    reflexivity.
  - assert (t = 0).
    { destruct (Z.eq_dec t 0) as [|Hne]; [assumption|].
      assert (Ht0 : 0 < t) by lia. apply Hs in Ht0. discriminate. }
    subst t.
    replace (1 * 2 ^ (q - 1) + 0 <? 2 ^ (q - 1)) with false by (symmetry; apply Z.ltb_ge; lia).
    replace (2 ^ (q - 1) <? 1 * 2 ^ (q - 1) + 0) with false by (symmetry; apply Z.ltb_ge; lia).
    destruct (Z.even M); reflexivity.
  - replace (0 * 2 ^ (q - 1) + t <? 2 ^ (q - 1)) with true by (symmetry; apply Z.ltb_lt; lia).
    reflexivity.
  - replace (0 * 2 ^ (q - 1) + t <? 2 ^ (q - 1)) with true by (symmetry; apply Z.ltb_lt; lia).
    reflexivity.
Qed.

Lemma nearest_even_cases r q :
  nearest_even r q = r / 2 ^ q \/ nearest_even r q = r / 2 ^ q + 1.
Proof.
  unfold nearest_even. cbv zeta.
  destruct (_ <? _); [now left|]. destruct (_ <? _); [now right|].
  destruct (Z.even _); auto.
Qed.

(** The last step of a rounding to [float], with the value it keeps. *)
Lemma round_float_carry s m e :
  2 ^ 23 <= Zpos m <= 2 ^ 24 -> -149 <= e <= 7 ->
  exists m' e',
    (let '(mrs, e2) := shr_fexp prec32 emax32 (Zpos m) e loc_Exact in
     match shr_m mrs with
     | Z0 => S754_zero s
     | Zpos m2 =>
         if e2 <=? emax32 - prec32 then S754_finite s m2 e2 else S754_infinity s
     | _ => S754_nan
     end) = S754_finite s m' e' /\
    Zpos (digits2_pos m') = 24 /\ e <= e' <= 8 /\
    (e' = 8 -> m' = 8388608%positive) /\
    Zpos m' * 2 ^ (e' - e) = Zpos m.
Proof.
  intros Hm He.
  destruct (Z.eq_dec (Zpos m) (2 ^ 24)) as [E | Hne].
  - change (2 ^ 24) with (Zpos 16777216) in E. injection E as ->.
    exists 8388608%positive, (e + 1).
    unfold shr_fexp. cbn [Zdigits2 shr_record_of_loc digits2_pos Pos.succ].
    replace (fexp prec32 emax32 (25 + e) - e) with 1
      by (unfold fexp, emin, prec32, emax32; lia).
    cbn [shr iter_pos shr_1 shr_m orb].
    replace (e + 1 <=? emax32 - prec32) with true
      by (symmetry; apply Z.leb_le; unfold emax32, prec32; lia).
    replace (e + 1 - e) with 1 by lia.
    repeat split; try reflexivity; lia.
  - assert (Hd : Zpos (digits2_pos m) = 24)
      by (apply digits2_pos_unique; change (24 - 1) with 23; lia).
    exists m, e.
    unfold shr_fexp. cbn [Zdigits2 shr_record_of_loc]. rewrite Hd.
    replace (fexp prec32 emax32 (24 + e) - e) with 0
      by (unfold fexp, emin, prec32, emax32; lia).
    cbn [shr shr_m].
    replace (e <=? emax32 - prec32) with true
      by (symmetry; apply Z.leb_le; unfold emax32, prec32; lia).
    rewrite Z.sub_diag.
    repeat split; try reflexivity; try lia.
Qed.

Lemma log2_digits p : Z.log2 (Zpos p) + 1 = Zpos (digits2_pos p).
Proof.
  pose proof (digits2_pos_bounds p) as Hb.
  rewrite (Z.log2_unique (Zpos p) (Zpos (digits2_pos p) - 1)); [lia|lia|].
  replace (Z.succ (Zpos (digits2_pos p) - 1)) with (Zpos (digits2_pos p)) by lia.
  exact Hb.
Qed.

(** The conversion of an [int] to [float] rounds to the nearest [float],
    a tie to the even one. *)
Lemma f_of_int_value r :
  0 < r < 2 ^ 31 ->
  exists m e,
    f_of_int r = S754_finite false m e /\
    Zpos (digits2_pos m) = 24 /\ (-23 <= e <= 8) /\
    (e = 8 -> m = 8388608%positive) /\
    Zpos m * 2 ^ (e + 23) = round_to_float r * 2 ^ 23.
Proof.
  intros Hr. destruct r as [|p|p]; try lia.
  pose proof (digits2_pos_bounds p) as Hb.
  assert (Hd : 1 <= Zpos (digits2_pos p) <= 31).
  { split; [lia|].
    destruct (Z.le_gt_cases (Zpos (digits2_pos p)) 31) as [|Hgt]; [assumption|].
    assert (2 ^ 31 <= 2 ^ (Zpos (digits2_pos p) - 1)) by (apply Z.pow_le_mono_r; lia).
    lia. }
  unfold round_to_float. cbv zeta. rewrite log2_digits.
  unfold f_of_int, binary_normalize, binary_round, shl_align.
  replace (fexp prec32 emax32 (Zpos (digits2_pos p) + 0))
    with (Zpos (digits2_pos p) - 24)
    by (unfold fexp, emin, prec32, emax32; lia).
  rewrite Z.sub_0_r.
  destruct (Zpos (digits2_pos p) - 24) as [|q|q] eqn:E.
  - exists p, 0.
    rewrite (round_aux_aligned prec32 emax32 false p 0)
      by (unfold prec32, emax32; lia).
    cbn [Z.leb Z.compare]. repeat split; lia.
  - assert (H2 : 0 < 2 ^ Zpos q) by (apply Z.pow_pos_nonneg; lia).
    assert (HQ : 2 ^ 23 <= Zpos p / 2 ^ Zpos q < 2 ^ 24).
    { replace (Zpos (digits2_pos p)) with (24 + Zpos q) in Hb by lia.
      replace (24 + Zpos q - 1) with (23 + Zpos q) in Hb by lia.
      rewrite !Z.pow_add_r in Hb by lia. split.
      - apply Z.div_le_lower_bound; lia.
      - apply Z.div_lt_upper_bound; lia. }
    unfold binary_round_aux at 1. unfold shr_fexp at 1.
    cbn [Zdigits2 shr_record_of_loc].
    replace (fexp prec32 emax32 (Zpos (digits2_pos p) + 0) - 0) with (Zpos q)
      by (unfold fexp, emin, prec32, emax32; lia).
    cbn [shr]. change (0 + Zpos q) with (Zpos q).
    set (mrs := iter_pos shr_1 q _).
    assert (Hsh : shifted (Zpos p) (Zpos q) mrs).
    { unfold mrs. rewrite iter_pos_nat.
      destruct (Pos2Nat.is_succ q) as [j Hj]. rewrite Hj.
      replace (Zpos q) with (Z.of_nat (S j)) by (rewrite <- Hj; apply positive_nat_Z).
      apply shifted_iter. lia. }
    rewrite (round_shifted (Zpos p) (Zpos q) mrs ltac:(lia) Hsh).
    assert (Hq : exists m, nearest_even (Zpos p) (Zpos q) = Zpos m /\
                           2 ^ 23 <= Zpos m <= 2 ^ 24).
    { destruct (nearest_even_cases (Zpos p) (Zpos q)) as [-> | ->].
      - destruct (Zpos p / 2 ^ Zpos q) as [|m|m] eqn:EQ; try lia.
        exists m. split; [reflexivity|lia].
      - destruct (Zpos p / 2 ^ Zpos q + 1) as [|m|m] eqn:EQ; try lia.
        exists m. split; [reflexivity|lia]. }
    destruct Hq as (m & Hne & Hmb). rewrite Hne.
    destruct (round_float_carry false m (Zpos q) Hmb ltac:(lia))
      as (m' & e' & -> & Hd' & He' & H8 & Hv).
    exists m', e'. split; [reflexivity|]. split; [exact Hd'|]. split; [lia|].
    split; [exact H8|].
    replace (Zpos q <=? 0) with false by (symmetry; apply Z.leb_gt; lia).
    rewrite <- Hv.
    replace (e' + 23) with ((e' - Zpos q) + (Zpos q + 23)) by lia.
    rewrite Z.pow_add_r by lia. rewrite (Z.pow_add_r 2 (Zpos q) 23) by lia. ring.
  - exists (Pos.iter xO p q), (Zpos (digits2_pos p) - 24).
    assert (Hd24 : Zpos (digits2_pos (Pos.iter xO p q)) = 24)
      by (rewrite iter_xO_digits; lia).
    rewrite E.
    rewrite (round_aux_aligned prec32 emax32 false _ (Z.neg q))
      by (unfold prec32, emax32; lia).
    replace (Zneg q <=? 0) with true by (symmetry; apply Z.leb_le; lia).
    split; [reflexivity|]. split; [exact Hd24|]. split; [lia|]. split; [lia|].
    rewrite iter_xO_value.
    replace 23 with (Zpos q + (Zneg q + 23)) at 2 by lia.
    rewrite (Z.pow_add_r 2 (Zpos q) (Zneg q + 23)) by lia. ring.
Qed.

(** Dividing a [float] of 24 digits by [2^31] lowers its exponent by 31. *)
Lemma fdiv_pow31 m e :
  Zpos (digits2_pos m) = 24 -> -23 <= e <= 8 ->
  fdiv (S754_finite false m e) (S754_finite false 8388608 8)
  = S754_finite false m (e - 31).
Proof.
  intros Hd He. unfold fdiv, SFdiv, SFdiv_core_binary.
  cbn [Zdigits2 xorb]. rewrite Hd.
  change (Zpos (digits2_pos 8388608)) with 24.
  replace (Z.min (fexp prec32 emax32 (24 + e - (24 + 8))) (e - 8)) with (e - 32)
    by (unfold fexp, emin, prec32, emax32; lia).
  replace (e - 8 - (e - 32)) with 24 by lia.
  rewrite Z.shiftl_mul_pow2 by lia.
  assert (Hdiv : Z.div_eucl (Zpos m * 2 ^ 24) 8388608 = (Zpos (xO m), 0)).
  { pose proof (Z.div_eucl_eq (Zpos m * 2 ^ 24) 8388608 ltac:(lia)) as Heq.
    pose proof (Z.mod_pos_bound (Zpos m * 2 ^ 24) 8388608 ltac:(lia)) as Hb.
    unfold Z.modulo in Hb.
    destruct (Z.div_eucl (Zpos m * 2 ^ 24) 8388608) as [q r].
    change (2 ^ 24) with 16777216 in *. rewrite Pos2Z.inj_xO.
    f_equal; lia. }
  rewrite Hdiv. change (new_location 8388608 0) with loc_Exact.
  unfold binary_round_aux, shr_fexp.
  cbn [Zdigits2 shr_record_of_loc digits2_pos].
  rewrite Pos2Z.inj_succ, Hd.
  replace (fexp prec32 emax32 (Z.succ 24 + (e - 32)) - (e - 32)) with 1
    by (unfold fexp, emin, prec32, emax32; lia).
  cbn [shr iter_pos shr_1 shr_m orb loc_of_shr_record round_nearest_even
       Zdigits2 shr_record_of_loc].
  rewrite Hd.
  replace (fexp prec32 emax32 (24 + (e - 32 + 1)) - (e - 32 + 1)) with 0
    by (unfold fexp, emin, prec32, emax32; lia).
  cbn [shr shr_m].
  replace (e - 32 + 1 <=? emax32 - prec32) with true
    by (symmetry; apply Z.leb_le; unfold emax32, prec32; lia).
  f_equal. lia.
Qed.

(** A [float] of 24 digits as a [double]. *)
Lemma d_of_float_24 m e :
  Zpos (digits2_pos m) = 24 -> -60 <= e <= 0 ->
  d_of_float (S754_finite false m e)
  = S754_finite false (Pos.iter xO m 29) (e - 29).
Proof.
  intros Hd He. unfold d_of_float. cbn [cond_Zopp].
  unfold binary_normalize, binary_round, shl_align. rewrite Hd.
  replace (fexp prec64 emax64 (24 + e)) with (e - 29)
    by (unfold fexp, emin, prec64, emax64; lia).
  replace (e - 29 - e) with (Zneg 29) by lia.
  apply round_aux_aligned; [rewrite iter_xO_digits; unfold prec64; lia|].
  unfold prec64, emax64; lia.
Qed.

(** [random() / (float)RAND_MAX] is in [0, 1]. *)
Lemma unit_draw_unit r :
  0 <= r <= RAND_MAX ->
  dle d0 (unit_draw r) = true /\ dle (unit_draw r) d1 = true.
Proof.
  intros Hr. unfold unit_draw.
  change (f_of_int RAND_MAX) with (S754_finite false 8388608 8).
  destruct (Z.eq_dec r 0) as [-> | Hne]; [split; reflexivity|].
  destruct (f_of_int_value r) as (m & e & -> & Hd & He & H8 & _);
    [unfold RAND_MAX in Hr; change (2 ^ 31) with 2147483648; lia|].
  rewrite (fdiv_pow31 m e Hd He).
  assert (He' : -60 <= e - 31 <= 0) by lia.
  rewrite (d_of_float_24 m (e - 31) Hd He').
  split; [reflexivity|].
  unfold dle, SFleb, SFcompare, d1.
  destruct (Z.eq_dec e 8) as [-> | Hne8].
  - rewrite (H8 eq_refl). reflexivity.
  - replace (e - 31 - 29 ?= -52) with Lt; [reflexivity|].
    symmetry. apply Z.compare_lt_iff. lia.
Qed.

(** [random() / (float)RAND_MAX] is the draw, rounded to [float], over
    [2^31]. *)
Lemma unit_draw_value r :
  0 <= r <= RAND_MAX -> unit_draw r = draw_quotient r.
Proof.
  intros Hr. unfold unit_draw, draw_quotient.
  change (f_of_int RAND_MAX) with (S754_finite false 8388608 8).
  assert (H31 : Z.log2 (round_to_float RAND_MAX) = 31) by (vm_compute; reflexivity).
  rewrite H31.
  destruct (Z.eq_dec r 0) as [-> | Hne]; [reflexivity|].
  destruct (f_of_int_value r) as (m & e & -> & Hd & He & H8 & Hv);
    [unfold RAND_MAX in Hr; change (2 ^ 31) with 2147483648; lia|].
  rewrite (fdiv_pow31 m e Hd He).
  assert (He' : -60 <= e - 31 <= 0) by lia.
  rewrite (d_of_float_24 m (e - 31) Hd He').
  pose proof (digits2_pos_bounds m) as Hb. rewrite Hd in Hb.
  change (24 - 1) with 23 in Hb.
  set (n := round_to_float r) in *.
  assert (P23 : 0 < 2 ^ (e + 23)) by (apply Z.pow_pos_nonneg; lia).
  assert (Hn : 2 ^ (23 + e) <= n < 2 ^ (24 + e)).
  { replace (24 + e) with (1 + (e + 23)) by lia.
    replace (23 + e) with (e + 23) by lia.
    rewrite (Z.pow_add_r 2 1 (e + 23)) by lia. change (2 ^ 1) with 2.
    change (2 ^ 23) with 8388608 in *. change (2 ^ 24) with 16777216 in *. nia. }
  assert (Hlog : Z.log2 n = 23 + e).
  { apply Z.log2_unique; [lia|].
    replace (Z.succ (23 + e)) with (24 + e) by lia. exact Hn. }
  unfold dyadic. cbv zeta. rewrite Hlog.
  replace (53 - (23 + e + 1)) with (29 - e) by lia.
  assert (Hval : n * 2 ^ (29 - e) = Zpos (Pos.iter xO m 29)).
  { rewrite iter_xO_value.
    assert (Hx : n * 2 ^ (29 - e) * 2 ^ 23 = Zpos m * 2 ^ 29 * 2 ^ 23).
    { rewrite <- Z.mul_assoc, (Z.mul_comm (2 ^ (29 - e))), Z.mul_assoc, <- Hv.
      rewrite <- !Z.mul_assoc. f_equal. rewrite <- !Z.pow_add_r by lia.
      f_equal. lia. }
    change (2 ^ 23) with 8388608 in Hx. lia. }
  rewrite Hval. f_equal. lia.
Qed.

End FloatDraw.

Section Acceptance.
Context {M : MathLib}.

(** C6. [mcmc_accepts] returns, and it returns true exactly when
    [prefix_bound > max_log_post] and [log U < (new - old) + log(extra)],
    where [extra] is the jump ratio and [U] is the next draw [r] of
    [random()] over [(float)RAND_MAX]: [r] is rounded to [float] and
    divided by [2^31], so that [U = draw_quotient r] is in [0, 1]. The draw
    is made, and the generator advanced by one, only when the first test
    holds. *)
Theorem mcmc_accepts_iff :
  forall new_log_post old_log_post pb max_log_post extra g,
    let r := fst (next_draw (rng g)) in
    let U := draw_quotient r in
    unit_draw r = U /\
    (dle d0 U = true /\ dle U d1 = true) /\
    exists b,
      mcmc_accepts new_log_post old_log_post pb max_log_post extra g
      = Ret (b, if dgt pb max_log_post then advance g else g) /\
      (b = true <->
       dgt pb max_log_post = true /\
       dlt (log U) (dadd (dsub new_log_post old_log_post) (log extra)) = true).
Proof.
  intros n o pb mx extra g r U.
  assert (HU : unit_draw r = U) by (apply FloatDraw.unit_draw_value, next_draw_range).
  split; [exact HU|].
  split; [rewrite <- HU; apply FloatDraw.unit_draw_unit, next_draw_range|].
  unfold mcmc_accepts. destruct (dgt pb mx) eqn:Hg.
  - unfold pbind, random. rewrite rand_run. unfold pret. fold r. rewrite HU.
    eexists. split; [reflexivity|]. tauto.
  - exists false. split; [reflexivity|].
    split; [discriminate|]. intros [H _]. discriminate.
Qed.

End Acceptance.

Lemma zth_ret_iff {A} (l : list A) (i : Z) :
  (exists v, zth l i = Ret v) <-> 0 <= i < Z.of_nat (length l).
Proof.
  unfold zth. destruct (i <? 0) eqn:E.
  - apply Z.ltb_lt in E. split; [intros [v H]; discriminate|lia].
  - apply Z.ltb_ge in E.
    destruct (nth_error l (Z.to_nat i)) as [a|] eqn:N.
    + split; [intros _|eauto].
      assert (Z.to_nat i < length l)%nat by (apply nth_error_Some; congruence). lia.
    + split; [intros [v H]; discriminate|].
      intros H. apply nth_error_None in N. lia.
Qed.

Lemma table_length n f : 0 <= n -> Z.of_nat (length (table n f)) = n.
Proof. intros H. unfold table. rewrite length_map, length_seq. lia. Qed.

(** ** The lambda table in [compute_log_posterior] *)

Section LambdaTable.
Context {M : MathLib} {L : RuleLib}.

(** C5. For a parameter [lambda] that is a number and not negative, whose
    floor fits an [int], the lambda-table entry that starts [prefix_prior]
    is the one at index [max (m, floor lambda)], [m = n_rules - 1]: the test
    [m > lambda] of the source holds exactly when that maximum is [m], and
    otherwise the index [(int)lambda] is the floor of [lambda]. *)
Theorem prefix_lambda_index_is_max :
  forall n_rules lam f,
    valid lam = true ->
    floor lam = Some f ->
    0 <= f <= INT_MAX ->
    INT_MIN < n_rules <= INT_MAX ->
    prefix_lambda_index n_rules lam = Ret (Z.max (n_rules - 1) f) /\
    (if dgt (d_of_int (n_rules - 1)) lam
     then f < n_rules - 1 /\ Z.max (n_rules - 1) f = n_rules - 1
     else n_rules - 1 <= f /\ Z.max (n_rules - 1) f = f /\ int_of_double lam = Ret f) /\
    (forall tbl,
        prefix_lambda_term tbl n_rules lam = zth tbl (Z.max (n_rules - 1) f)).
Proof.
  intros n_rules lam f Hv Hf Hf0 Hn.
  assert (Hm : - 2 ^ 53 < n_rules - 1 < 2 ^ 53).
  { unfold INT_MIN, INT_MAX in Hn. change (2 ^ 53) with 9007199254740992. lia. }
  pose proof (dgt_d_of_int_floor (n_rules - 1) lam f Hv Hf (proj1 Hf0) Hm) as Hgt.
  pose proof (int_of_double_floor lam f Hf (proj1 Hf0)) as Hcast.
  replace (f <=? INT_MAX) with true in Hcast
    by (symmetry; apply Z.leb_le; lia).
  assert (Hidx : prefix_lambda_index n_rules lam = Ret (Z.max (n_rules - 1) f)).
  { unfold prefix_lambda_index. rewrite Hgt.
    destruct (f <? n_rules - 1) eqn:E.
    - apply Z.ltb_lt in E. f_equal. lia.
    - apply Z.ltb_ge in E. rewrite Hcast. f_equal. lia. }
  split; [exact Hidx|]. split.
  - rewrite Hgt. destruct (f <? n_rules - 1) eqn:E.
    + apply Z.ltb_lt in E. lia.
    + apply Z.ltb_ge in E. repeat split; try lia. exact Hcast.
  - intros tbl. unfold prefix_lambda_term. now rewrite Hidx.
Qed.

(** C10. The lambda table that [compute_log_posterior] allocates has
    exactly [nrules] entries, the indices 0 to [nrules - 1]; when the test
    [m > lambda] fails, the read at [(int)lambda] is inside the table
    exactly when [floor lambda <= nrules - 1]; and a positive [lambda] can
    break that: with [lambda = 5] and a library of four rules the read of a
    two-rule list is outside the table. *)
Theorem lambda_table_bounds :
  (forall nrules params g,
      log_lambda_pmf g = None -> 0 <= nrules ->
      exists g' tbl,
        init_pmf nrules params g = Ret (tt, g') /\
        log_lambda_pmf g' = Some tbl /\
        Z.of_nat (length tbl) = nrules /\
        (forall i, (exists v, zth tbl i = Ret v) <-> 0 <= i <= nrules - 1)) /\
  (forall tbl n_rules lam f,
      valid lam = true -> floor lam = Some f -> 0 <= f ->
      INT_MIN < n_rules <= INT_MAX ->
      Z.of_nat (length tbl) <= INT_MAX ->
      dgt (d_of_int (n_rules - 1)) lam = false ->
      ((exists v, prefix_lambda_term tbl n_rules lam = Ret v) <->
       f <= Z.of_nat (length tbl) - 1)) /\
  (exists lam,
      dlt d0 lam = true /\ valid lam = true /\
      prefix_lambda_term
        (table 4 (fun i => log (gsl_ran_poisson_pdf i lam))) 2 lam
      = Fail Undefined).
Proof.
  split; [|split].
  - intros nrules params g Hnull Hn. unfold init_pmf. rewrite Hnull.
    eexists; eexists. split; [reflexivity|]. split; [reflexivity|].
    split; [apply table_length; exact Hn|].
    intros i. rewrite zth_ret_iff, table_length by exact Hn. lia.
  - intros tbl n_rules lam f Hv Hf Hf0 Hn Hlen Hgt.
    unfold prefix_lambda_term, prefix_lambda_index. rewrite Hgt.
    rewrite (int_of_double_floor lam f Hf Hf0).
    destruct (f <=? INT_MAX) eqn:E.
    + cbn [rbind]. rewrite zth_ret_iff. lia.
    + apply Z.leb_gt in E. cbn [rbind].
      split; [intros [v H]; discriminate|lia].
  - exists (d_of_int 5). split; [reflexivity|]. split; reflexivity.
Qed.

End LambdaTable.


(** ** The cooling schedule of simulated annealing *)

Lemma in_range_cases (P : Z -> bool) (lo : Z) (n : nat) :
  forallb P (map (fun k => lo + Z.of_nat k) (seq 0 n)) = true ->
  forall i, lo <= i < lo + Z.of_nat n -> P i = true.
Proof.
  intros H i Hi. rewrite forallb_forall in H. apply H.
  apply in_map_iff. exists (Z.to_nat (i - lo)). split; [lia|].
  apply in_seq. lia.
Qed.

Lemma block_temperature_decreasing i :
  1 <= i <= 26 -> dlt (block_temperature (i + 1)) (block_temperature i) = true.
Proof.
  intros Hi.
  apply (in_range_cases
           (fun i => dlt (block_temperature (i + 1)) (block_temperature i)) 1 26);
    [vm_compute; reflexivity | lia].
Qed.

Lemma block_temperature_number i :
  1 <= i <= 27 -> dle (block_temperature i) (block_temperature i) = true.
Proof.
  intros Hi.
  apply (in_range_cases (fun i => dle (block_temperature i) (block_temperature i)) 1 27);
    [vm_compute; reflexivity | lia].
Qed.

Lemma nonincreasing_app (T1 T2 : list double) :
  nonincreasing T1 -> nonincreasing T2 ->
  (forall x y, In x T1 -> In y T2 -> dle y x = true) ->
  nonincreasing (T1 ++ T2).
Proof.
  unfold nonincreasing. intros H1 H2 H12.
  induction H1 as [|a l Hl IH Ha]; [exact H2|].
  simpl. constructor.
  - apply IH. intros x y Hx Hy. apply H12; [now right|exact Hy].
  - apply Forall_app. split; [exact Ha|].
    apply Forall_forall. intros y Hy. apply H12; [now left|exact Hy].
Qed.

Lemma nonincreasing_repeat v n : dle v v = true -> nonincreasing (repeat v n).
Proof.
  intros Hv. induction n as [|n IH]; simpl; constructor; [exact IH|].
  apply Forall_forall. intros y Hy. apply repeat_spec in Hy. now subst.
Qed.

Lemma for_range_ext {St} (f h : Z -> St -> res St) (n : nat) :
  forall i s,
    (forall j s', i <= j < i + Z.of_nat n -> f j s' = h j s') ->
    for_range n i f s = for_range n i h s.
Proof.
  induction n as [|n IH]; intros i s Hext; [reflexivity|].
  cbn [for_range]. rewrite Hext by lia.
  destruct (h i s) as [s1|e]; [|reflexivity]. cbn [rbind].
  apply IH. intros j s' Hj. apply Hext. lia.
Qed.

Section Schedule.
Context {M : MathLib}.

(** The blocks of the schedule: after the blocks before [i] every
    temperature emitted is at least that of block [i]. *)
Lemma schedule_step_sorted i st st' :
  1 <= i <= 27 ->
  schedule_step i st = Ret st' ->
  nonincreasing (sched_T st) ->
  Forall (fun x => dle (block_temperature i) x = true) (sched_T st) ->
  nonincreasing (sched_T st') /\
  Forall (fun x => dle (block_temperature i) x = true) (sched_T st').
Proof.
  intros Hi H Hs Hall. unfold schedule_step in H.
  fold (block_temperature i) in H. cbv zeta in H. run_inv.
  match type of Hres2 with (if ?c then _ else _) = _ => destruct c end;
    [|discriminate]. run_inv. cbn [sched_T].
  pose proof (block_temperature_number i Hi) as Hnum.
  split.
  - apply nonincreasing_app; [exact Hs | now apply nonincreasing_repeat |].
    intros x y Hx Hy. apply repeat_spec in Hy. subst y.
    rewrite Forall_forall in Hall. now apply Hall.
  - apply Forall_app. split; [exact Hall|].
    apply Forall_forall. intros y Hy. apply repeat_spec in Hy. now subst.
Qed.

Lemma schedule_loop_sorted (n : nat) :
  forall i st st',
    1 <= i -> i + Z.of_nat n <= 28 ->
    for_range n i schedule_step st = Ret st' ->
    nonincreasing (sched_T st) ->
    Forall (fun x => dle (block_temperature i) x = true) (sched_T st) ->
    nonincreasing (sched_T st').
Proof.
  induction n as [|n IH]; intros i st st' Hi Hn H Hs Hall.
  - cbn in H. now run_inv.
  - cbn [for_range] in H. run_inv.
    destruct (schedule_step_sorted i st a ltac:(lia) Hres Hs Hall) as [Hs1 Hall1].
    destruct n as [|n'].
    + cbn in Hres0. now run_inv.
    + apply (IH (i + 1) a st'); try lia; try assumption.
      eapply Forall_impl; [|exact Hall1].
      intros x Hx. cbv beta in *.
      eapply dle_trans; [|exact Hx].
      apply dlt_dle, block_temperature_decreasing. lia.
Qed.

(** Whatever [exp] is, the temperatures of the schedule never increase. *)
Lemma cooling_schedule_nonincreasing T :
  cooling_schedule = Ret T -> nonincreasing T.
Proof.
  unfold cooling_schedule. intros H. run_inv.
  eapply (schedule_loop_sorted 27 1); try eassumption; try lia.
  - constructor.
  - constructor.
Qed.

End Schedule.

(** The schedule depends on [exp] at the 27 arguments [0.25 * k] only. *)
Lemma cooling_schedule_ext (M1 M2 : MathLib) :
  (forall k, 2 <= k <= 28 ->
     @exp M1 (dmul d0_25 (d_of_int k)) = @exp M2 (dmul d0_25 (d_of_int k))) ->
  @cooling_schedule M1 = @cooling_schedule M2.
Proof.
  intros H. unfold cooling_schedule. f_equal.
  apply for_range_ext. intros j s Hj. unfold schedule_step.
  rewrite (H (j + 1)) by lia. reflexivity.
Qed.

Lemma same_double_eq x y : same_double x y = true -> x = y.
Proof.
  destruct x as [a|a| |a m e], y as [b|b| |b m' e']; simpl; try discriminate;
    try reflexivity.
  - intros H. apply eqb_prop in H. now subst.
  - intros H. apply eqb_prop in H. now subst.
  - intros H. apply andb_true_iff in H. destruct H as [H He].
    apply andb_true_iff in H. destruct H as [Hs Hm].
    apply eqb_prop in Hs. apply Pos.eqb_eq in Hm. apply Z.eqb_eq in He.
    now subst.
Qed.

(** The reference [exp] returns glibc's values at the 27 arguments. *)
Lemma ref_exp_agrees_glibc k :
  2 <= k <= 28 ->
  RefMath.ref_exp (dmul d0_25 (d_of_int k)) = glibc_exp_quarter k.
Proof.
  intros Hk. apply same_double_eq.
  apply (in_range_cases
           (fun k => same_double (RefMath.ref_exp (dmul d0_25 (d_of_int k)))
                                 (glibc_exp_quarter k)) 2 27);
    [vm_compute; reflexivity | lia].
Qed.

Section ScheduleBlocks.
Context {M : MathLib}.
Hypothesis Hexp :
  forall k, 2 <= k <= 28 -> exp (dmul d0_25 (d_of_int k)) = glibc_exp_quarter k.

Lemma schedule_tmp_glibc i : (i <= 27)%nat -> schedule_tmp i = glibc_tmp i.
Proof.
  induction i as [|i IH]; intros Hi; [reflexivity|].
  cbn [schedule_tmp glibc_tmp]. rewrite IH by lia. rewrite Hexp by lia. reflexivity.
Qed.

Lemma block_length_glibc i :
  (i <= 27)%nat -> block_length i = glibc_block_length i.
Proof.
  intros Hi. unfold block_length, glibc_block_length.
  rewrite !schedule_tmp_glibc by lia. reflexivity.
Qed.

Lemma schedule_blocks_glibc : schedule_blocks = glibc_schedule.
Proof.
  transitivity
    (flat_map (fun i => repeat (block_temperature (Z.of_nat i)) (glibc_block_length i))
              (seq 1 27)).
  - unfold schedule_blocks. rewrite !flat_map_concat_map. f_equal.
    apply map_ext_in. intros i Hi. apply in_seq in Hi.
    rewrite block_length_glibc by lia. reflexivity.
  - vm_compute. reflexivity.
Qed.

Lemma block_lengths_glibc : map block_length (seq 1 27) = glibc_block_sizes.
Proof.
  transitivity (map glibc_block_length (seq 1 27)).
  - apply map_ext_in. intros i Hi. apply in_seq in Hi.
    apply block_length_glibc. lia.
  - vm_compute. reflexivity.
Qed.

End ScheduleBlocks.

(** C2, as it holds. With an [exp] that returns glibc's values at the 27
    arguments [0.25 * k], the schedule is the blocks [i = 1 .. 27] one after
    the other, block [i] being the temperature [1 / (i + 1)] repeated
    [floor(tmp[i]) - floor(tmp[i-1])] times: 1, 2, 3, 3, 5, ... 1096 times.
    It has 4951 timepoints, which fit the 100000 entries of [T]; the
    temperatures never increase, and the first is [1/2]. *)
Theorem cooling_schedule_shape :
  forall M : MathLib,
    (forall k, 2 <= k <= 28 ->
       exp (dmul d0_25 (d_of_int k)) = glibc_exp_quarter k) ->
    exists T,
      cooling_schedule = Ret T /\
      T = schedule_blocks /\
      map block_length (seq 1 27) = glibc_block_sizes /\
      length T = 4951%nat /\
      nonincreasing T /\
      nth_error T 0 = Some d0_5.
Proof.
  intros M Hexp. exists glibc_schedule.
  assert (H : @cooling_schedule M = Ret glibc_schedule).
  { rewrite (cooling_schedule_ext M RefMath.lib).
    - vm_compute. reflexivity.
    - intros k Hk. rewrite Hexp by exact Hk.
      symmetry. apply ref_exp_agrees_glibc. exact Hk. }
  split; [exact H|].
  split; [symmetry; apply schedule_blocks_glibc; exact Hexp|].
  split; [apply block_lengths_glibc; exact Hexp|].
  split; [vm_compute; reflexivity|].
  split; [apply (cooling_schedule_nonincreasing _ H)|].
  vm_compute. reflexivity.
Qed.


(** ** NaN in the log prior *)

Lemma silent_bind {A B} (c : prog A) (k : A -> prog B) :
  silent c -> (forall a, silent (k a)) -> silent (pbind c k).
Proof.
  intros Hc Hk g b g' H. apply pbind_ret in H. destruct H as (a & g1 & H1 & H2).
  rewrite (Hk a _ _ _ H2). exact (Hc _ _ _ H1).
Qed.

Lemma silent_pret {A} (a : A) : silent (pret a).
Proof. intros g b g' H. apply pret_ret in H. now destruct H as [_ ->]. Qed.

Lemma silent_pfail {A} e : silent (@pfail A e).
Proof. intros g b g' H. discriminate H. Qed.

Lemma silent_lift {A} (r : res A) : silent (lift r).
Proof. intros g b g' H. apply lift_ret in H. now destruct H as [_ ->]. Qed.

Lemma silent_rand : silent rand.
Proof. intros g b g' H. rewrite rand_run in H. now inversion H. Qed.

Lemma silent_with_rng {A} (f : rng_state -> res (A * rng_state)) : silent (with_rng f).
Proof.
  intros g b g' H. unfold with_rng in H.
  destruct (f (rng g)) as [[a s]|e]; inversion H. reflexivity.
Qed.

Lemma silent_get {A} (f : globals -> A) : silent (get f).
Proof. intros g b g' H. unfold get in H. now inversion H. Qed.

Lemma silent_set_moves (f : globals -> Z * Z * Z) :
  silent (modify (fun g => let '(a, d, s) := f g in set_moves a d s g)).
Proof.
  intros g b g' H. unfold modify in H. inversion H.
  destruct (f g) as [[a d] s]. reflexivity.
Qed.

Create HintDb silent.
#[global] Hint Resolve silent_pret silent_pfail silent_lift silent_rand
  silent_with_rng silent_get : silent.

Ltac silent_tac :=
  repeat first
    [ apply silent_bind; [|intros ?]
    | solve [auto with silent]
    | match goal with
      | |- silent (if ?c then _ else _) => destruct c
      | |- silent (match ?x with _ => _ end) => destruct x
      | |- silent (let '(_, _) := ?x in _) => destruct x
      end ].

Section NumericFailure.
Context {M : MathLib} {L : RuleLib}.

Lemma silent_draw_other fuel n index1 : silent (draw_other fuel n index1).
Proof. induction fuel as [|fuel IH]; cbn [draw_other]; silent_tac. Qed.

Lemma silent_ruleset_proposal fuel rs nrules : silent (ruleset_proposal fuel rs nrules).
Proof.
  unfold ruleset_proposal. cbv zeta. silent_tac; apply silent_draw_other.
Qed.

Lemma silent_bump c : c = bump_add \/ c = bump_delete \/ c = bump_swap -> silent c.
Proof.
  intros [-> | [-> | ->]]; intros g b g' H; unfold bump_add, bump_delete, bump_swap,
    modify in H; inversion H; reflexivity.
Qed.

Lemma silent_init_pmf nrules params : silent (init_pmf nrules params).
Proof.
  intros g b g' H. unfold init_pmf in H.
  destruct (log_lambda_pmf g); inversion H; reflexivity.
Qed.

Lemma warn_if_run b m g :
  warn_if b m g =
  Ret (tt, if b then {| rng := rng g; log_lambda_pmf := log_lambda_pmf g;
                        log_eta_pmf := log_eta_pmf g; eta_norm := eta_norm g;
                        n_add := n_add g; n_delete := n_delete g;
                        n_swap := n_swap g; printed := m :: printed g |}
           else g).
Proof. destruct b; reflexivity. Qed.

(** One turn of the prior loop: a NaN log prior stays NaN, and a message
    is printed only when the log prior is NaN after the turn. *)
Lemma prior_step_nan rs rules lep l4b i st g st' g' :
  prior_step rs rules lep l4b i st g = Ret (st', g') ->
  (is_nan (log_prior st) = true -> is_nan (log_prior st') = true) /\
  (printed g' = printed g \/ is_nan (log_prior st') = true).
Proof.
  unfold prior_step. cbv zeta. intros H.
  apply pbind_ret in H. destruct H as (e & g1 & H1 & H).
  apply lift_ret in H1. destruct H1 as [He ->].
  apply pbind_ret in H. destruct H as (r & g1 & H1 & H).
  apply lift_ret in H1. destruct H1 as [Hr ->].
  apply pbind_ret in H. destruct H as (u1 & g1 & H1 & H).
  rewrite warn_if_run in H1. injection H1 as _ <-.
  apply pbind_ret in H. destruct H as (le & g2 & H2 & H).
  apply lift_ret in H2. destruct H2 as [Hle ->].
  apply pbind_ret in H. destruct H as (u2 & g3 & H3 & H).
  rewrite warn_if_run in H3. injection H3 as _ <-.
  apply pbind_ret in H. destruct H as (cc & g4 & H4 & H).
  apply lift_ret in H4. destruct H4 as [Hcc ->].
  apply pbind_ret in H. destruct H as (u3 & g5 & H5 & H).
  rewrite warn_if_run in H5. injection H5 as _ <-.
  apply pbind_ret in H. destruct H as (cc' & g6 & H6 & H).
  apply lift_ret in H6. destruct H6 as [Hcc' ->].
  apply pret_ret in H. destruct H as [-> ->]. cbn [log_prior].
  rewrite !dne_self.
  set (lnc := log (norm_constant st)) in *.
  set (lp1 := dadd (log_prior st) (dsub le lnc)) in *.
  set (lp2 := dadd lp1 (dneg (log (d_of_int cc)))) in *.
  assert (N1 : is_nan lp1 = true -> is_nan lp2 = true).
  { intros N. apply is_nan_eq in N. unfold lp2. rewrite N. reflexivity. }
  assert (N0 : is_nan lnc = true -> is_nan lp1 = true).
  { intros N. apply is_nan_eq in N. unfold lp1. rewrite N.
    rewrite dsub_nan_r, dadd_nan_r. reflexivity. }
  split.
  - intros N. apply N1. apply is_nan_eq in N. unfold lp1. rewrite N. reflexivity.
  - destruct (is_nan lp2) eqn:E2; [now right|left].
    destruct (is_nan lp1) eqn:E1; [specialize (N1 eq_refl); congruence|].
    destruct (is_nan lnc) eqn:E0; [specialize (N0 eq_refl); congruence|].
    reflexivity.
Qed.

Lemma prior_loop_nan rs rules lep l4b (n : nat) :
  forall i st g st' g',
    pfor_range n i (prior_step rs rules lep l4b) st g = Ret (st', g') ->
    (is_nan (log_prior st) = true -> is_nan (log_prior st') = true) /\
    (printed g' = printed g \/ is_nan (log_prior st') = true).
Proof.
  induction n as [|n IH]; intros i st g st' g' H.
  - cbn in H. apply pret_ret in H. destruct H as [-> ->]. auto.
  - cbn [pfor_range] in H. apply pbind_ret in H. destruct H as (s1 & g1 & H1 & H2).
    destruct (prior_step_nan _ _ _ _ _ _ _ _ _ H1) as [Ha Hb].
    destruct (IH _ _ _ _ _ H2) as [Hc Hd].
    split; [auto|].
    destruct Hd as [Hd | Hd]; [|now right].
    destruct Hb as [Hb | Hb]; [left; congruence | right; auto].
Qed.

(** When [compute_log_posterior] prints one of its NaN messages, the log
    posterior it returns is NaN. *)
Lemma compute_log_posterior_nan rs rules nrules labels params ifPrint l4b g lp pb g' :
  compute_log_posterior rs rules nrules labels params ifPrint l4b g
  = Ret ((lp, pb), g') ->
  printed g' = printed g \/ is_nan lp = true.
Proof.
  unfold compute_log_posterior. intros H.
  apply pbind_ret in H. destruct H as (u & g1 & H1 & H).
  apply silent_init_pmf in H1.
  apply pbind_ret in H. destruct H as (cc & g2 & H2 & H).
  apply lift_ret in H2. destruct H2 as [_ ->].
  apply pbind_ret in H. destruct H as (en & g2 & H2 & H).
  apply silent_get in H2.
  apply pbind_ret in H. destruct H as (llp & g3 & H3 & H).
  assert (S3 : printed g3 = printed g2).
  { revert H3. apply silent_bind; [apply silent_get | intros; apply silent_lift]. }
  apply pbind_ret in H. destruct H as (lep & g4 & H4 & H).
  assert (S4 : printed g4 = printed g3).
  { revert H4. apply silent_bind; [apply silent_get | intros; apply silent_lift]. }
  apply pbind_ret in H. destruct H as (lm & g5 & H5 & H).
  apply lift_ret in H5. destruct H5 as [_ ->].
  apply pbind_ret in H. destruct H as (pl & g5 & H5 & H).
  apply lift_ret in H5. destruct H5 as [_ ->].
  apply pbind_ret in H. destruct H as (pr & g5 & H5 & H).
  apply prior_loop_nan in H5. destruct H5 as [_ H5].
  apply pbind_ret in H. destruct H as (l0 & g6 & H6 & H).
  apply lift_ret in H6. destruct H6 as [_ ->].
  apply pbind_ret in H. destruct H as (l1 & g6 & H6 & H).
  apply lift_ret in H6. destruct H6 as [_ ->].
  apply pbind_ret in H. destruct H as (lk & g6 & H6 & H).
  apply lift_ret in H6. destruct H6 as [_ ->].
  apply pret_ret in H. destruct H as [H ->]. injection H as -> ->.
  destruct H5 as [H5 | H5]; [left; congruence|right].
  apply is_nan_eq in H5. rewrite H5. reflexivity.
Qed.

End NumericFailure.

Section NumericFailurePropose.
Context {M : MathLib} {L : RuleLib}.

Lemma propose_eval_nan fuel rs rules labels nrules params g ev g1 :
  propose_eval fuel rs rules labels nrules params g = Ret (ev, g1) ->
  printed g1 = printed g \/ is_nan (new_log_post ev) = true.
Proof.
  unfold propose_eval. intros H.
  apply pbind_ret in H. destruct H as (rs_copy & g2 & H2 & H).
  apply silent_lift in H2.
  apply pbind_ret in H. destruct H as (p & g3 & H3 & H).
  apply silent_ruleset_proposal in H3.
  apply pbind_ret in H. destruct H as ([rs' change_ndx] & g4 & H4 & H).
  assert (S4 : printed g4 = printed g3).
  { revert H4. destruct (stepchar p); silent_tac;
      apply silent_bump; auto. }
  cbv zeta in H.
  apply pbind_ret in H. destruct H as ([nlp pb] & g5 & H5 & H).
  apply compute_log_posterior_nan in H5.
  apply pret_ret in H. destruct H as [-> ->]. cbn [new_log_post].
  destruct H5 as [H5 | H5]; [left; congruence | now right].
Qed.

(** Both predicates answer no to a NaN log posterior, and print nothing. *)
Lemma mcmc_accepts_nan old pb mx extra g :
  exists g', mcmc_accepts nan old pb mx extra g = Ret (false, g') /\
             printed g' = printed g.
Proof.
  unfold mcmc_accepts. destruct (dgt pb mx).
  - unfold pbind, random. rewrite rand_run. unfold pret.
    exists (advance g). split; [|reflexivity].
    change (dsub nan old) with nan. rewrite dadd_nan_l, dlt_nan_r. reflexivity.
  - exists g. split; reflexivity.
Qed.

Lemma sa_accepts_nan old pb mx extra g :
  exists g', sa_accepts nan old pb mx extra g = Ret (false, g') /\
             printed g' = printed g.
Proof.
  unfold sa_accepts. destruct (dgt pb mx).
  - change (dgt nan old) with (dlt old nan). rewrite (dlt_nan_r old).
    unfold pbind, random. rewrite rand_run. unfold pret.
    exists (advance g). split; [|reflexivity].
    change (dsub nan old) with nan. rewrite ddiv_nan_l, dlt_nan_r. reflexivity.
  - exists g. split; reflexivity.
Qed.

(** C3, as it holds. When [compute_log_posterior] prints a NaN message
    while [propose] evaluates a proposal, the log posterior of the proposal
    is NaN and [propose] rejects it, with [mcmc_accepts] and with
    [sa_accepts]: the old rule list is returned and [*ret_log_post] stays.
    The reject counter moves exactly when [prefix_bound < max_log_post], as
    for every proposal, and nothing else records the event. *)
Theorem nan_proposal_rejected :
  forall fuel rs rules labels nrules old mx cnt0 extra params g ev g1 accept_func,
    propose_eval fuel rs rules labels nrules params g = Ret (ev, g1) ->
    printed g1 <> printed g ->
    accept_func = mcmc_accepts \/ accept_func = sa_accepts ->
    is_nan (new_log_post ev) = true /\
    exists g2,
      propose fuel rs rules labels nrules old mx cnt0 extra params accept_func g =
      Ret ({| rs_ret := rs; jump_prob_out := ev_jump_prob ev;
              ret_log_post := old;
              cnt := if dlt (prefix_bound ev) mx then cnt0 + 1 else cnt0 |}, g2) /\
      printed g2 = printed g1.
Proof.
  intros fuel rs rules labels nrules old mx cnt0 extra params g ev g1 acc He Hp Hacc.
  assert (Hnan : is_nan (new_log_post ev) = true).
  { destruct (propose_eval_nan _ _ _ _ _ _ _ _ _ He) as [E | E];
      [congruence | exact E]. }
  split; [exact Hnan|].
  unfold propose. rewrite (pbind_run _ _ _ _ _ He). unfold propose_decide.
  apply is_nan_eq in Hnan. rewrite Hnan.
  destruct Hacc as [-> | ->].
  - destruct (mcmc_accepts_nan old (prefix_bound ev) mx
                (read_extra extra (ev_jump_prob ev)) g1) as (g2 & Hrun & Hpr).
    exists g2. rewrite (pbind_run _ _ _ _ _ Hrun). split; [reflexivity|exact Hpr].
  - destruct (sa_accepts_nan old (prefix_bound ev) mx
                (read_extra extra (ev_jump_prob ev)) g1) as (g2 & Hrun & Hpr).
    exists g2. rewrite (pbind_run _ _ _ _ _ Hrun). split; [reflexivity|exact Hpr].
Qed.

End NumericFailurePropose.

(** ** The chains of [train] *)

Section TrainChains.
Context {M : MathLib} {L : RuleLib}.

(** A chain that returns was started with a [v_star] above [-1e10]: else
    the initial loop is skipped and [rs] is still [NULL]. *)
Lemma run_mcmc_v_star fuel its init_size nsamples nrules rules labels params v_star g rs g' :
  run_mcmc fuel its init_size nsamples nrules rules labels params v_star g
  = Ret (rs, g') ->
  dlt d_m1e10 v_star = true.
Proof.
  unfold run_mcmc, mcmc_start. intros H.
  apply pbind_ret in H. destruct H as (st0 & g1 & H1 & _).
  apply pbind_ret in H1. destruct H1 as (u & g2 & _ & H1).
  apply pbind_ret in H1. destruct H1 as ([rs0 lp] & g3 & H3 & H1).
  destruct (dlt d_m1e10 v_star) eqn:E; [reflexivity|].
  exfalso. destruct fuel; cbn [mcmc_init] in H3; rewrite E in H3;
    apply pret_ret in H3; destruct H3 as [H3 ->]; injection H3 as -> ->;
    cbv zeta in H1; apply pbind_ret in H1; destruct H1 as (x & g4 & H4 & _);
    discriminate H4.
Qed.

Section Trace.
Variables (fuel : nat) (train_data : data_t) (params : params_t).

Lemma scored_chain_v_star v_star g x g' :
  scored_chain fuel train_data params v_star g = Ret (x, g') ->
  dlt d_m1e10 v_star = true.
Proof.
  unfold scored_chain. intros H.
  apply pbind_ret in H. destruct H as (rs & g1 & H1 & _).
  exact (run_mcmc_v_star _ _ _ _ _ _ _ _ _ _ _ _ H1).
Qed.

(** One turn of the loop of [train] is one scored chain and the choice. *)
Lemma train_chain_scored chain b g b' g' :
  train_chain fuel train_data params chain b g = Ret (b', g') <->
  exists rs pos,
    scored_chain fuel train_data params (max_pos b) g = Ret ((rs, pos), g') /\
    b' = if dge pos (max_pos b)
         then {| best_rs := rs; max_pos := pos;
                 destroyed := (best_rs b, max_pos b) :: destroyed b |}
         else {| best_rs := best_rs b; max_pos := max_pos b;
                 destroyed := (rs, pos) :: destroyed b |}.
Proof.
  unfold train_chain, scored_chain, pbind.
  destruct (run_mcmc _ _ _ _ _ _ _ _ _ g) as [[rs g1]|e].
  - destruct (compute_log_posterior rs _ _ _ _ _ _ g1) as [[[pos pb] g2]|e].
    + cbv zeta. unfold pret. split.
      * intros H. exists rs, pos.
        destruct (dge pos (max_pos b)); injection H as <- <-; auto.
      * intros (rs' & pos' & H & ->). injection H as <- <- <-.
        destruct (dge pos (max_pos b)); reflexivity.
    + split; [discriminate|]. intros (? & ? & H & _). discriminate H.
  - split; [discriminate|]. intros (? & ? & H & _). discriminate H.
Qed.

Lemma chains_ran_length g l k g1 :
  chains_ran fuel train_data params g l k g1 -> (k < length l)%nat.
Proof.
  induction 1 as [|l k g1 rs_k pos_k rs pos g2 _ IH _ _]; [simpl; lia|].
  rewrite length_app. simpl. destruct (dge pos pos_k); lia.
Qed.

(** With two chains and more, the score held is a number above [-1e10]:
    a chain was started from it, or it is at least such a score. *)
Lemma chains_ran_number g l k g1 :
  chains_ran fuel train_data params g l k g1 ->
  (2 <= length l)%nat ->
  exists rs pos, nth_error l k = Some (rs, pos) /\ dlt d_m1e10 pos = true.
Proof.
  induction 1 as [|l k g1 rs_k pos_k rs pos g2 Hr _ Hk Hs]; [simpl; lia|].
  intros _. pose proof (chains_ran_length _ _ _ _ Hr) as Hlt.
  pose proof (scored_chain_v_star _ _ _ _ Hs) as Hv.
  destruct (dge pos pos_k) eqn:E.
  - exists rs, pos. split.
    + rewrite nth_error_app2 by lia. rewrite Nat.sub_diag. reflexivity.
    + unfold dge in E. eapply dlt_dle_trans; eassumption.
  - exists rs_k, pos_k. split; [|exact Hv].
    rewrite nth_error_app1 by exact Hlt. exact Hk.
Qed.

Lemma best_at_next l k rs_k pos_k rs pos :
  (k < length l)%nat ->
  nth_error l k = Some (rs_k, pos_k) ->
  is_nan pos_k = false ->
  best_at l k pos_k ->
  best_at (l ++ [(rs, pos)]) (if dge pos pos_k then length l else k)
          (if dge pos pos_k then pos else pos_k).
Proof.
  intros Hlt Hk Hn Hb j rs_j pos_j Hj Hnth.
  assert (Hjl : (j < length (l ++ [(rs, pos)]))%nat)
    by (apply nth_error_Some; congruence).
  rewrite length_app in Hjl. simpl in Hjl.
  destruct (dge pos pos_k) eqn:E.
  - rewrite nth_error_app1 in Hnth by lia.
    assert (Hge : dge pos pos_j = true \/ is_nan pos_j = true).
    { destruct (Nat.eq_dec j k) as [-> | Hne].
      - rewrite Hk in Hnth. injection Hnth as <- <-. now left.
      - destruct (proj1 (Hb j rs_j pos_j Hne Hnth)) as [Hge | Hnan]; [left|now right].
        unfold dge in *. eapply dle_trans; eassumption. }
    split; [exact Hge|].
    destruct Hge as [Hge | Hnan].
    + unfold dge in Hge. now apply dle_not_dlt.
    + apply is_nan_eq in Hnan. rewrite Hnan. apply dlt_nan_r.
  - destruct (Nat.eq_dec j (length l)) as [-> | Hne].
    + rewrite nth_error_app2 in Hnth by lia. rewrite Nat.sub_diag in Hnth.
      injection Hnth as <- <-.
      destruct (is_nan pos) eqn:N.
      * split; [now right|]. apply is_nan_eq in N. rewrite N. apply dlt_nan_r.
      * destruct (dlt_or_dle pos pos_k N Hn) as [Hl | Hle].
        -- split; [left; unfold dge; now apply dlt_dle|]. now apply dlt_asym.
        -- unfold dge in E. unfold dle in Hle. congruence.
    + rewrite nth_error_app1 in Hnth by lia. exact (Hb j rs_j pos_j Hj Hnth).
Qed.

Lemma chains_ran_best g l k g1 :
  chains_ran fuel train_data params g l k g1 ->
  exists rs pos, nth_error l k = Some (rs, pos) /\ best_at l k pos.
Proof.
  induction 1 as [rs pos g1 _|l k g1 rs_k pos_k rs pos g2 Hr IH Hk Hs].
  - exists rs, pos. split; [reflexivity|].
    intros j rs_j pos_j Hj Hnth. destruct j as [|j]; [congruence|].
    destruct j; discriminate Hnth.
  - destruct IH as (rs' & pos' & Hk' & Hb). rewrite Hk in Hk'. injection Hk' as <- <-.
    pose proof (chains_ran_length _ _ _ _ Hr) as Hlt.
    pose proof (scored_chain_v_star _ _ _ _ Hs) as Hv.
    apply dlt_not_nan in Hv. destruct Hv as [_ Hn].
    pose proof (best_at_next l k rs_k pos_k rs pos Hlt Hk Hn Hb) as Hb'.
    destruct (dge pos pos_k) eqn:E.
    + exists rs, pos. split; [|exact Hb'].
      rewrite nth_error_app2 by lia. rewrite Nat.sub_diag. reflexivity.
    + exists rs_k, pos_k. split; [|exact Hb'].
      rewrite nth_error_app1 by exact Hlt. exact Hk.
Qed.

Lemma holds_next b l k rs pos :
  (k < length l)%nat ->
  holds b l k ->
  holds (if dge pos (max_pos b)
         then {| best_rs := rs; max_pos := pos;
                 destroyed := (best_rs b, max_pos b) :: destroyed b |}
         else {| best_rs := best_rs b; max_pos := max_pos b;
                 destroyed := (rs, pos) :: destroyed b |})
        (l ++ [(rs, pos)])
        (if dge pos (max_pos b) then length l else k).
Proof.
  intros Hlt [Hk Hd].
  destruct (dge pos (max_pos b)); split; cbn [best_rs max_pos destroyed].
  - rewrite nth_error_app2 by lia. rewrite Nat.sub_diag. reflexivity.
  - intros x. split.
    + intros [<- | Hin].
      * exists k. split; [lia|]. rewrite nth_error_app1 by exact Hlt. exact Hk.
      * apply Hd in Hin. destruct Hin as (j & Hj & Hnth).
        assert (j < length l)%nat by (apply nth_error_Some; congruence).
        exists j. split; [lia|]. rewrite nth_error_app1 by lia. exact Hnth.
    + intros (j & Hj & Hnth).
      assert (Hjl : (j < length (l ++ [(rs, pos)]))%nat)
        by (apply nth_error_Some; congruence).
      rewrite length_app in Hjl. simpl in Hjl.
      rewrite nth_error_app1 in Hnth by lia.
      destruct (Nat.eq_dec j k) as [-> | Hne].
      * left. congruence.
      * right. apply Hd. exists j. auto.
  - rewrite nth_error_app1 by exact Hlt. exact Hk.
  - intros x. split.
    + intros [<- | Hin].
      * exists (length l). split; [lia|].
        rewrite nth_error_app2 by lia. rewrite Nat.sub_diag. reflexivity.
      * apply Hd in Hin. destruct Hin as (j & Hj & Hnth).
        assert (j < length l)%nat by (apply nth_error_Some; congruence).
        exists j. split; [exact Hj|]. rewrite nth_error_app1 by lia. exact Hnth.
    + intros (j & Hj & Hnth).
      assert (Hjl : (j < length (l ++ [(rs, pos)]))%nat)
        by (apply nth_error_Some; congruence).
      rewrite length_app in Hjl. simpl in Hjl.
      destruct (Nat.eq_dec j (length l)) as [-> | Hne].
      * left. rewrite nth_error_app2 in Hnth by lia.
        rewrite Nat.sub_diag in Hnth. injection Hnth as <-. reflexivity.
      * right. apply Hd. exists j. split; [exact Hj|].
        rewrite nth_error_app1 in Hnth by lia. exact Hnth.
Qed.

(** The loop of [train] over the later chains, forwards. *)
Lemma train_loop_ran g (n : nat) :
  forall i b g1 b' g' l k,
    pfor_range n i (train_chain fuel train_data params) b g1 = Ret (b', g') ->
    chains_ran fuel train_data params g l k g1 ->
    holds b l k ->
    exists l' k',
      chains_ran fuel train_data params g l' k' g' /\
      holds b' l' k' /\
      length l' = (n + length l)%nat.
Proof.
  induction n as [|n IH]; intros i b g1 b' g' l k H Hr Hh.
  - cbn in H. apply pret_ret in H. destruct H as [-> ->]. exists l, k. auto.
  - cbn [pfor_range] in H. apply pbind_ret in H. destruct H as (b1 & g2 & H1 & H2).
    apply train_chain_scored in H1. destruct H1 as (rs & pos & Hs & ->).
    pose proof (chains_ran_length _ _ _ _ Hr) as Hlt.
    pose proof (holds_next b l k rs pos Hlt Hh) as Hh1.
    pose proof (ran_next _ _ _ _ l k g1 _ _ rs pos g2 Hr (proj1 Hh) Hs) as Hr1.
    destruct (IH _ _ _ _ _ _ _ H2 Hr1 Hh1) as (l' & k' & Hr' & Hh' & Hlen).
    exists l', k'. split; [exact Hr'|]. split; [exact Hh'|].
    rewrite Hlen, length_app. simpl. lia.
Qed.

(** And backwards: chains that ran are a run of the loop. *)
Lemma ran_train_loop g l k g1 :
  chains_ran fuel train_data params g l k g1 ->
  exists rs0 pos0 g0 b,
    scored_chain fuel train_data params d_m1e9 g = Ret ((rs0, pos0), g0) /\
    pfor_range (length l - 1) 1 (train_chain fuel train_data params)
      {| best_rs := rs0; max_pos := pos0; destroyed := [] |} g0 = Ret (b, g1) /\
    holds b l k.
Proof.
  induction 1 as [rs pos g1 Hs|l k g1 rs_k pos_k rs pos g2 Hr IH Hk Hs].
  - exists rs, pos, g1. eexists. split; [exact Hs|]. split; [reflexivity|].
    split; [reflexivity|]. intros x. split; [intros []|].
    intros (j & Hj & Hnth). destruct j as [|j]; [congruence|].
    destruct j; discriminate Hnth.
  - destruct IH as (rs0 & pos0 & g0 & b & H0 & Hloop & Hh).
    pose proof (chains_ran_length _ _ _ _ Hr) as Hlt.
    destruct Hh as [Hkb Hd]. rewrite Hk in Hkb. injection Hkb as Hrs Hpos.
    exists rs0, pos0, g0.
    eexists. split; [exact H0|]. split.
    + rewrite length_app. simpl.
      replace (length l + 1 - 1)%nat with ((length l - 1) + 1)%nat by lia.
      rewrite pfor_range_add. unfold pbind at 1. rewrite Hloop.
      cbn [pfor_range]. unfold pbind at 1.
      assert (Ht : train_chain fuel train_data params (1 + Z.of_nat (length l - 1)) b g1
                   = Ret (if dge pos (max_pos b)
                          then {| best_rs := rs; max_pos := pos;
                                  destroyed := (best_rs b, max_pos b) :: destroyed b |}
                          else {| best_rs := best_rs b; max_pos := max_pos b;
                                  destroyed := (rs, pos) :: destroyed b |}, g2)).
      { apply train_chain_scored. exists rs, pos. rewrite <- Hpos. auto. }
      rewrite Ht. reflexivity.
    + rewrite Hpos. apply holds_next; [exact Hlt|]. split; [|exact Hd].
      rewrite Hk. congruence.
Qed.

End Trace.

(** C7, as it holds. For [nchain >= 1], [train] returns exactly when
    [nchain] chains, run one after the other, each return a list that can be
    scored, and [get_theta] returns: the first chain starts from
    [v_star = -1e9], a later one from the score of the list held. It returns
    the final list of one chain, at position [k], and has destroyed the
    final lists of the others. The log posterior of the list returned is at
    least that of every other chain's final list whose log posterior is a
    number, and a NaN compares with nothing: no other list has a log
    posterior above the returned one's. With two chains and more the log
    posterior of the list returned is a number above [-1e10]. *)
Theorem train_keeps_best :
  forall fuel train_data initialization method params g,
    1 <= nchain params ->
    (forall pm g',
        train fuel train_data initialization method params g = Ret (pm, g') ->
        exists l k pos b g1,
          chains_ran fuel train_data params g l k g1 /\
          Z.of_nat (length l) = nchain params /\
          nth_error l k = Some (pm_rs pm, pos) /\
          best_at l k pos /\
          (2 <= nchain params -> dlt d_m1e10 pos = true) /\
          train_chains fuel train_data params g = Ret (b, g1) /\
          holds b l k /\
          get_theta (pm_rs pm) (td_rules train_data) (td_labels train_data) params
          = Ret (pm_theta pm) /\
          free_pmf g1 = Ret (tt, g')) /\
    (forall l k g1 rs pos theta,
        chains_ran fuel train_data params g l k g1 ->
        Z.of_nat (length l) = nchain params ->
        nth_error l k = Some (rs, pos) ->
        get_theta rs (td_rules train_data) (td_labels train_data) params = Ret theta ->
        exists g',
          free_pmf g1 = Ret (tt, g') /\
          train fuel train_data initialization method params g
          = Ret ({| pm_rs := rs; pm_theta := theta |}, g')).
Proof.
  intros fuel train_data initialization method params g Hn. split.
  - intros pm g' H. unfold train in H.
    apply pbind_ret in H. destruct H as (b & g1 & H1 & H).
    apply pbind_ret in H. destruct H as (theta & g2 & H2 & H).
    apply lift_ret in H2. destruct H2 as [H2 ->].
    apply pbind_ret in H. destruct H as (u & g3 & H3 & H).
    apply pret_ret in H. destruct H as [-> ->]. destruct u. cbn [pm_rs pm_theta].
    pose proof H1 as Hc. unfold train_chains in Hc.
    apply pbind_ret in Hc. destruct Hc as (rs0 & ga & Ha & Hc).
    apply pbind_ret in Hc. destruct Hc as ([pos0 pb0] & gb & Hb & Hc).
    cbv zeta in Hc.
    assert (Hs : scored_chain fuel train_data params d_m1e9 g = Ret ((rs0, pos0), gb)).
    { unfold scored_chain. unfold pbind at 1. rewrite Ha.
      unfold pbind at 1. rewrite Hb. reflexivity. }
    assert (Hh0 : holds {| best_rs := rs0; max_pos := pos0; destroyed := [] |}
                        [(rs0, pos0)] 0).
    { split; [reflexivity|]. intros x. split; [intros []|].
      intros (j & Hj & Hnth). destruct j as [|j]; [congruence|].
      destruct j; discriminate Hnth. }
    destruct (train_loop_ran _ _ _ g _ _ _ _ _ _ _ _ Hc (ran_first _ _ _ _ _ _ _ Hs) Hh0)
      as (l & k & Hr & Hh & Hlen).
    destruct (chains_ran_best _ _ _ _ _ _ _ Hr) as (rs & pos & Hk & Hbest).
    pose proof (proj1 Hh) as Hk'. rewrite Hk in Hk'. injection Hk' as -> ->.
    exists l, k, (max_pos b), b, g1.
    split; [exact Hr|]. split; [rewrite Hlen; simpl; lia|]. split; [exact Hk|].
    split; [exact Hbest|]. split; [|auto].
    intros H2c. destruct (chains_ran_number _ _ _ _ _ _ _ Hr) as (rs' & pos' & Hk' & Hv).
    + rewrite Hlen. simpl. lia.
    + rewrite Hk in Hk'. injection Hk' as _ <-. exact Hv.
  - intros l k g1 rs pos theta Hr Hlen Hk Ht.
    destruct (ran_train_loop _ _ _ _ _ _ _ Hr) as (rs0 & pos0 & g0 & b & H0 & Hloop & Hh).
    destruct Hh as [Hkb _]. rewrite Hk in Hkb. injection Hkb as Hrs Hpos.
    unfold scored_chain in H0.
    apply pbind_ret in H0. destruct H0 as (r0 & ga & Ha & H0).
    apply pbind_ret in H0. destruct H0 as ([p0 pb0] & gb & Hb & H0).
    cbv zeta in H0. apply pret_ret in H0. destruct H0 as [H0 ->].
    injection H0 as -> ->.
    eexists. split; [reflexivity|]. unfold train. unfold pbind at 1.
    assert (Hc : train_chains fuel train_data params g = Ret (b, g1)).
    { unfold train_chains. unfold pbind at 1. rewrite Ha.
      unfold pbind at 1. rewrite Hb. cbv zeta.
      replace (Z.to_nat (nchain params - 1)) with (length l - 1)%nat by lia.
      exact Hloop. }
    rewrite Hc. unfold pbind at 1. unfold lift. rewrite <- Hrs, Ht.
    unfold pbind, free_pmf, modify, pret. reflexivity.
Qed.

End TrainChains.

(** * Further properties of [train.c] *)

Import FloatDraw.

(** ** Frames *)

Lemma preserves_bind {A B C} (f : globals -> A) (c : prog B) (k : B -> prog C) :
  preserves f c -> (forall b, preserves f (k b)) -> preserves f (pbind c k).
Proof.
  intros Hc Hk g b g' H. apply pbind_ret in H. destruct H as (a & g1 & H1 & H2).
  rewrite (Hk _ _ _ _ H2). exact (Hc _ _ _ H1).
Qed.

Lemma preserves_pret {A B} (f : globals -> A) (b : B) : preserves f (pret b).
Proof. intros g b' g' H. apply pret_ret in H. destruct H as [_ ->]. reflexivity. Qed.

Lemma preserves_pfail {A B} (f : globals -> A) e : preserves f (@pfail B e).
Proof. intros g b g' H. discriminate H. Qed.

Lemma preserves_lift {A B} (f : globals -> A) (r : res B) : preserves f (lift r).
Proof. intros g b g' H. apply lift_ret in H. destruct H as [_ ->]. reflexivity. Qed.

Lemma preserves_get {A B} (f : globals -> A) (h : globals -> B) : preserves f (get h).
Proof. intros g b g' H. injection H as _ <-. reflexivity. Qed.

Lemma preserves_for {A St} (f : globals -> A) (body : Z -> St -> prog St) (n : nat) :
  (forall i s, preserves f (body i s)) ->
  forall i s, preserves f (pfor_range n i body s).
Proof.
  intros Hb. induction n as [|n IH]; intros i s; cbn [pfor_range].
  - apply preserves_pret.
  - apply preserves_bind; [apply Hb | intros; apply IH].
Qed.

(** What the primitives leave as it is. *)
Lemma rand_tables : preserves tables_of rand.
Proof. intros g b g' H. rewrite rand_run in H. injection H as _ <-. reflexivity. Qed.

Lemma rand_moves : preserves moves_of rand.
Proof. intros g b g' H. rewrite rand_run in H. injection H as _ <-. reflexivity. Qed.

Lemma rand_printed : preserves printed rand.
Proof. intros g b g' H. rewrite rand_run in H. injection H as _ <-. reflexivity. Qed.

Lemma with_rng_tables {A} (h : rng_state -> res (A * rng_state)) :
  preserves tables_of (with_rng h).
Proof.
  intros g b g'. unfold with_rng. destruct (h (rng g)) as [[a s]|e]; [|discriminate].
  intros H. injection H as _ <-. reflexivity.
Qed.

Lemma with_rng_moves {A} (h : rng_state -> res (A * rng_state)) :
  preserves moves_of (with_rng h).
Proof.
  intros g b g'. unfold with_rng. destruct (h (rng g)) as [[a s]|e]; [|discriminate].
  intros H. injection H as _ <-. reflexivity.
Qed.

Lemma warn_if_rng b m : preserves rng (warn_if b m).
Proof. intros g u g' H. rewrite warn_if_run in H. destruct b; injection H as <- <-; reflexivity. Qed.

Lemma warn_if_tables b m : preserves tables_of (warn_if b m).
Proof. intros g u g' H. rewrite warn_if_run in H. destruct b; injection H as <- <-; reflexivity. Qed.

Lemma warn_if_moves b m : preserves moves_of (warn_if b m).
Proof. intros g u g' H. rewrite warn_if_run in H. destruct b; injection H as <- <-; reflexivity. Qed.

Create HintDb frame.
#[global] Hint Resolve preserves_pret preserves_pfail preserves_lift preserves_get
  rand_tables rand_moves rand_printed with_rng_tables with_rng_moves
  warn_if_rng warn_if_tables warn_if_moves : frame.

Ltac frame_tac :=
  repeat first
    [ apply preserves_bind; [|intros ?]
    | solve [auto with frame]
    | match goal with
      | |- preserves _ (if ?c then _ else _) => destruct c
      | |- preserves _ (match ?x with _ => _ end) => destruct x
      | |- preserves _ (let '(_, _) := ?x in _) => destruct x
      end ].

Section Frames.
Context {M : MathLib} {L : RuleLib}.

Lemma prior_step_frame {A} (f : globals -> A) rs rules lep l4b i st :
  (forall b m, preserves f (warn_if b m)) ->
  preserves f (prior_step rs rules lep l4b i st).
Proof. intros Hw. unfold prior_step. frame_tac; apply Hw. Qed.

Lemma init_pmf_rng nrules params : preserves rng (init_pmf nrules params).
Proof.
  intros g u g'. unfold init_pmf. destruct (log_lambda_pmf g); intros H;
    injection H as <- <-; reflexivity.
Qed.

Lemma init_pmf_moves nrules params : preserves moves_of (init_pmf nrules params).
Proof.
  intros g u g'. unfold init_pmf. destruct (log_lambda_pmf g); intros H;
    injection H as <- <-; reflexivity.
Qed.

Lemma compute_log_posterior_rng rs rules nrules labels params ifPrint l4b :
  preserves rng (compute_log_posterior rs rules nrules labels params ifPrint l4b).
Proof.
  unfold compute_log_posterior.
  apply preserves_bind; [apply init_pmf_rng|intros ?].
  frame_tac. apply preserves_for. intros. apply prior_step_frame. apply warn_if_rng.
Qed.

Lemma compute_log_posterior_moves rs rules nrules labels params ifPrint l4b :
  preserves moves_of (compute_log_posterior rs rules nrules labels params ifPrint l4b).
Proof.
  unfold compute_log_posterior.
  apply preserves_bind; [apply init_pmf_moves|intros ?].
  frame_tac. apply preserves_for. intros. apply prior_step_frame. apply warn_if_moves.
Qed.

End Frames.

Section Posterior.
Context {M : MathLib} {L : RuleLib}.

Lemma init_pmf_tables nrules params g u g' :
  init_pmf nrules params g = Ret (u, g') ->
  log_lambda_pmf g' <> None /\
  (log_lambda_pmf g <> None -> g' = g).
Proof.
  unfold init_pmf. destruct (log_lambda_pmf g) as [t|] eqn:E; intros H;
    injection H as <- <-.
  - split; [congruence|reflexivity].
  - split; [discriminate|congruence].
Qed.

Lemma after_init_tables rs rules nrules labels params ifPrint l4b g r g' :
  compute_log_posterior rs rules nrules labels params ifPrint l4b g = Ret (r, g') ->
  exists g1, init_pmf nrules params g = Ret (tt, g1) /\ tables_of g' = tables_of g1.
Proof.
  unfold compute_log_posterior. intros H.
  apply pbind_ret in H. destruct H as ([] & g1 & H1 & H).
  exists g1. split; [exact H1|].
  revert H. generalize g1 r g'. clear.
  change (preserves tables_of
    (cc <~ lift (card_counts rules nrules) ;;
     en <~ get eta_norm ;;
     llp <~ (p <~ get log_lambda_pmf ;; lift (deref p)) ;;
     lep <~ (p <~ get log_eta_pmf ;; lift (deref p)) ;;
     lm <~ lift (zth llp (n_rules rs - 1)) ;;
     pl <~ lift (prefix_lambda_term llp (n_rules rs) (lambda params)) ;;
     pr <~ pfor_range (Z.to_nat (n_rules rs - 1)) 0
             (prior_step rs rules lep l4b)
             {| log_prior := dadd d0 lm; prefix_prior := dadd d0 pl;
                norm_constant := en; card_count := cc |} ;;
     label0 <~ lift (zth labels 0) ;;
     label1 <~ lift (zth labels 1) ;;
     lk <~ lift (for_range (Z.to_nat (n_rules rs)) 0
                   (lik_step rs label0 params l4b)
                   {| log_likelihood := d0; prefix_log_likelihood := d0;
                      left0 := support label0; left1 := support label1 |}) ;;
     pret (dadd (log_prior pr) (log_likelihood lk),
           dadd (prefix_prior pr) (prefix_log_likelihood lk)))).
  frame_tac. apply preserves_for. intros. apply prior_step_frame. apply warn_if_tables.
Qed.

Lemma compute_log_posterior_tables rs rules nrules labels params ifPrint l4b g r g' :
  compute_log_posterior rs rules nrules labels params ifPrint l4b g = Ret (r, g') ->
  log_lambda_pmf g' <> None /\
  (log_lambda_pmf g <> None -> tables_of g' = tables_of g).
Proof.
  intros H. destruct (after_init_tables _ _ _ _ _ _ _ _ _ _ H) as (gi & Hi & Ti).
  destruct (init_pmf_tables _ _ _ _ _ Hi) as [Ni Gi]. split.
  - unfold tables_of in Ti. injection Ti as Ti _ _. congruence.
  - intros N. rewrite (Gi N) in Ti. exact Ti.
Qed.

End Posterior.

Section Bound.
Context {M : MathLib} {L : RuleLib}.

Lemma lift_run {A} (r : res A) g a : r = Ret a -> lift r g = Ret (a, g).
Proof. intros ->. reflexivity. Qed.

Lemma prior_step_l4b rs rules lep l4b l4b' i a b g a' g' :
  prior_step rs rules lep l4b i a g = Ret (a', g') ->
  same_prior a b ->
  exists b', prior_step rs rules lep l4b' i b g = Ret (b', g') /\ same_prior a' b'.
Proof.
  destruct a as [lp pp nc cc], b as [lp2 pp2 nc2 cc2].
  unfold same_prior. cbn [log_prior norm_constant card_count].
  intros H (<- & <- & <-). revert H.
  unfold prior_step. cbn [log_prior norm_constant card_count prefix_prior].
  unfold pbind, lift.
  destruct (zth (rs_rules rs) i) as [e|]; [|discriminate].
  destruct (zth rules (rule_id e)) as [r|]; [|discriminate].
  rewrite !warn_if_run.
  destruct (zth lep (cardinality r)) as [le|]; [|discriminate].
  rewrite !warn_if_run.
  destruct (dne (log nc) (log nc)); cbn [log_lambda_pmf log_eta_pmf eta_norm rng n_add n_delete n_swap printed];
  destruct (zth cc (cardinality r)) as [c|]; try discriminate;
  rewrite !warn_if_run;
  destruct (zset cc (cardinality r) (c - 1)) as [cc'|]; try discriminate;
  unfold pret; intros H; injection H as <- <-;
  eexists; (split; [reflexivity|]); cbn; auto.
Qed.

Lemma prior_loop_l4b rs rules lep l4b l4b' (n : nat) :
  forall i a b g a' g',
    pfor_range n i (prior_step rs rules lep l4b) a g = Ret (a', g') ->
    same_prior a b ->
    exists b', pfor_range n i (prior_step rs rules lep l4b') b g = Ret (b', g') /\
               same_prior a' b'.
Proof.
  induction n as [|n IH]; intros i a b g a' g' H Hs; cbn [pfor_range] in *.
  - apply pret_ret in H. destruct H as [-> ->]. exists b. split; [reflexivity|exact Hs].
  - apply pbind_ret in H. destruct H as (a1 & g1 & H1 & H2).
    destruct (prior_step_l4b _ _ _ _ l4b' _ _ _ _ _ _ H1 Hs) as (b1 & Hb1 & Hs1).
    destruct (IH _ _ _ _ _ _ H2 Hs1) as (b' & Hb' & Hs').
    exists b'. split; [|exact Hs']. rewrite (pbind_run _ _ _ _ _ Hb1). exact Hb'.
Qed.

Lemma lik_step_l4b rs label0 params l4b l4b' j a b a' :
  lik_step rs label0 params l4b j a = Ret a' ->
  same_lik a b ->
  exists b', lik_step rs label0 params l4b' j b = Ret b' /\ same_lik a' b'.
Proof.
  destruct a as [ll pl l0 l1], b as [ll2 pl2 l02 l12].
  unfold same_lik. cbn [log_likelihood left0 left1].
  intros H (<- & <- & <-). revert H. unfold lik_step, rbind.
  destruct (zth (rs_rules rs) j) as [e|]; [|discriminate].
  cbv zeta. cbn [log_likelihood left0 left1 prefix_log_likelihood].
  intros H. injection H as <-. eexists. split; [reflexivity|]. cbn. auto.
Qed.

Lemma lik_loop_l4b rs label0 params l4b l4b' (n : nat) :
  forall j a b a',
    for_range n j (lik_step rs label0 params l4b) a = Ret a' ->
    same_lik a b ->
    exists b', for_range n j (lik_step rs label0 params l4b') b = Ret b' /\
               same_lik a' b'.
Proof.
  induction n as [|n IH]; intros j a b a' H Hs; cbn [for_range] in *.
  - injection H as <-. exists b. split; [reflexivity|exact Hs].
  - apply rbind_ret in H. destruct H as (a1 & H1 & H2).
    destruct (lik_step_l4b _ _ _ _ l4b' _ _ _ _ H1 Hs) as (b1 & Hb1 & Hs1).
    destruct (IH _ _ _ _ H2 Hs1) as (b' & Hb' & Hs').
    exists b'. split; [|exact Hs']. rewrite Hb1. exact Hb'.
Qed.

Lemma posterior_l4b rs rules nrules labels params ifPrint l4b ifPrint' l4b' g lp pb g' :
  compute_log_posterior rs rules nrules labels params ifPrint l4b g
  = Ret ((lp, pb), g') ->
  exists pb',
    compute_log_posterior rs rules nrules labels params ifPrint' l4b' g
    = Ret ((lp, pb'), g').
Proof.
  intros H.
  unfold compute_log_posterior in *.
  apply pbind_ret in H. destruct H as (u & g1 & H1 & H). rewrite (pbind_run _ _ _ _ _ H1).
  apply pbind_ret in H. destruct H as (cc & g2 & H2 & H). rewrite (pbind_run _ _ _ _ _ H2).
  apply pbind_ret in H. destruct H as (en & g3 & H3 & H). rewrite (pbind_run _ _ _ _ _ H3).
  apply pbind_ret in H. destruct H as (llp & g4 & H4 & H). rewrite (pbind_run _ _ _ _ _ H4).
  apply pbind_ret in H. destruct H as (lep & g5 & H5 & H). rewrite (pbind_run _ _ _ _ _ H5).
  apply pbind_ret in H. destruct H as (lm & g6 & H6 & H). rewrite (pbind_run _ _ _ _ _ H6).
  apply pbind_ret in H. destruct H as (pl & g7 & H7 & H). rewrite (pbind_run _ _ _ _ _ H7).
  apply pbind_ret in H. destruct H as (pr & g8 & H8 & H).
  destruct (prior_loop_l4b _ _ _ _ l4b' _ _ _ _ _ _ _ H8 (conj eq_refl (conj eq_refl eq_refl)))
    as (pr' & H8' & Hp & _).
  rewrite (pbind_run _ _ _ _ _ H8').
  apply pbind_ret in H. destruct H as (l0 & g9 & H9 & H). rewrite (pbind_run _ _ _ _ _ H9).
  apply pbind_ret in H. destruct H as (l1 & g10 & H10 & H). rewrite (pbind_run _ _ _ _ _ H10).
  apply pbind_ret in H. destruct H as (lk & g11 & H11 & H).
  apply lift_ret in H11. destruct H11 as [H11 ->].
  destruct (lik_loop_l4b _ _ _ _ l4b' _ _ _ _ _ H11 (conj eq_refl (conj eq_refl eq_refl)))
    as (lk' & H11' & Hl & _).
  rewrite (pbind_run _ _ _ _ _ (lift_run _ g10 _ H11')).
  apply pret_ret in H. destruct H as [H ->]. injection H as Hlp _. subst lp.
  eexists. unfold pret. rewrite <- Hp, <- Hl. reflexivity.
Qed.


(** The log posterior that [compute_log_posterior] returns, the messages
    it prints and the state it leaves do not depend on [length4bound] or on
    [ifPrint], which only enter [*prefix_bound]: a call returns for one
    [length4bound] exactly when it returns for any other, with the same log
    posterior and the same state. *)
Theorem log_posterior_ignores_length4bound :
  forall rs rules nrules labels params ifPrint l4b ifPrint' l4b' g lp g',
    (exists pb,
        compute_log_posterior rs rules nrules labels params ifPrint l4b g
        = Ret ((lp, pb), g')) <->
    (exists pb',
        compute_log_posterior rs rules nrules labels params ifPrint' l4b' g
        = Ret ((lp, pb'), g')).
Proof.
  intros rs rules nrules labels params ifPrint l4b ifPrint' l4b' g lp g'.
  split; intros [pb H].
  - exact (posterior_l4b _ _ _ _ _ _ _ ifPrint' l4b' _ _ _ _ H).
  - exact (posterior_l4b _ _ _ _ _ _ _ ifPrint l4b _ _ _ _ H).
Qed.

End Bound.

Lemma rto_bind {A B} (c : prog A) (k : A -> prog B) :
  reads_tables_only c -> (forall a, reads_tables_only (k a)) ->
  reads_tables_only (pbind c k).
Proof.
  intros Hc Hk g b g' g2 H E. apply pbind_ret in H. destruct H as (a & g1 & H1 & H2).
  destruct (Hc _ _ _ _ H1 E) as (g3 & H3 & E3).
  destruct (Hk _ _ _ _ _ H2 E3) as (g4 & H4 & E4).
  exists g4. split; [|exact E4]. rewrite (pbind_run _ _ _ _ _ H3). exact H4.
Qed.

Lemma rto_pret {A} (a : A) : reads_tables_only (pret a).
Proof.
  intros g b g' g2 H E. apply pret_ret in H. destruct H as [-> ->].
  exists g2. split; [reflexivity|exact E].
Qed.

Lemma rto_lift {A} (r : res A) : reads_tables_only (lift r).
Proof.
  intros g b g' g2 H E. apply lift_ret in H. destruct H as [-> ->].
  exists g2. split; [reflexivity|exact E].
Qed.

Lemma rto_get {A} (f : option (list double) * option (list double) * double -> A) :
  reads_tables_only (get (fun g => f (tables_of g))).
Proof.
  intros g b g' g2 H E. injection H as <- <-.
  exists g2. split; [unfold get; rewrite E; reflexivity|exact E].
Qed.

Lemma rto_warn_if b m : reads_tables_only (warn_if b m).
Proof.
  intros g u g' g2 H E. rewrite warn_if_run in H. rewrite warn_if_run.
  eexists. split; [destruct u; reflexivity|].
  destruct b; injection H as _ <-; [|exact E].
  unfold tables_of in *. cbn. exact E.
Qed.

Lemma rto_for {St} (body : Z -> St -> prog St) (n : nat) :
  (forall i s, reads_tables_only (body i s)) ->
  forall i s, reads_tables_only (pfor_range n i body s).
Proof.
  intros Hb. induction n as [|n IH]; intros i s; cbn [pfor_range].
  - apply rto_pret.
  - apply rto_bind; [apply Hb | intros; apply IH].
Qed.

Section Blind.
Context {M : MathLib} {L : RuleLib}.

Lemma rto_init_pmf nrules params : reads_tables_only (init_pmf nrules params).
Proof.
  intros g u g' g2 H E. unfold init_pmf in *.
  assert (E1 : log_lambda_pmf g2 = log_lambda_pmf g) by (unfold tables_of in E; congruence).
  rewrite E1. destruct (log_lambda_pmf g); injection H as <- <-.
  - exists g2. split; [reflexivity|exact E].
  - eexists. split; [reflexivity|]. reflexivity.
Qed.

Lemma rto_prior_step rs rules lep l4b i st :
  reads_tables_only (prior_step rs rules lep l4b i st).
Proof.
  unfold prior_step.
  repeat first [ apply rto_bind; [|intros ?] | apply rto_lift | apply rto_warn_if
               | apply rto_pret ].
Qed.

Lemma rto_compute_log_posterior rs rules nrules labels params ifPrint l4b :
  reads_tables_only (compute_log_posterior rs rules nrules labels params ifPrint l4b).
Proof.
  unfold compute_log_posterior.
  apply rto_bind; [apply rto_init_pmf|intros ?].
  apply rto_bind; [apply rto_lift|intros ?].
  apply rto_bind; [apply (rto_get (fun t => snd t))|intros ?].
  apply rto_bind;
    [apply rto_bind; [apply (rto_get (fun t => fst (fst t)))|intros; apply rto_lift]|intros ?].
  apply rto_bind;
    [apply rto_bind; [apply (rto_get (fun t => snd (fst t)))|intros; apply rto_lift]|intros ?].
  repeat first [ apply rto_bind; [|intros ?] | apply rto_lift | apply rto_pret
               | apply rto_for; intros; apply rto_prior_step ].
Qed.

End Blind.

Section ProposeFrames.
Context {M : MathLib} {L : RuleLib}.

Lemma draw_other_frame {A} (f : globals -> A) fuel n index1 :
  preserves f rand -> preserves f (draw_other fuel n index1).
Proof.
  intros Hr. induction fuel as [|fuel IH]; cbn [draw_other]; frame_tac; auto.
Qed.

Lemma ruleset_proposal_tables fuel rs nrules :
  preserves tables_of (ruleset_proposal fuel rs nrules).
Proof.
  unfold ruleset_proposal. frame_tac. apply draw_other_frame, rand_tables.
Qed.

Lemma ruleset_proposal_moves fuel rs nrules :
  preserves moves_of (ruleset_proposal fuel rs nrules).
Proof.
  unfold ruleset_proposal. frame_tac. apply draw_other_frame, rand_moves.
Qed.

Lemma mcmc_accepts_tables n o pb mx extra : preserves tables_of (mcmc_accepts n o pb mx extra).
Proof. unfold mcmc_accepts, random. frame_tac. Qed.

Lemma mcmc_accepts_moves n o pb mx extra : preserves moves_of (mcmc_accepts n o pb mx extra).
Proof. unfold mcmc_accepts, random. frame_tac. Qed.


Lemma sa_accepts_moves n o pb mx extra : preserves moves_of (sa_accepts n o pb mx extra).
Proof. unfold sa_accepts, random. frame_tac. Qed.

(** What [propose] does before it decides: one move is counted, and the
    proposal is scored by [compute_log_posterior] on tables that, once
    built, stay as they are. *)
Lemma propose_eval_inv fuel rs rules labels nrules params g ev g1 :
  propose_eval fuel rs rules labels nrules params g = Ret (ev, g1) ->
  moves g1 = moves g + 1 /\
  0 <= n_add g1 - n_add g /\ 0 <= n_delete g1 - n_delete g /\
  0 <= n_swap g1 - n_swap g /\
  log_lambda_pmf g1 <> None /\
  (log_lambda_pmf g <> None -> tables_of g1 = tables_of g) /\
  exists g0 l4b,
    compute_log_posterior (rs_new ev) rules nrules labels params 0 l4b g0
    = Ret ((new_log_post ev, prefix_bound ev), g1).
Proof.
  unfold propose_eval. intros H.
  apply pbind_ret in H. destruct H as (rs_copy & g2 & H2 & H).
  apply lift_ret in H2. destruct H2 as [_ ->].
  apply pbind_ret in H. destruct H as (p & g3 & H3 & H).
  pose proof (ruleset_proposal_tables _ _ _ _ _ _ H3) as T3.
  pose proof (ruleset_proposal_moves _ _ _ _ _ _ H3) as M3.
  apply pbind_ret in H. destruct H as ([rs' change_ndx] & g4 & H4 & H).
  cbv zeta in H.
  apply pbind_ret in H. destruct H as ([nlp pb] & g5 & H5 & H).
  apply pret_ret in H. destruct H as [-> ->].
  cbn [rs_new new_log_post prefix_bound].
  pose proof (compute_log_posterior_moves _ _ _ _ _ _ _ _ _ _ H5) as M5.
  destruct (after_init_tables _ _ _ _ _ _ _ _ _ _ H5) as (gi & Hi & T5).
  destruct (init_pmf_tables _ _ _ _ _ Hi) as [Ni Ti].
  assert (T4 : tables_of g4 = tables_of g3 /\
               n_add g4 + n_delete g4 + n_swap g4 = n_add g3 + n_delete g3 + n_swap g3 + 1 /\
               0 <= n_add g4 - n_add g3 /\ 0 <= n_delete g4 - n_delete g3 /\
               0 <= n_swap g4 - n_swap g3).
  { destruct (stepchar p);
      apply pbind_ret in H4; destruct H4 as (r & g6 & H6 & H4);
      apply lift_ret in H6; destruct H6 as [_ ->];
      apply pbind_ret in H4; destruct H4 as (u & g7 & H7 & H4);
      injection H7 as _ <-; apply pret_ret in H4; destruct H4 as [_ ->];
      cbn; repeat split; lia. }
  destruct T4 as (T4 & M4 & A4 & D4 & S4).
  unfold moves_of in M3, M5. injection M3 as M3a M3d M3s. injection M5 as M5a M5d M5s.
  unfold moves. repeat split; try lia.
  - unfold tables_of in T5. injection T5 as T5 _ _. congruence.
  - intros N. rewrite T5, <- T3, <- T4.
    rewrite Ti; [reflexivity|].
    unfold tables_of in T3, T4. injection T3 as T3 _ _. injection T4 as T4' _ _. congruence.
  - exists g4, change_ndx. exact H5.
Qed.

End ProposeFrames.

Section Coherence.
Context {M : MathLib} {L : RuleLib}.
Variables (rules labels : list rule_t) (nrules : Z) (params : params_t).

Lemma scored_tables g g2 rs lp :
  scored rules labels nrules params g rs lp ->
  tables_of g2 = tables_of g ->
  scored rules labels nrules params g2 rs lp.
Proof.
  intros Hs E ifPrint l4b. destruct (Hs ifPrint l4b) as (pb & g' & H).
  destruct (rto_compute_log_posterior _ _ _ _ _ _ _ _ _ _ _ H E) as (g2' & H2 & _).
  exists pb, g2'. exact H2.
Qed.

(** A log posterior that was computed stays the log posterior of its list
    in every state with the tables the computation left. *)
Lemma scored_after rs ifPrint l4b g lp pb g' g2 :
  compute_log_posterior rs rules nrules labels params ifPrint l4b g
  = Ret ((lp, pb), g') ->
  tables_of g2 = tables_of g' ->
  scored rules labels nrules params g2 rs lp.
Proof.
  intros H E.
  destruct (after_init_tables _ _ _ _ _ _ _ _ _ _ H) as (g1 & H1 & T1).
  destruct (init_pmf_tables _ _ _ _ _ H1) as [N1 _].
  assert (H' : compute_log_posterior rs rules nrules labels params ifPrint l4b g1
               = Ret ((lp, pb), g')).
  { unfold compute_log_posterior in *.
    rewrite (pbind_run _ _ _ _ _ H1) in H.
    assert (Hi : init_pmf nrules params g1 = Ret (tt, g1)).
    { unfold init_pmf. destruct (log_lambda_pmf g1); [reflexivity|congruence]. }
    rewrite (pbind_run _ _ _ _ _ Hi). exact H. }
  apply (scored_tables g1); [|congruence].
  intros ifPrint' l4b'.
  destruct (posterior_l4b _ _ _ _ _ _ _ ifPrint' l4b' _ _ _ _ H')
    as (pb' & H2).
  exists pb', g'. exact H2.
Qed.

(** One iteration keeps the variables of the chain in agreement. *)
Lemma chain_step_coherent fuel extra accept_func st g st' g' :
  (forall n o pb mx e, preserves tables_of (accept_func n o pb mx e)) ->
  chain_step fuel rules labels nrules params extra accept_func st g = Ret (st', g') ->
  chain_coherent rules labels nrules params st g ->
  chain_coherent rules labels nrules params st' g'.
Proof.
  intros Hacc H (N & Hcur & Hle & rs_b & Hb & Hids & Hlen).
  unfold chain_step in H.
  apply pbind_ret in H. destruct H as (p & g1 & H1 & H).
  unfold propose in H1.
  apply pbind_ret in H1. destruct H1 as (ev & g2 & H2 & H1).
  destruct (propose_eval_inv _ _ _ _ _ _ _ _ _ H2)
    as (_ & _ & _ & _ & N2 & T2 & g0 & l4b & Hev).
  specialize (T2 N).
  unfold propose_decide in H1.
  apply pbind_ret in H1. destruct H1 as (b & g3 & H3 & H1).
  pose proof (Hacc _ _ _ _ _ _ _ _ H3) as T3.
  assert (N3 : log_lambda_pmf g3 <> None).
  { unfold tables_of in T3. injection T3 as T3 _ _. congruence. }
  assert (Hp : scored rules labels nrules params g3 (rs_ret p) (ret_log_post p)).
  { destruct b; apply pret_ret in H1; destruct H1 as [-> _]; cbn [rs_ret ret_log_post].
    - eapply scored_after; [exact Hev|exact T3].
    - apply (scored_tables g); [exact Hcur|congruence]. }
  assert (G1 : g1 = g3) by (destruct b; apply pret_ret in H1; destruct H1; congruence).
  subst g1.
  destruct (dgt (ret_log_post p) (max_log_posterior st)) eqn:E.
  - apply pbind_ret in H. destruct H as (ids & g4 & H4 & H).
    apply lift_ret in H4. destruct H4 as [H4 ->].
    apply pret_ret in H. destruct H as [-> ->].
    unfold chain_coherent. cbn [cur_rs log_post_rs max_log_posterior rs_idarray len].
    split; [exact N3|]. split; [exact Hp|]. split; [apply dlt_irrefl|].
    exists (rs_ret p). auto.
  - apply pret_ret in H. destruct H as [-> ->].
    unfold chain_coherent. cbn [cur_rs log_post_rs max_log_posterior rs_idarray len].
    split; [exact N3|]. split; [exact Hp|]. split; [exact E|].
    exists rs_b. split; [|auto].
    apply (scored_tables g); [exact Hb|congruence].
Qed.

Lemma mcmc_loop_coherent fuel (n : nat) :
  forall i st g st' g',
    pfor_range n i (mcmc_step fuel rules labels nrules params) st g = Ret (st', g') ->
    chain_coherent rules labels nrules params st g ->
    chain_coherent rules labels nrules params st' g'.
Proof.
  induction n as [|n IH]; intros i st g st' g' H Hc; cbn [pfor_range] in H.
  - apply pret_ret in H. destruct H as [-> ->]. exact Hc.
  - apply pbind_ret in H. destruct H as (s1 & g1 & H1 & H2).
    apply (IH _ _ _ _ _ H2). unfold mcmc_step in H1.
    eapply chain_step_coherent; [|exact H1|exact Hc].
    intros. apply mcmc_accepts_tables.
Qed.

End Coherence.

Section Start.
Context {M : MathLib} {L : RuleLib}.

(** The loop that draws the initial list: it returns what it was given
    when the bound it was given is not below [v_star], and else the last
    list drawn, with the log posterior and the prefix bound computed for it
    at [length4bound = 0], a bound that is not below [v_star]. *)
Lemma mcmc_init_last fuel init_size nsamples nrules rules labels params v_star :
  forall rs0 lp0 pb0 g rs lp g',
    mcmc_init fuel init_size nsamples nrules rules labels params v_star rs0 lp0 pb0 g
    = Ret ((rs, lp), g') ->
    (dlt pb0 v_star = false /\ rs = rs0 /\ lp = lp0 /\ g' = g) \/
    (dlt pb0 v_star = true /\
     exists r pb g1,
       rs = Some r /\
       compute_log_posterior r rules nrules labels params 0 0 g1 = Ret ((lp, pb), g') /\
       dlt pb v_star = false /\ moves_of g1 = moves_of g).
Proof.
  induction fuel as [|fuel IH]; intros rs0 lp0 pb0 g rs lp g' H; cbn [mcmc_init] in H.
  - destruct (dlt pb0 v_star) eqn:E; [discriminate|].
    apply pret_ret in H. destruct H as [H ->]. injection H as -> ->. left; auto.
  - destruct (dlt pb0 v_star) eqn:E.
    + right. split; [reflexivity|].
      apply pbind_ret in H. destruct H as (rs' & g1 & H1 & H).
      apply pbind_ret in H. destruct H as ([lp1 pb1] & g2 & H2 & H).
      cbv zeta in H.
      pose proof (with_rng_moves _ _ _ _ H1) as M1.
      pose proof (compute_log_posterior_moves _ _ _ _ _ _ _ _ _ _ H2) as M2.
      destruct (IH _ _ _ _ _ _ _ H) as [(E1 & Hrs & Hlp & Hg) | (E1 & r & pb & g3 & Hrs & Hc & Hpb & M3)].
      * subst rs lp g'. exists rs', pb1, g1. auto.
      * exists r, pb, g3. repeat split; auto. congruence.
    + apply pret_ret in H. destruct H as [H ->]. injection H as -> ->. left; auto.
Qed.

End Start.

Section StartLoop.
Context {M : MathLib} {L : RuleLib}.
Variables (init_size nsamples nrules : Z) (rules labels : list rule_t)
          (params : params_t) (v_star : double).

Local Abbreviation turns n := (init_turns n init_size nsamples nrules rules labels params).
Local Abbreviation init fuel :=
  (mcmc_init fuel init_size nsamples nrules rules labels params v_star).

Lemma below_until_tail n rs0 lp0 pb0 g rs' g1 lp1 pb1 g2 :
  below_until init_size nsamples nrules rules labels params v_star (S n)
    (rs0, lp0, pb0) g ->
  with_rng (create_random_ruleset init_size nsamples nrules rules) g = Ret (rs', g1) ->
  compute_log_posterior rs' rules nrules labels params 0 0 g1 = Ret ((lp1, pb1), g2) ->
  dlt pb0 v_star = true /\
  below_until init_size nsamples nrules rules labels params v_star n
    (Some rs', lp1, pb1) g2.
Proof.
  intros Hb H1 H2. split.
  - destruct (Hb 0%nat ltac:(lia)) as (r & l & p & gk & Hk & Hp).
    cbn [init_turns] in Hk. injection Hk as _ _ <- _. exact Hp.
  - intros k Hk. destruct (Hb (S k) ltac:(lia)) as (r & l & p & gk & Hr & Hp).
    cbn [init_turns] in Hr. unfold pbind at 1 in Hr. rewrite H1 in Hr.
    unfold pbind at 1 in Hr. rewrite H2 in Hr. cbv zeta in Hr.
    exists r, l, p, gk. auto.
Qed.

Lemma mcmc_init_turns fuel :
  forall rs0 lp0 pb0 g rs lp g',
    init fuel rs0 lp0 pb0 g = Ret ((rs, lp), g') ->
    exists (n : nat) pb,
      (n <= fuel)%nat /\
      below_until init_size nsamples nrules rules labels params v_star n (rs0, lp0, pb0) g /\
      turns n (rs0, lp0, pb0) g = Ret ((rs, lp, pb), g') /\
      dlt pb v_star = false.
Proof.
  induction fuel as [|fuel IH]; intros rs0 lp0 pb0 g rs lp g' H; cbn [mcmc_init] in H.
  - destruct (dlt pb0 v_star) eqn:E; [discriminate|].
    apply pret_ret in H. destruct H as [H ->]. injection H as -> ->.
    exists 0%nat, pb0. split; [lia|]. split; [intros k Hk; lia|]. auto.
  - destruct (dlt pb0 v_star) eqn:E.
    + apply pbind_ret in H. destruct H as (rs' & g1 & H1 & H).
      apply pbind_ret in H. destruct H as ([lp1 pb1] & g2 & H2 & H).
      cbv zeta in H.
      destruct (IH _ _ _ _ _ _ _ H) as (n & pb & Hn & Hb & Ht & Hp).
      exists (S n), pb. split; [lia|]. split; [|split; [|exact Hp]].
      * intros k Hk. destruct k as [|k].
        -- exists rs0, lp0, pb0, g. auto.
        -- destruct (Hb k ltac:(lia)) as (r & l & p & gk & Hr & Hpk).
           exists r, l, p, gk. split; [|exact Hpk].
           cbn [init_turns]. unfold pbind at 1. rewrite H1.
           unfold pbind at 1. rewrite H2. exact Hr.
      * cbn [init_turns]. unfold pbind at 1. rewrite H1.
        unfold pbind at 1. rewrite H2. exact Ht.
    + apply pret_ret in H. destruct H as [H ->]. injection H as -> ->.
      exists 0%nat, pb0. split; [lia|]. split; [intros k Hk; lia|]. auto.
Qed.

Lemma turns_mcmc_init (n : nat) :
  forall fuel rs0 lp0 pb0 g rs lp pb g',
    (n <= fuel)%nat ->
    below_until init_size nsamples nrules rules labels params v_star n (rs0, lp0, pb0) g ->
    turns n (rs0, lp0, pb0) g = Ret ((rs, lp, pb), g') ->
    dlt pb v_star = false ->
    init fuel rs0 lp0 pb0 g = Ret ((rs, lp), g').
Proof.
  induction n as [|n IH]; intros fuel rs0 lp0 pb0 g rs lp pb g' Hn Hb Ht Hp.
  - cbn [init_turns] in Ht. apply pret_ret in Ht. destruct Ht as [Ht ->].
    injection Ht as -> -> ->.
    destruct fuel; cbn [mcmc_init]; rewrite Hp; reflexivity.
  - destruct fuel as [|fuel]; [lia|].
    cbn [init_turns] in Ht.
    apply pbind_ret in Ht. destruct Ht as (rs' & g1 & H1 & Ht).
    apply pbind_ret in Ht. destruct Ht as ([lp1 pb1] & g2 & H2 & Ht).
    cbv zeta in Ht.
    destruct (below_until_tail _ _ _ _ _ _ _ _ _ _ Hb H1 H2) as [E Hb'].
    cbn [mcmc_init]. rewrite E.
    unfold pbind at 1. rewrite H1. unfold pbind at 1. rewrite H2. cbv zeta.
    apply (IH fuel _ _ _ _ _ _ pb _ ltac:(lia) Hb' Ht Hp).
Qed.

End StartLoop.

Section Counters.
Context {M : MathLib} {L : RuleLib}.

(** One iteration counts one move, and the reject counter goes up by at
    most one. *)
Lemma chain_step_counts fuel rules labels nrules params extra accept_func st g st' g' :
  (forall n o pb mx e, preserves moves_of (accept_func n o pb mx e)) ->
  chain_step fuel rules labels nrules params extra accept_func st g = Ret (st', g') ->
  moves g' = moves g + 1 /\
  n_add g <= n_add g' /\ n_delete g <= n_delete g' /\ n_swap g <= n_swap g' /\
  nsuccessful_rej st <= nsuccessful_rej st' <= nsuccessful_rej st + 1.
Proof.
  intros Hacc H. unfold chain_step in H.
  apply pbind_ret in H. destruct H as (p & g1 & H1 & H).
  unfold propose in H1.
  apply pbind_ret in H1. destruct H1 as (ev & g2 & H2 & H1).
  destruct (propose_eval_inv _ _ _ _ _ _ _ _ _ H2) as (Mv & A & D & S & _).
  unfold propose_decide in H1.
  apply pbind_ret in H1. destruct H1 as (b & g3 & H3 & H1).
  pose proof (Hacc _ _ _ _ _ _ _ _ H3) as M3.
  unfold moves_of in M3. injection M3 as M3a M3d M3s.
  assert (Hc : g1 = g3 /\ nsuccessful_rej st <= cnt p <= nsuccessful_rej st + 1).
  { destruct b; apply pret_ret in H1; destruct H1 as [-> ->]; cbn [cnt];
      (split; [reflexivity|]);
      destruct (dlt (prefix_bound ev) (max_log_posterior st)); lia. }
  destruct Hc as [-> Hc].
  assert (Hst : g' = g3 /\ nsuccessful_rej st' = cnt p).
  { destruct (dgt (ret_log_post p) (max_log_posterior st)).
    - apply pbind_ret in H. destruct H as (ids & g4 & H4 & H).
      apply lift_ret in H4. destruct H4 as [_ ->].
      apply pret_ret in H. destruct H as [-> ->]. auto.
    - apply pret_ret in H. destruct H as [-> ->]. auto. }
  destruct Hst as [-> ->]. unfold moves in *. repeat split; lia.
Qed.

Lemma chain_loop_counts fuel rules labels nrules params extra accept_func (n : nat) :
  (forall n o pb mx e, preserves moves_of (accept_func n o pb mx e)) ->
  forall i st g st' g',
    pfor_range n i
      (fun _ => chain_step fuel rules labels nrules params extra accept_func) st g
    = Ret (st', g') ->
    moves g' = moves g + Z.of_nat n /\
    n_add g <= n_add g' /\ n_delete g <= n_delete g' /\ n_swap g <= n_swap g' /\
    nsuccessful_rej st <= nsuccessful_rej st' <= nsuccessful_rej st + Z.of_nat n.
Proof.
  intros Hacc. induction n as [|n IH]; intros i st g st' g' H; cbn [pfor_range] in H.
  - apply pret_ret in H. destruct H as [-> ->]. cbn. repeat split; lia.
  - apply pbind_ret in H. destruct H as (s1 & g1 & H1 & H2).
    destruct (chain_step_counts _ _ _ _ _ _ _ _ _ _ _ Hacc H1) as (M1 & A1 & D1 & S1 & C1).
    destruct (IH _ _ _ _ _ H2) as (M2 & A2 & D2 & S2 & C2).
    rewrite Nat2Z.inj_succ. repeat split; lia.
Qed.

End Counters.

Section RunMcmc.
Context {M : MathLib} {L : RuleLib}.

Lemma mcmc_start_inv fuel init_size nsamples nrules rules labels params v_star g st0 g0 :
  mcmc_start fuel init_size nsamples nrules rules labels params v_star g = Ret (st0, g0) ->
  dlt d_m1e10 v_star = true /\
  (exists g1 pb,
      compute_log_posterior (cur_rs st0) rules nrules labels params 0 0 g1
      = Ret ((log_post_rs st0, pb), g0) /\
      dlt pb v_star = false) /\
  max_log_posterior st0 = log_post_rs st0 /\
  ruleset_backup (cur_rs st0) = Ret (rs_idarray st0) /\
  len st0 = n_rules (cur_rs st0) /\
  nsuccessful_rej st0 = 0 /\
  moves_of g0 = (0, 0, 0).
Proof.
  unfold mcmc_start. intros H.
  apply pbind_ret in H. destruct H as (u & g1 & H1 & H).
  injection H1 as _ <-.
  apply pbind_ret in H. destruct H as ([rs0 lp] & g2 & H2 & H).
  cbv zeta in H.
  apply pbind_ret in H. destruct H as (rs & g3 & H3 & H).
  apply lift_ret in H3. destruct H3 as [H3 ->].
  apply pbind_ret in H. destruct H as (ids & g4 & H4 & H).
  apply lift_ret in H4. destruct H4 as [H4 ->].
  apply pret_ret in H. destruct H as [-> ->].
  cbn [cur_rs log_post_rs max_log_posterior rs_idarray len nsuccessful_rej].
  destruct (mcmc_init_last _ _ _ _ _ _ _ _ _ _ _ _ _ _ _ H2)
    as [(_ & -> & _) | (E & r & pb & g5 & -> & Hc & Hpb & Mv)]; [discriminate H3|].
  injection H3 as <-.
  split; [exact E|]. split; [exists g5, pb; auto|].
  repeat split; auto.
  rewrite (compute_log_posterior_moves _ _ _ _ _ _ _ _ _ _ Hc), Mv. reflexivity.
Qed.

Lemma mcmc_start_coherent fuel init_size nsamples nrules rules labels params v_star g st0 g0 :
  mcmc_start fuel init_size nsamples nrules rules labels params v_star g = Ret (st0, g0) ->
  chain_coherent rules labels nrules params st0 g0.
Proof.
  intros H. destruct (mcmc_start_inv _ _ _ _ _ _ _ _ _ _ _ H)
    as (_ & (g1 & pb & Hc & _) & Hmax & Hids & Hlen & _).
  assert (Hs : scored rules labels nrules params g0 (cur_rs st0) (log_post_rs st0))
    by (eapply scored_after; [exact Hc|reflexivity]).
  destruct (after_init_tables _ _ _ _ _ _ _ _ _ _ Hc) as (gi & Hi & Ti).
  destruct (init_pmf_tables _ _ _ _ _ Hi) as [Ni _].
  split.
  { unfold tables_of in Ti. injection Ti as Ti _ _. congruence. }
  split; [exact Hs|]. split; [rewrite Hmax; apply dlt_irrefl|].
  exists (cur_rs st0). rewrite Hmax. auto.
Qed.

(** [run_mcmc] returns the list that [ruleset_init] rebuilds from the
    backup of the best list the chain has seen: when the loop over the
    iterations ends, [rs_idarray] and [len] are the backup of a list whose
    log posterior is [max_log_posterior], [log_post_rs] is the log
    posterior of the current list, and it is not above
    [max_log_posterior]. *)
Theorem run_mcmc_returns_best :
  forall fuel its init_size nsamples nrules rules labels params v_star g rs g',
    run_mcmc fuel its init_size nsamples nrules rules labels params v_star g
    = Ret (rs, g') ->
    exists st0 g0 st,
      mcmc_start fuel init_size nsamples nrules rules labels params v_star g
      = Ret (st0, g0) /\
      mcmc_iterate fuel rules labels nrules params (Z.to_nat its) st0 g0 = Ret (st, g') /\
      chain_coherent rules labels nrules params st g' /\
      ruleset_init (len st) nsamples (rs_idarray st) rules = Ret rs.
Proof.
  intros fuel its init_size nsamples nrules rules labels params v_star g rs g' H.
  unfold run_mcmc in H.
  apply pbind_ret in H. destruct H as (st0 & g0 & H0 & H).
  apply pbind_ret in H. destruct H as (st & g1 & H1 & H).
  apply lift_ret in H. destruct H as [H ->].
  exists st0, g0, st. split; [exact H0|]. split; [exact H1|]. split; [|exact H].
  apply mcmc_start_coherent in H0.
  exact (mcmc_loop_coherent _ _ _ _ _ _ _ _ _ _ _ H1 H0).
Qed.

(** [run_mcmc] counts every proposal in exactly one of [n_add],
    [n_delete] and [n_swap], which it resets at its start; the reject
    counter is between zero and the number of proposals. *)
Theorem run_mcmc_counts_proposals :
  forall fuel its init_size nsamples nrules rules labels params v_star g rs g',
    run_mcmc fuel its init_size nsamples nrules rules labels params v_star g
    = Ret (rs, g') ->
    0 <= n_add g' /\ 0 <= n_delete g' /\ 0 <= n_swap g' /\
    n_add g' + n_delete g' + n_swap g' = Z.max 0 its /\
    exists st0 g0 st,
      mcmc_start fuel init_size nsamples nrules rules labels params v_star g
      = Ret (st0, g0) /\
      mcmc_iterate fuel rules labels nrules params (Z.to_nat its) st0 g0 = Ret (st, g') /\
      0 <= nsuccessful_rej st <= Z.max 0 its.
Proof.
  intros fuel its init_size nsamples nrules rules labels params v_star g rs g' H.
  unfold run_mcmc in H.
  apply pbind_ret in H. destruct H as (st0 & g0 & H0 & H).
  apply pbind_ret in H. destruct H as (st & g1 & H1 & H).
  apply lift_ret in H. destruct H as [H ->].
  destruct (mcmc_start_inv _ _ _ _ _ _ _ _ _ _ _ H0) as (_ & _ & _ & _ & _ & Hrej & Mv).
  unfold moves_of in Mv. injection Mv as Ma Md Ms.
  destruct (chain_loop_counts fuel rules labels nrules params ExtraJumpProb mcmc_accepts
              (Z.to_nat its) mcmc_accepts_moves 0 st0 g0 st g1 H1)
    as (M1 & A1 & D1 & S1 & C1).
  unfold moves in M1.
  repeat split; try lia.
  exists st0, g0, st. split; [exact H0|]. split; [exact H1|]. lia.
Qed.

(** With a [v_star] that is not above [-1e10], or NaN, the loop that
    draws the initial list is skipped, and [run_mcmc] reads [rs], which is
    [NULL]. *)
Lemma run_mcmc_null fuel its init_size nsamples nrules rules labels params v_star g :
  dlt d_m1e10 v_star = false ->
  run_mcmc fuel its init_size nsamples nrules rules labels params v_star g
  = Fail Undefined.
Proof.
  intros E. unfold run_mcmc, mcmc_start, pbind, modify.
  destruct fuel; cbn [mcmc_init]; rewrite E; reflexivity.
Qed.

End RunMcmc.

(** ** Arrays *)

Lemma zth_nth_error {A} (l : list A) i a :
  zth l i = Ret a <-> 0 <= i /\ nth_error l (Z.to_nat i) = Some a.
Proof.
  unfold zth. destruct (i <? 0) eqn:E.
  - apply Z.ltb_lt in E. split; [discriminate|lia].
  - apply Z.ltb_ge in E. destruct (nth_error l (Z.to_nat i)) as [b|].
    + split; [intros H; injection H as ->; auto|intros [_ H]; congruence].
    + split; [discriminate|intros [_ H]; discriminate].
Qed.

Lemma zth_fail {A} (l : list A) i e : zth l i = Fail e -> e = Undefined.
Proof.
  unfold zth. destruct (i <? 0); [congruence|].
  destruct (nth_error l (Z.to_nat i)); congruence.
Qed.

Lemma set_nth_spec {A} (l : list A) : forall n v l',
  set_nth l n v = Ret l' ->
  length l' = length l /\ (n < length l)%nat /\
  nth_error l' n = Some v /\
  forall k, k <> n -> nth_error l' k = nth_error l k.
Proof.
  induction l as [|h t IH]; intros n v l' H; [discriminate|].
  destruct n as [|n]; cbn [set_nth] in H.
  - injection H as <-. cbn. repeat split; [lia|].
    intros [|k] Hk; [congruence|reflexivity].
  - apply rbind_ret in H. destruct H as (t' & Ht & H). injection H as <-.
    destruct (IH _ _ _ Ht) as (Hl & Hn & Hv & Ho). cbn.
    repeat split; [lia|lia|exact Hv|].
    intros [|k] Hk; [reflexivity|]. cbn. apply Ho. congruence.
Qed.

Lemma set_nth_fail {A} (l : list A) : forall n v e,
  set_nth l n v = Fail e -> e = Undefined.
Proof.
  induction l as [|h t IH]; intros n v e H; [cbn in H; destruct n; congruence|].
  destruct n as [|n]; cbn [set_nth] in H; [discriminate|].
  destruct (set_nth t n v) eqn:E; cbn in H; [discriminate|].
  injection H as <-. eapply IH; eassumption.
Qed.

Lemma zset_spec {A} (l : list A) i v l' :
  zset l i v = Ret l' ->
  length l' = length l /\ 0 <= i < Z.of_nat (length l) /\
  zth l' i = Ret v /\
  forall k, k <> i -> zth l' k = zth l k.
Proof.
  unfold zset. destruct (i <? 0) eqn:E; [discriminate|]. apply Z.ltb_ge in E.
  intros H. destruct (set_nth_spec _ _ _ _ H) as (Hl & Hn & Hv & Ho).
  repeat split; [exact Hl|lia|lia|apply zth_nth_error; auto|].
  intros k Hk. unfold zth. destruct (k <? 0) eqn:Ek; [reflexivity|].
  apply Z.ltb_ge in Ek. rewrite Ho; [reflexivity|]. lia.
Qed.

Lemma zset_fail {A} (l : list A) i v e : zset l i v = Fail e -> e = Undefined.
Proof.
  unfold zset. destruct (i <? 0); [congruence|]. apply set_nth_fail.
Qed.

Lemma firstn_snoc {A} (l : list A) : forall n a,
  nth_error l n = Some a -> firstn (S n) l = firstn n l ++ [a].
Proof.
  induction l as [|h t IH]; intros [|n] a H; try discriminate.
  - injection H as ->. reflexivity.
  - change (firstn (S (S n)) (h :: t)) with (h :: firstn (S n) t).
    rewrite (IH _ _ H). reflexivity.
Qed.

(** ** The counts of the cardinalities *)

Lemma count_card_spec rules (k : nat) cc cc' :
  count_card rules (Z.of_nat k) cc = Ret cc' ->
  length cc = 11%nat ->
  (forall c, 0 <= c <= 10 -> zth cc c = Ret (count_of_cardinality rules k c)) ->
  length cc' = 11%nat /\
  (forall c, 0 <= c <= 10 -> zth cc' c = Ret (count_of_cardinality rules (S k) c)) /\
  exists r, zth rules (Z.of_nat k) = Ret r /\ 0 <= cardinality r <= 10.
Proof.
  unfold count_card. intros H Hl Hc.
  apply rbind_ret in H. destruct H as (r & Hr & H).
  apply rbind_ret in H. destruct H as (c0 & Hc0 & H).
  destruct (zset_spec _ _ _ _ H) as (Hl' & Hi & Hv & Ho).
  rewrite Hl in Hi. change (Z.of_nat 11) with 11 in Hi.
  apply zth_nth_error in Hr. destruct Hr as [_ Hr]. rewrite Nat2Z.id in Hr.
  split; [congruence|]. split.
  - intros c Hcr. unfold count_of_cardinality. rewrite (firstn_snoc _ _ _ Hr).
    rewrite filter_app, length_app. cbn [filter].
    destruct (Z.eq_dec c (cardinality r)) as [-> | Hne].
    + rewrite Z.eqb_refl. cbn [length]. rewrite Hv.
      rewrite (Hc (cardinality r)) in Hc0 by lia. injection Hc0 as <-.
      unfold count_of_cardinality. f_equal. lia.
    + replace (cardinality r =? c) with false by (symmetry; apply Z.eqb_neq; congruence).
      cbn [length]. rewrite Ho by exact Hne. rewrite Hc by exact Hcr.
      unfold count_of_cardinality. f_equal. lia.
  - exists r. split; [|lia]. apply zth_nth_error. rewrite Nat2Z.id. split; [lia|exact Hr].
Qed.

Lemma count_loop_spec rules (n : nat) :
  forall (k : nat) cc cc',
    for_range n (Z.of_nat k) (count_card rules) cc = Ret cc' ->
    length cc = 11%nat ->
    (forall c, 0 <= c <= 10 -> zth cc c = Ret (count_of_cardinality rules k c)) ->
    length cc' = 11%nat /\
    (forall c, 0 <= c <= 10 -> zth cc' c = Ret (count_of_cardinality rules (k + n) c)) /\
    (forall i, Z.of_nat k <= i < Z.of_nat (k + n) ->
               exists r, zth rules i = Ret r /\ 0 <= cardinality r <= 10).
Proof.
  induction n as [|n IH]; intros k cc cc' H Hl Hc; cbn [for_range] in H.
  - injection H as <-. rewrite Nat.add_0_r. split; [exact Hl|]. split; [exact Hc|]. lia.
  - apply rbind_ret in H. destruct H as (cc1 & H1 & H2).
    destruct (count_card_spec _ _ _ _ H1 Hl Hc) as (Hl1 & Hc1 & r & Hr & Hrc).
    replace (Z.of_nat k + 1) with (Z.of_nat (S k)) in H2 by lia.
    destruct (IH _ _ _ H2 Hl1 Hc1) as (Hl' & Hc' & Hr').
    replace (k + S n)%nat with (S k + n)%nat by lia.
    split; [exact Hl'|]. split; [exact Hc'|].
    intros i Hi. destruct (Z.eq_dec i (Z.of_nat k)) as [-> | Hne].
    + exists r. auto.
    + apply Hr'. lia.
Qed.

Lemma card_counts_spec rules nrules cc :
  card_counts rules nrules = Ret cc ->
  length cc = 11%nat /\
  (forall c, 0 <= c <= MAX_RULE_CARDINALITY ->
             zth cc c = Ret (count_of_cardinality rules (Z.to_nat nrules) c)) /\
  (forall i, 0 <= i < nrules ->
             exists r, zth rules i = Ret r /\
                       0 <= cardinality r <= MAX_RULE_CARDINALITY).
Proof.
  intros H. unfold card_counts in H.
  destruct (count_loop_spec rules (Z.to_nat nrules) 0 _ _ H) as (Hl & Hc & Hr).
  - reflexivity.
  - intros c Hc. unfold count_of_cardinality. cbn [firstn filter length].
    apply zth_nth_error. split; [lia|].
    assert (Hn : (Z.to_nat c < 11)%nat) by lia.
    change (Z.to_nat (1 + MAX_RULE_CARDINALITY)) with 11%nat.
    rewrite nth_error_repeat by exact Hn. reflexivity.
  - unfold MAX_RULE_CARDINALITY. split; [exact Hl|]. split; [exact Hc|].
    intros i Hi. apply Hr. lia.
Qed.

Lemma card_counts_fail rules nrules e : card_counts rules nrules = Fail e -> e = Undefined.
Proof.
  unfold card_counts.
  generalize (repeat 0 (Z.to_nat (1 + MAX_RULE_CARDINALITY))) as cc.
  generalize 0 as i.
  induction (Z.to_nat nrules) as [|n IH]; intros i cc H; cbn [for_range] in H;
    [discriminate|].
  destruct (count_card rules i cc) as [cc1|e1] eqn:E1; cbn [rbind] in H.
  - eapply IH; eassumption.
  - injection H as <-. unfold count_card in E1.
    destruct (zth rules i) as [r|e2] eqn:E2; cbn [rbind] in E1;
      [|injection E1 as <-; eapply zth_fail; eassumption].
    destruct (zth cc (cardinality r)) as [c|e3] eqn:E3; cbn [rbind] in E1;
      [|injection E1 as <-; eapply zth_fail; eassumption].
    eapply zset_fail; eassumption.
Qed.

(** [card_count] after the loop over the library: entry [c] is the number
    of rules of cardinality [c]. When one of the [nrules] rules has a
    cardinality below 0 or above [MAX_RULE_CARDINALITY], the loop writes
    outside [card_count]. *)
Theorem card_counts_counts :
  forall rules nrules,
    (forall cc,
        card_counts rules nrules = Ret cc ->
        forall c, 0 <= c <= MAX_RULE_CARDINALITY ->
          zth cc c = Ret (count_of_cardinality rules (Z.to_nat nrules) c)) /\
    (forall i r,
        0 <= i < nrules -> zth rules i = Ret r ->
        cardinality r < 0 \/ MAX_RULE_CARDINALITY < cardinality r ->
        card_counts rules nrules = Fail Undefined).
Proof.
  intros rules nrules. split.
  - intros cc H. exact (proj1 (proj2 (card_counts_spec _ _ _ H))).
  - intros i r Hi Hr Hout.
    destruct (card_counts rules nrules) as [cc|e] eqn:E.
    + destruct (card_counts_spec _ _ _ E) as (_ & _ & Hc).
      destruct (Hc i Hi) as (r' & Hr' & Hb). rewrite Hr in Hr'. injection Hr' as <-. lia.
    + rewrite (card_counts_fail _ _ _ E). reflexivity.
Qed.

Lemma for_range_reads {St A} (l : list A) (body : Z -> St -> res St) (n : nat) :
  (forall i s s', body i s = Ret s' -> exists a, zth l i = Ret a) ->
  forall i s s',
    for_range n i body s = Ret s' ->
    forall k, i <= k < i + Z.of_nat n -> exists a, zth l k = Ret a.
Proof.
  intros Hb. induction n as [|n IH]; intros i s s' H k Hk; [lia|].
  cbn [for_range] in H. apply rbind_ret in H. destruct H as (s1 & H1 & H2).
  destruct (Z.eq_dec k i) as [-> | Hne]; [eapply Hb; eassumption|].
  apply (IH _ _ _ H2). lia.
Qed.

Section Requirements.
Context {M : MathLib} {L : RuleLib}.

Lemma prior_loop_reads rs rules lep l4b (n : nat) :
  forall i st g st' g',
    pfor_range n i (prior_step rs rules lep l4b) st g = Ret (st', g') ->
    forall k, i <= k < i + Z.of_nat n ->
      exists e r, zth (rs_rules rs) k = Ret e /\ zth rules (rule_id e) = Ret r.
Proof.
  induction n as [|n IH]; intros i st g st' g' H k Hk; [lia|].
  cbn [pfor_range] in H. apply pbind_ret in H. destruct H as (s1 & g1 & H1 & H2).
  destruct (Z.eq_dec k i) as [-> | Hne]; [|apply (IH _ _ _ _ _ H2); lia].
  unfold prior_step in H1.
  apply pbind_ret in H1. destruct H1 as (e & g2 & He & H1).
  apply lift_ret in He. destruct He as [He ->].
  apply pbind_ret in H1. destruct H1 as (r & g2 & Hr & H1).
  apply lift_ret in Hr. destruct Hr as [Hr ->].
  exists e, r. auto.
Qed.

Lemma lik_step_reads rs label0 params l4b j s s' :
  lik_step rs label0 params l4b j s = Ret s' -> exists e, zth (rs_rules rs) j = Ret e.
Proof.
  unfold lik_step. intros H. apply rbind_ret in H. destruct H as (e & He & _).
  exists e. exact He.
Qed.

(** What [compute_log_posterior] needs of its arguments to stay inside
    its arrays: every rule of the library has a cardinality between 0 and
    [MAX_RULE_CARDINALITY]; the list has at least its default rule and at
    most as many rules as the lambda table has entries; [rs->rules] has
    [n_rules] entries, and each before the default rule names a rule of the
    library; there are two labels. *)
Theorem compute_log_posterior_requires :
  forall rs rules nrules labels params ifPrint l4b g r g',
    compute_log_posterior rs rules nrules labels params ifPrint l4b g = Ret (r, g') ->
    (forall i, 0 <= i < nrules ->
       exists x, zth rules i = Ret x /\ 0 <= cardinality x <= MAX_RULE_CARDINALITY) /\
    (exists llp, log_lambda_pmf g' = Some llp /\
                 1 <= n_rules rs <= Z.of_nat (length llp)) /\
    (forall k, 0 <= k < n_rules rs -> exists e, zth (rs_rules rs) k = Ret e) /\
    (forall k, 0 <= k < n_rules rs - 1 ->
       exists e x, zth (rs_rules rs) k = Ret e /\ zth rules (rule_id e) = Ret x) /\
    (exists l0 l1, zth labels 0 = Ret l0 /\ zth labels 1 = Ret l1).
Proof.
  intros rs rules nrules labels params ifPrint l4b g r g' H.
  destruct (after_init_tables _ _ _ _ _ _ _ _ _ _ H) as (gi & Hi & Ti).
  unfold compute_log_posterior in H.
  rewrite (pbind_run _ _ _ _ _ Hi) in H.
  apply pbind_ret in H. destruct H as (cc & g2 & H2 & H).
  apply lift_ret in H2. destruct H2 as [H2 ->].
  apply pbind_ret in H. destruct H as (en & g3 & H3 & H). injection H3 as _ <-.
  apply pbind_ret in H. destruct H as (llp & g4 & H4 & H).
  apply pbind_ret in H4. destruct H4 as (p & g5 & H5 & H4). injection H5 as <- <-.
  apply lift_ret in H4. destruct H4 as [H4 ->].
  apply pbind_ret in H. destruct H as (lep & g4 & H5 & H).
  apply pbind_ret in H5. destruct H5 as (p & g5 & H6 & H5). injection H6 as <- <-.
  apply lift_ret in H5. destruct H5 as [H5 ->].
  apply pbind_ret in H. destruct H as (lm & g6 & H6 & H).
  apply lift_ret in H6. destruct H6 as [H6 ->].
  apply pbind_ret in H. destruct H as (pl & g7 & H7 & H).
  apply lift_ret in H7. destruct H7 as [H7 ->].
  apply pbind_ret in H. destruct H as (pr & g8 & H8 & H).
  apply pbind_ret in H. destruct H as (l0 & g9 & H9 & H).
  apply lift_ret in H9. destruct H9 as [H9 ->].
  apply pbind_ret in H. destruct H as (l1 & g10 & H10 & H).
  apply lift_ret in H10. destruct H10 as [H10 ->].
  apply pbind_ret in H. destruct H as (lk & g11 & H11 & H).
  apply lift_ret in H11. destruct H11 as [H11 ->].
  destruct (card_counts_spec _ _ _ H2) as (_ & _ & Hcards).
  split; [exact Hcards|]. split.
  { exists llp. unfold tables_of in Ti. injection Ti as Ti _ _.
    destruct (log_lambda_pmf gi) as [t|] eqn:E; [|discriminate H4].
    injection H4 as ->. split; [congruence|].
    assert (Hx : exists v, zth llp (n_rules rs - 1) = Ret v) by eauto.
    apply zth_ret_iff in Hx. lia. }
  split.
  { intros k Hk.
    apply (for_range_reads (rs_rules rs) _ _ (lik_step_reads rs l0 params l4b) _ _ _ H11).
    lia. }
  split.
  { intros k Hk. apply (prior_loop_reads _ _ _ _ _ _ _ _ _ _ H8). lia. }
  exists l0, l1. auto.
Qed.

End Requirements.

Section PrefixBound.
Context {M : MathLib} {L : RuleLib}.

Lemma prior_loop_no_bound rs rules lep l4b (n : nat) :
  forall i st g st' g',
    l4b < i ->
    pfor_range n i (prior_step rs rules lep l4b) st g = Ret (st', g') ->
    prefix_prior st' = prefix_prior st.
Proof.
  induction n as [|n IH]; intros i st g st' g' Hi H; cbn [pfor_range] in H.
  - apply pret_ret in H. destruct H as [-> _]. reflexivity.
  - apply pbind_ret in H. destruct H as (s1 & g1 & H1 & H2).
    assert (Hi1 : l4b < i + 1) by lia.
    rewrite (IH _ _ _ _ _ Hi1 H2).
    unfold prior_step in H1. cbv zeta in H1.
    replace (i <=? l4b) with false in H1 by (symmetry; apply Z.leb_gt; lia).
    run_inv. reflexivity.
Qed.

Lemma lik_loop_no_bound rs label0 params l4b (n : nat) :
  forall j st st',
    l4b < j ->
    for_range n j (lik_step rs label0 params l4b) st = Ret st' ->
    prefix_log_likelihood st' = prefix_log_likelihood st.
Proof.
  induction n as [|n IH]; intros j st st' Hj H; cbn [for_range] in H.
  - injection H as <-. reflexivity.
  - apply rbind_ret in H. destruct H as (s1 & H1 & H2).
    assert (Hj1 : l4b < j + 1) by lia.
    rewrite (IH _ _ _ Hj1 H2).
    unfold lik_step in H1. cbv zeta in H1.
    replace (j <=? l4b) with false in H1 by (symmetry; apply Z.leb_gt; lia).
    apply rbind_ret in H1. destruct H1 as (e & _ & H1). injection H1 as <-. reflexivity.
Qed.

(** With a negative [length4bound], as [train] and
    [run_simulated_annealing] pass it, no rule of the list enters
    [*prefix_bound]: it is the entry of the lambda table alone,
    [0.0 + log_lambda_pmf[...] + 0.0]. *)
Theorem prefix_bound_without_prefix :
  forall rs rules nrules labels params ifPrint l4b g lp pb g',
    l4b < 0 ->
    compute_log_posterior rs rules nrules labels params ifPrint l4b g
    = Ret ((lp, pb), g') ->
    exists llp pl,
      log_lambda_pmf g' = Some llp /\
      prefix_lambda_term llp (n_rules rs) (lambda params) = Ret pl /\
      pb = dadd (dadd d0 pl) d0.
Proof.
  intros rs rules nrules labels params ifPrint l4b g lp pb g' Hneg H.
  destruct (after_init_tables _ _ _ _ _ _ _ _ _ _ H) as (gi & Hi & Ti).
  unfold compute_log_posterior in H.
  rewrite (pbind_run _ _ _ _ _ Hi) in H.
  apply pbind_ret in H. destruct H as (cc & g2 & H2 & H).
  apply lift_ret in H2. destruct H2 as [H2 ->].
  apply pbind_ret in H. destruct H as (en & g3 & H3 & H). injection H3 as _ <-.
  apply pbind_ret in H. destruct H as (llp & g4 & H4 & H).
  apply pbind_ret in H4. destruct H4 as (p & g5 & H5 & H4). injection H5 as <- <-.
  apply lift_ret in H4. destruct H4 as [H4 ->].
  apply pbind_ret in H. destruct H as (lep & g4 & H5 & H).
  apply pbind_ret in H5. destruct H5 as (p & g5 & H6 & H5). injection H6 as <- <-.
  apply lift_ret in H5. destruct H5 as [H5 ->].
  apply pbind_ret in H. destruct H as (lm & g6 & H6 & H).
  apply lift_ret in H6. destruct H6 as [H6 ->].
  apply pbind_ret in H. destruct H as (pl & g7 & H7 & H).
  apply lift_ret in H7. destruct H7 as [H7 ->].
  apply pbind_ret in H. destruct H as (pr & g8 & H8 & H).
  apply pbind_ret in H. destruct H as (l0 & g9 & H9 & H).
  apply lift_ret in H9. destruct H9 as [H9 ->].
  apply pbind_ret in H. destruct H as (l1 & g10 & H10 & H).
  apply lift_ret in H10. destruct H10 as [H10 ->].
  apply pbind_ret in H. destruct H as (lk & g11 & H11 & H).
  apply lift_ret in H11. destruct H11 as [H11 ->].
  apply pret_ret in H. destruct H as [H ->]. injection H as _ Hpb. subst pb.
  apply prior_loop_no_bound in H8; [|lia].
  apply lik_loop_no_bound in H11; [|lia].
  exists llp, pl. rewrite H8, H11. cbn [prefix_prior prefix_log_likelihood].
  split; [|auto].
  unfold tables_of in Ti. injection Ti as Ti _ _. rewrite Ti.
  destruct (log_lambda_pmf gi); [injection H4 as ->; reflexivity|discriminate].
Qed.

(** [compute_log_posterior] draws no random number and counts no move.
    It builds the tables of the prior when [log_lambda_pmf] is [NULL] and
    never again: with the tables in place, [eta_norm] and the tables stay,
    and [params->eta] is not read, so that a call with another [eta] returns
    the same. *)
Theorem prior_tables_built_once :
  forall rs rules nrules labels params ifPrint l4b g r g',
    compute_log_posterior rs rules nrules labels params ifPrint l4b g = Ret (r, g') ->
    rng g' = rng g /\ moves_of g' = moves_of g /\
    log_lambda_pmf g' <> None /\
    (log_lambda_pmf g <> None ->
     tables_of g' = tables_of g /\
     forall params',
       lambda params' = lambda params -> alpha params' = alpha params ->
       compute_log_posterior rs rules nrules labels params' ifPrint l4b g = Ret (r, g')).
Proof.
  intros rs rules nrules labels params ifPrint l4b g r g' H.
  split; [exact (compute_log_posterior_rng _ _ _ _ _ _ _ _ _ _ H)|].
  split; [exact (compute_log_posterior_moves _ _ _ _ _ _ _ _ _ _ H)|].
  destruct (after_init_tables _ _ _ _ _ _ _ _ _ _ H) as (gi & Hi & Ti).
  destruct (init_pmf_tables _ _ _ _ _ Hi) as [Ni Gi].
  split.
  { unfold tables_of in Ti. injection Ti as Ti _ _. congruence. }
  intros N. specialize (Gi N). subst gi. split; [exact Ti|].
  intros params' El Ea. rewrite <- H. unfold compute_log_posterior.
  assert (Hi' : init_pmf nrules params' g = Ret (tt, g)).
  { unfold init_pmf. destruct (log_lambda_pmf g); [reflexivity|congruence]. }
  rewrite (pbind_run _ _ _ _ _ Hi'), (pbind_run _ _ _ _ _ Hi).
  rewrite El.
  assert (Hl : forall label0, lik_step rs label0 params' l4b = lik_step rs label0 params l4b).
  { intros label0. unfold lik_step. rewrite Ea. reflexivity. }
  unfold pbind. 
  repeat match goal with
         | |- match ?c with Ret _ => _ | Fail _ => _ end = _ =>
             destruct c as [[? ?]|?]; [|reflexivity]
         end.
  rewrite Hl. reflexivity.
Qed.

End PrefixBound.

Section Theta.
Context {M : MathLib} {L : RuleLib}.

Lemma theta_loop rs label0 params (n : nat) :
  forall (k : nat) theta theta',
    for_range n (Z.of_nat k) (theta_step rs label0 params) theta = Ret theta' ->
    length theta = k ->
    length theta' = (k + n)%nat /\
    (forall j, (j < k)%nat -> nth_error theta' j = nth_error theta j) /\
    (forall j, (k <= j < k + n)%nat ->
       exists e, nth_error (rs_rules rs) j = Some e /\
         let n0 := snd (rule_vand (captures e) (truthtable label0) (n_samples rs)) in
         let n1 := ncaptured e - n0 in
         nth_error theta' j =
         Some (ddiv (dmul (dadd (d_of_int n1) (snd (alpha params))) d1)
                    (dadd (dadd (d_of_int (n1 + n0)) (fst (alpha params)))
                          (snd (alpha params))))).
Proof.
  induction n as [|n IH]; intros k theta theta' H Hl; cbn [for_range] in H.
  - injection H as <-. split; [lia|]. split; [auto|]. intros j Hj. lia.
  - apply rbind_ret in H. destruct H as (t1 & H1 & H2).
    unfold theta_step in H1. apply rbind_ret in H1. destruct H1 as (e & He & H1).
    cbv zeta in H1. injection H1 as <-.
    apply zth_nth_error in He. destruct He as [_ He]. rewrite Nat2Z.id in He.
    replace (Z.of_nat k + 1) with (Z.of_nat (S k)) in H2 by lia.
    destruct (IH (S k) _ _ H2) as (Hl' & Hold & Hnew).
    { rewrite length_app. cbn. lia. }
    split; [lia|]. split.
    + intros j Hj. rewrite Hold by lia. apply nth_error_app1. lia.
    + intros j Hj. destruct (Nat.eq_dec j k) as [-> | Hne].
      * exists e. split; [exact He|]. cbv zeta. rewrite Hold by lia.
        rewrite nth_error_app2 by lia. rewrite Hl, Nat.sub_diag. reflexivity.
      * apply Hnew. lia.
Qed.

(** [get_theta] returns one probability for every position of the list,
    the default rule included: with [n0] the captured samples of label 0
    and [n1] the others, [(n1 + alpha[1]) / (n1 + n0 + alpha[0] + alpha[1])].
    It reads [labels[0]] and the [n_rules] entries of [rs->rules]. *)
Theorem get_theta_entries :
  forall rs rules labels params theta,
    get_theta rs rules labels params = Ret theta ->
    Z.of_nat (length theta) = Z.max 0 (n_rules rs) /\
    exists label0,
      zth labels 0 = Ret label0 /\
      forall j, 0 <= j < n_rules rs ->
        exists e, zth (rs_rules rs) j = Ret e /\
          let n0 := snd (rule_vand (captures e) (truthtable label0) (n_samples rs)) in
          let n1 := ncaptured e - n0 in
          zth theta j =
          Ret (ddiv (dmul (dadd (d_of_int n1) (snd (alpha params))) d1)
                    (dadd (dadd (d_of_int (n1 + n0)) (fst (alpha params)))
                          (snd (alpha params)))).
Proof.
  intros rs rules labels params theta H. unfold get_theta in H.
  apply rbind_ret in H. destruct H as (label0 & Hl0 & H).
  destruct (theta_loop _ _ _ _ 0%nat _ _ H eq_refl) as (Hlen & _ & Hnew).
  split; [lia|]. exists label0. split; [exact Hl0|].
  intros j Hj. destruct (Hnew (Z.to_nat j) ltac:(lia)) as (e & He & Ht).
  exists e. split; [apply zth_nth_error; split; [lia|exact He]|].
  cbv zeta in *. apply zth_nth_error. split; [lia|exact Ht].
Qed.

End Theta.

Section TrainMore.
Context {M : MathLib} {L : RuleLib}.

Lemma train_loop_tables fuel train_data params (n : nat) :
  forall i b g b' g',
    pfor_range n i (train_chain fuel train_data params) b g = Ret (b', g') ->
    log_lambda_pmf g <> None -> log_lambda_pmf g' <> None.
Proof.
  induction n as [|n IH]; intros i b g b' g' H N; cbn [pfor_range] in H.
  - apply pret_ret in H. destruct H as [_ ->]. exact N.
  - apply pbind_ret in H. destruct H as (b1 & g1 & H1 & H2).
    apply (IH _ _ _ _ _ H2). unfold train_chain in H1.
    apply pbind_ret in H1. destruct H1 as (rs & g2 & _ & H1).
    apply pbind_ret in H1. destruct H1 as ([pos pb] & g3 & H3 & H1).
    cbv zeta in H1.
    destruct (compute_log_posterior_tables _ _ _ _ _ _ _ _ _ _ H3) as (N3 & _).
    destruct (dge pos (max_pos b)); apply pret_ret in H1; destruct H1 as [_ ->]; exact N3.
Qed.

Lemma train_chains_tables fuel train_data params g b g' :
  train_chains fuel train_data params g = Ret (b, g') -> log_lambda_pmf g' <> None.
Proof.
  unfold train_chains. intros H.
  apply pbind_ret in H. destruct H as (rs & g1 & _ & H).
  apply pbind_ret in H. destruct H as ([pos pb] & g2 & H2 & H).
  cbv zeta in H.
  destruct (compute_log_posterior_tables _ _ _ _ _ _ _ _ _ _ H2) as (N2 & _).
  exact (train_loop_tables _ _ _ _ _ _ _ _ _ H N2).
Qed.

(** After [free(log_lambda_pmf)] the pointer is not [NULL]: the tables are
    not built again, and the next [compute_log_posterior] reads freed
    memory. *)
Lemma compute_after_free rs rules nrules labels params ifPrint l4b g :
  log_lambda_pmf g = Some [] ->
  compute_log_posterior rs rules nrules labels params ifPrint l4b g = Fail Undefined.
Proof.
  intros E. unfold compute_log_posterior.
  assert (Hi : init_pmf nrules params g = Ret (tt, g)) by (unfold init_pmf; rewrite E; reflexivity).
  rewrite (pbind_run _ _ _ _ _ Hi). unfold pbind at 1, lift at 1.
  destruct (card_counts rules nrules) as [cc|e] eqn:Ec;
    [|rewrite (card_counts_fail _ _ _ Ec); reflexivity].
  unfold pbind at 1, get at 1. unfold pbind at 1. unfold pbind at 1, get at 1.
  rewrite E. cbn [deref lift].
  unfold pbind at 1. unfold pbind at 1, get at 1.
  destruct (log_eta_pmf g); cbn [deref lift]; [|reflexivity].
  unfold pbind at 1. unfold zth, lift.
  destruct (n_rules rs - 1 <? 0); [reflexivity|].
  destruct (Z.to_nat (n_rules rs - 1)); reflexivity.
Qed.

(** [train] frees the tables of the prior and leaves the pointers as they
    are: a second [train] in the same process, which finds
    [log_lambda_pmf] not [NULL], does not return. *)
Theorem train_twice_reads_freed_tables :
  forall fuel train_data initialization method params g pm g',
    train fuel train_data initialization method params g = Ret (pm, g') ->
    log_lambda_pmf g' = Some [] /\
    (forall rs rules nrules labels params2 ifPrint l4b,
        compute_log_posterior rs rules nrules labels params2 ifPrint l4b g'
        = Fail Undefined) /\
    (forall fuel2 train_data2 initialization2 method2 params2,
        exists e, train fuel2 train_data2 initialization2 method2 params2 g' = Fail e).
Proof.
  intros fuel train_data initialization method params g pm g' H.
  unfold train in H.
  apply pbind_ret in H. destruct H as (b & g1 & H1 & H).
  apply pbind_ret in H. destruct H as (theta & g2 & H2 & H).
  apply lift_ret in H2. destruct H2 as [_ ->].
  apply pbind_ret in H. destruct H as (u & g3 & H3 & H).
  apply pret_ret in H. destruct H as [_ ->].
  apply train_chains_tables in H1.
  injection H3 as _ <-.
  assert (E : log_lambda_pmf
                (set_pmf (option_map (fun _ => []) (log_lambda_pmf g1))
                         (option_map (fun _ => []) (log_eta_pmf g1)) (eta_norm g1) g1)
              = Some []).
  { cbn. destruct (log_lambda_pmf g1); [reflexivity|congruence]. }
  split; [exact E|]. split.
  - intros. apply compute_after_free. exact E.
  - intros fuel2 td2 i2 m2 p2.
    set (gf := set_pmf _ _ _ g1) in *.
    unfold train, train_chains, run_mcmc, mcmc_start.
    unfold pbind at 1. unfold pbind at 1. unfold pbind at 1. unfold pbind at 1.
    unfold pbind at 1. unfold modify at 1.
    destruct fuel2 as [|f2]; cbn [mcmc_init].
    + change (dlt d_m1e10 d_m1e9) with true. cbn. eauto.
    + change (dlt d_m1e10 d_m1e9) with true. cbv iota.
      unfold pbind at 1.
      destruct (with_rng _ _) as [[rs0 g4]|e] eqn:Ew; [|eauto].
      unfold pbind at 1.
      rewrite compute_after_free; [eauto|].
      pose proof (with_rng_tables _ _ _ _ Ew) as T.
      unfold tables_of in T. injection T as T _ _. rewrite T. exact E.
Qed.

(** With [nchain <= 1], also zero or negative, [train] runs one chain and
    returns its list, with one probability for each of its rules. *)
Theorem train_runs_one_chain_at_least :
  forall fuel train_data initialization method params g pm g',
    nchain params <= 1 ->
    train fuel train_data initialization method params g = Ret (pm, g') ->
    exists g1 pos pb g2,
      run_mcmc fuel (iters params) (init_size params) (td_nsamples train_data)
        (td_nrules train_data) (td_rules train_data) (td_labels train_data)
        params d_m1e9 g = Ret (pm_rs pm, g1) /\
      compute_log_posterior (pm_rs pm) (td_rules train_data) (td_nrules train_data)
        (td_labels train_data) params 1 (-1) g1 = Ret ((pos, pb), g2) /\
      train_chains fuel train_data params g
      = Ret ({| best_rs := pm_rs pm; max_pos := pos; destroyed := [] |}, g2) /\
      get_theta (pm_rs pm) (td_rules train_data) (td_labels train_data) params
      = Ret (pm_theta pm) /\
      Z.of_nat (length (pm_theta pm)) = Z.max 0 (n_rules (pm_rs pm)).
Proof.
  intros fuel train_data initialization method params g pm g' Hn H.
  unfold train in H.
  apply pbind_ret in H. destruct H as (b & g1 & H1 & H).
  apply pbind_ret in H. destruct H as (theta & g2 & H2 & H).
  apply lift_ret in H2. destruct H2 as [H2 ->].
  apply pbind_ret in H. destruct H as (u & g3 & H3 & H).
  apply pret_ret in H. destruct H as [-> _]. cbn [pm_rs pm_theta].
  pose proof H1 as H1'.
  unfold train_chains in H1.
  apply pbind_ret in H1. destruct H1 as (rs & g4 & H4 & H1).
  apply pbind_ret in H1. destruct H1 as ([pos pb] & g5 & H5 & H1).
  cbv zeta in H1.
  replace (Z.to_nat (nchain params - 1)) with 0%nat in H1 by lia.
  cbn [pfor_range] in H1. apply pret_ret in H1. destruct H1 as [-> ->].
  cbn [best_rs] in *.
  exists g4, pos, pb, g5. split; [exact H4|]. split; [exact H5|].
  split; [exact H1'|]. split; [exact H2|].
  unfold get_theta in H2. apply rbind_ret in H2. destruct H2 as (label0 & _ & H2).
  destruct (theta_loop _ _ _ _ 0%nat _ _ H2 eq_refl) as (Hlen & _). lia.
Qed.

End TrainMore.

Section Indices.
Context {M : MathLib} {L : RuleLib}.

Lemma rand_range g r g' : rand g = Ret (r, g') -> 0 <= r <= RAND_MAX.
Proof. rewrite rand_run. intros H. injection H as <- _. apply next_draw_range. Qed.


Lemma c_mod_defined r n i : c_mod r n = Ret i -> n <> 0.
Proof. unfold c_mod. destruct (n =? 0) eqn:E; [discriminate|]. intros _. now apply Z.eqb_neq. Qed.


End Indices.

Section Regime.
Context {M : MathLib} {L : RuleLib}.

(** The moves that the table allows: a swap needs [n_rules >= 3], a delete
    [n_rules >= 2], and in a library of at least four rules an add is
    proposed to a list of at most [nrules - 1] rules only when it has at
    most [nrules - 2]. *)
Lemma proposal_move_regime fuel rs nrules g p g' :
  1 <= n_rules rs ->
  ruleset_proposal fuel rs nrules g = Ret (p, g') ->
  match stepchar p with
  | StepS => 3 <= n_rules rs
  | StepA => 4 <= nrules -> n_rules rs <= nrules - 1 -> n_rules rs <= nrules - 2
  | StepD => 2 <= n_rules rs
  end.
Proof.
  intros Hn H.
  unfold ruleset_proposal in H. rewrite moveProbs_table in H.
  apply pbind_ret in H. destruct H as (r & g1 & Hr & H).
  apply rand_range in Hr. cbv zeta in H.
  pose proof (unit_double_nonneg r (proj1 Hr)) as Hu.
  unfold move_probabilities in H.
  destruct (dlt (unit_double r) _) eqn:E1 in H.
  - run_inv. cbn [stepchar].
    destruct (n_rules rs =? 1) eqn:N1; [cbn in E1; congruence|].
    destruct (n_rules rs =? 2) eqn:N2; [cbn in E1; congruence|].
    apply Z.eqb_neq in N1, N2. lia.
  - destruct (dlt (unit_double r) _) eqn:E2 in H.
    + run_inv. cbn [stepchar]. intros H4 Hle.
      destruct (n_rules rs =? 1) eqn:N1; [apply Z.eqb_eq in N1; lia|].
      destruct (n_rules rs =? 2) eqn:N2; [apply Z.eqb_eq in N2; lia|].
      destruct (n_rules rs =? nrules - 1) eqn:N3.
      * cbn in E1, E2. change (dadd d0_5 d0) with d0_5 in E2. congruence.
      * apply Z.eqb_neq in N3. lia.
    + destruct (dlt (unit_double r) _) eqn:E3 in H; [|discriminate H].
      run_inv. cbn [stepchar].
      destruct (n_rules rs =? 1) eqn:N1.
      * cbn in E2, E3. change (dadd (dadd d0 d1) d0) with (dadd d0 d1) in E3. congruence.
      * apply Z.eqb_neq in N1. lia.
Qed.

End Regime.

Section IndexRanges.
Context {M : MathLib} {L : RuleLib}.


End IndexRanges.

(** ** Simulated annealing *)

Lemma block_temperature_range i :
  1 <= i <= 27 ->
  dlt d0 (block_temperature i) = true /\ dle (block_temperature i) d0_5 = true.
Proof.
  intros Hi.
  assert (H : (dlt d0 (block_temperature i) && dle (block_temperature i) d0_5)%bool = true).
  { apply (in_range_cases
             (fun i => (dlt d0 (block_temperature i) && dle (block_temperature i) d0_5)%bool)
             1 27); [vm_compute; reflexivity|lia]. }
  apply andb_true_iff in H. exact H.
Qed.

Section Annealing.
Context {M : MathLib} {L : RuleLib}.

Lemma schedule_step_temperatures i st st' (P : double -> Prop) :
  schedule_step i st = Ret st' ->
  P (block_temperature i) ->
  Forall P (sched_T st) ->
  Forall P (sched_T st') /\ Z.of_nat (length (sched_T st')) <= 100000.
Proof.
  unfold schedule_step. intros H Hp Hall.
  apply rbind_ret in H. destruct H as (lo & _ & H).
  apply rbind_ret in H. destruct H as (hi & _ & H).
  cbv zeta in H.
  destruct (Z.of_nat (length _) <=? 100000) eqn:E in H; [|discriminate].
  injection H as <-. cbn [sched_T]. split; [|apply Z.leb_le; exact E].
  apply Forall_app. split; [exact Hall|].
  apply Forall_forall. intros x Hx. apply repeat_spec in Hx. subst x. exact Hp.
Qed.

Lemma schedule_loop_temperatures (P : double -> Prop) (n : nat) :
  forall i st st',
    for_range n i schedule_step st = Ret st' ->
    (forall k, i <= k < i + Z.of_nat n -> P (block_temperature k)) ->
    Forall P (sched_T st) ->
    Z.of_nat (length (sched_T st)) <= 100000 ->
    Forall P (sched_T st') /\ Z.of_nat (length (sched_T st')) <= 100000.
Proof.
  induction n as [|n IH]; intros i st st' H Hp Hall Hlen; cbn [for_range] in H.
  - injection H as <-. auto.
  - apply rbind_ret in H. destruct H as (s1 & H1 & H2).
    destruct (schedule_step_temperatures _ _ _ P H1) as [Hall1 Hlen1];
      [apply Hp; lia|exact Hall|].
    apply (IH _ _ _ H2); [|exact Hall1|exact Hlen1].
    intros k Hk. apply Hp. lia.
Qed.

(** Whatever [exp] returns, every temperature of a schedule that fits
    [T] is one of [1/2, ..., 1/28]: it is positive and at most [1/2], so
    that [sa_accepts] never divides by zero, a negative number or NaN; and
    the schedule has at most 100000 temperatures. *)
Theorem cooling_schedule_temperatures :
  forall T,
    cooling_schedule = Ret T ->
    Z.of_nat (length T) <= 100000 /\
    Forall (fun tk => (exists i, 1 <= i <= 27 /\ tk = block_temperature i) /\
                      dlt d0 tk = true /\ dle tk d0_5 = true) T.
Proof.
  intros T H. unfold cooling_schedule in H.
  apply rbind_ret in H. destruct H as (st & H & E). injection E as <-.
  destruct (schedule_loop_temperatures
              (fun tk => (exists i, 1 <= i <= 27 /\ tk = block_temperature i) /\
                         dlt d0 tk = true /\ dle tk d0_5 = true)
              _ _ _ _ H) as [Hall Hlen]; auto.
  - intros k Hk. split; [exists k; split; [lia|reflexivity]|].
    apply block_temperature_range. lia.
  - cbn. lia.
Qed.

(** Simulated annealing accepts a proposal that passes the bound and has
    a log posterior above the current one at every temperature, and draws
    no random number to decide. *)
Theorem sa_accepts_improvement :
  forall fuel rs rules labels nrules old mx cnt0 tk params g ev g1,
    propose_eval fuel rs rules labels nrules params g = Ret (ev, g1) ->
    dgt (prefix_bound ev) mx = true ->
    dgt (new_log_post ev) old = true ->
    propose fuel rs rules labels nrules old mx cnt0 (ExtraCell tk) params sa_accepts g =
    Ret ({| rs_ret := rs_new ev; jump_prob_out := ev_jump_prob ev;
            ret_log_post := new_log_post ev; cnt := cnt0 |}, g1).
Proof.
  intros fuel rs rules labels nrules old mx cnt0 tk params g ev g1 He Hb Hup.
  unfold propose. rewrite (pbind_run _ _ _ _ _ He).
  unfold propose_decide, sa_accepts. rewrite Hb, Hup.
  unfold dgt in Hb. rewrite (dlt_asym _ _ Hb). reflexivity.
Qed.




End Annealing.

(** ** The quotient [(double)rand() / RAND_MAX] *)

Lemma shr_record_of_loc_m m l : shr_m (shr_record_of_loc m l) = m.
Proof. destruct l as [|[| |]]; reflexivity. Qed.

(** The last step of a rounding to [double]: a mantissa of 53 digits is
    kept, and [2^53] becomes [2^52] with the exponent one higher. *)
Lemma round_double_last s m e :
  2 ^ 52 <= Zpos m <= 2 ^ 53 -> -1074 <= e <= 970 ->
  exists m' e',
    (let '(mrs, e2) := shr_fexp prec64 emax64 (Zpos m) e loc_Exact in
     match shr_m mrs with
     | Z0 => S754_zero s
     | Zpos m2 =>
         if e2 <=? emax64 - prec64 then S754_finite s m2 e2 else S754_infinity s
     | _ => S754_nan
     end) = S754_finite s m' e' /\
    2 ^ 52 <= Zpos m' /\
    ((e' = e /\ m' = m) \/ (e' = e + 1 /\ Zpos m = 2 ^ 53 /\ Zpos m' = 2 ^ 52)).
Proof.
  intros Hm He.
  destruct (Z.eq_dec (Zpos m) (2 ^ 53)) as [E | Hne].
  - change (2 ^ 53) with (Zpos 9007199254740992) in E. injection E as ->.
    exists 4503599627370496%positive, (e + 1).
    unfold shr_fexp. cbn [Zdigits2 shr_record_of_loc digits2_pos Pos.succ].
    replace (fexp prec64 emax64 (54 + e) - e) with 1
      by (unfold fexp, emin, prec64, emax64; lia).
    cbn [shr iter_pos shr_1 shr_m orb].
    replace (e + 1 <=? emax64 - prec64) with true
      by (symmetry; apply Z.leb_le; unfold emax64, prec64; lia).
    split; [reflexivity|]. split; [reflexivity|]. right. repeat split; reflexivity.
  - assert (Hd : Zpos (digits2_pos m) = 53)
      by (apply digits2_pos_unique; change (53 - 1) with 52; lia).
    exists m, e.
    unfold shr_fexp. cbn [Zdigits2 shr_record_of_loc]. rewrite Hd.
    replace (fexp prec64 emax64 (53 + e) - e) with 0
      by (unfold fexp, emin, prec64, emax64; lia).
    cbn [shr shr_m].
    replace (e <=? emax64 - prec64) with true
      by (symmetry; apply Z.leb_le; unfold emax64, prec64; lia).
    split; [reflexivity|]. split; [lia|]. left. split; reflexivity.
Qed.

(** Rounding a positive integer of at least 53 digits, times [2^e], to
    [double]: the result is positive and at most one unit of the last place
    kept above it. *)
Lemma round_aux_above q e l :
  53 <= Zpos (digits2_pos q) ->
  -1074 <= e -> e + (Zpos (digits2_pos q) - 53) <= 970 ->
  exists mz ez,
    binary_round_aux prec64 emax64 false (Zpos q) e l = S754_finite false mz ez /\
    2 ^ 52 <= Zpos mz /\ e <= ez /\
    Zpos mz * 2 ^ (ez - e) <= Zpos q + 2 ^ (Zpos (digits2_pos q) - 53).
Proof.
  intros Hd He Hhi. pose proof (digits2_pos_bounds q) as Hb.
  set (d := Zpos (digits2_pos q)) in *.
  set (sh := d - 53).
  assert (Hsh : 0 <= sh) by (unfold sh; lia).
  assert (H2 : 0 < 2 ^ sh) by (apply Z.pow_pos_nonneg; lia).
  assert (Hq : 2 ^ 52 <= Zpos q / 2 ^ sh < 2 ^ 53).
  { replace d with (53 + sh) in Hb by (unfold sh; lia).
    replace (53 + sh - 1) with (52 + sh) in Hb by lia.
    rewrite !Z.pow_add_r in Hb by lia. split.
    - apply Z.div_le_lower_bound; lia.
    - apply Z.div_lt_upper_bound; lia. }
  pose proof (Z.mul_div_le (Zpos q) (2 ^ sh) H2) as Hfl.
  unfold binary_round_aux at 1. unfold shr_fexp at 1.
  cbn [Zdigits2]. fold d.
  replace (fexp prec64 emax64 (d + e) - e) with sh
    by (unfold fexp, emin, prec64, emax64, sh; lia).
  assert (Hshr : exists mrs,
             shr (shr_record_of_loc (Zpos q) l) e sh = (mrs, e + sh) /\
             shr_m mrs = Zpos q / 2 ^ sh).
  { destruct sh as [|p|p] eqn:Esh; [| |lia].
    - eexists. cbn [shr]. split; [f_equal; lia|].
      rewrite shr_record_of_loc_m. change (2 ^ 0) with 1. symmetry. apply Z.div_1_r.
    - eexists. cbn [shr]. split; [reflexivity|].
      rewrite iter_shr_1_m; rewrite shr_record_of_loc_m; [reflexivity|lia]. }
  destruct Hshr as (mrs & -> & Hm).
  assert (Hr : exists m, round_nearest_even (shr_m mrs) (loc_of_shr_record mrs) = Zpos m /\
                         2 ^ 52 <= Zpos m <= 2 ^ 53 /\
                         Zpos m <= Zpos q / 2 ^ sh + 1).
  { destruct (round_nearest_even_cases (shr_m mrs) (loc_of_shr_record mrs)) as [-> | ->];
      rewrite Hm.
    - destruct (Zpos q / 2 ^ sh) as [|m|m] eqn:EQ; try lia.
      exists m. split; [reflexivity|lia].
    - destruct (Zpos q / 2 ^ sh + 1) as [|m|m] eqn:EQ; try lia.
      exists m. split; [reflexivity|lia]. }
  destruct Hr as (m & -> & Hmb & Hle).
  destruct (round_double_last false m (e + sh) Hmb ltac:(unfold sh; lia))
    as (m' & e' & -> & Hm' & Hcase).
  exists m', e'. split; [reflexivity|]. split; [exact Hm'|].
  destruct Hcase as [[-> ->] | (-> & E53 & E52)].
  - split; [lia|]. replace (e + sh - e) with sh by lia. nia.
  - split; [lia|]. replace (e + sh + 1 - e) with (sh + 1) by lia.
    rewrite Z.pow_add_r by lia. change (2 ^ 1) with 2.
    rewrite E52. change (2 ^ 53) with (2 ^ 52 * 2) in E53. nia.
Qed.

Lemma d_of_int_RAND_MAX : d_of_int RAND_MAX = S754_finite false 9007199250546688 (-22).
Proof. reflexivity. Qed.

(** [(double)r / RAND_MAX] is below 1 for a draw below [RAND_MAX]. *)
Lemma unit_double_below_one r :
  0 <= r < RAND_MAX -> dlt (unit_double r) d1 = true.
Proof.
  intros Hr. destruct (Z.eq_dec r 0) as [-> | Hne]; [reflexivity|].
  unfold unit_double. rewrite d_of_int_RAND_MAX.
  destruct r as [|p|p]; try lia.
  unfold d_of_int, binary_normalize.
  destruct (binary_round_exact false p) as (ma & ea & -> & Hda & Hea & Hma).
  { unfold RAND_MAX in Hr. change (2 ^ 53) with 9007199254740992. lia. }
  pose proof (digits2_pos_bounds ma) as Hba. rewrite Hda in Hba.
  change (Zpos 53 - 1) with 52 in Hba. change (Zpos 53) with 53 in Hba.
  assert (H2e : 0 < 2 ^ (- ea)) by (apply Z.pow_pos_nonneg; lia).
  assert (Hea22 : ea <= -22).
  { destruct (Z.le_gt_cases ea (-22)) as [|Hgt]; [assumption|exfalso].
    assert (2 ^ (- ea) <= 2 ^ 21) by (apply Z.pow_le_mono_r; lia).
    unfold RAND_MAX in Hr. change (2 ^ 52) with (2147483648 * 2 ^ 21) in Hba. nia. }
  unfold ddiv, SFdiv, SFdiv_core_binary. cbn [Zdigits2 xorb].
  rewrite Hda. change (Zpos (digits2_pos 9007199250546688)) with 53.
  replace (Z.min (fexp prec64 emax64 (53 + ea - (53 + -22))) (ea - -22)) with (ea - 31)
    by (unfold fexp, emin, prec64, emax64; lia).
  replace (ea - -22 - (ea - 31)) with 53 by lia.
  rewrite Z.shiftl_mul_pow2 by lia.
  pose proof (Z.div_eucl_eq (Zpos ma * 2 ^ 53) 9007199250546688 ltac:(lia)) as Heq.
  pose proof (Z.mod_pos_bound (Zpos ma * 2 ^ 53) 9007199250546688 ltac:(lia)) as Hmod.
  unfold Z.modulo in Hmod.
  destruct (Z.div_eucl (Zpos ma * 2 ^ 53) 9007199250546688) as [q rem].
  assert (Hq : 2 ^ 52 <= q).
  { change (2 ^ 53) with 9007199254740992 in *. change (2 ^ 52) with 4503599627370496 in *. nia. }
  destruct q as [|q|q]; try lia.
  pose proof (digits2_pos_bounds q) as Hbq.
  set (d := Zpos (digits2_pos q)) in *.
  assert (Hd : 53 <= d).
  { destruct (Z.le_gt_cases 53 d) as [|Hlt]; [assumption|exfalso].
    assert (2 ^ d <= 2 ^ 52) by (apply Z.pow_le_mono_r; lia). lia. }
  assert (Hqhi : Zpos q < 2 ^ 54).
  { change (2 ^ 53) with 9007199254740992 in *. change (2 ^ 54) with 18014398509481984. nia. }
  assert (Hd54 : d <= 54).
  { destruct (Z.le_gt_cases d 54) as [|Hgt]; [assumption|exfalso].
    assert (2 ^ 54 <= 2 ^ (d - 1)) by (apply Z.pow_le_mono_r; lia). lia. }
  destruct (round_aux_above q (ea - 31) (new_location 9007199250546688 rem))
    as (mz & ez & -> & Hmz & Hez & Hval); [exact Hd|lia|fold d; lia|].
  fold d in Hval.
  unfold dlt, SFltb, SFcompare, d1.
  destruct (Z.compare_spec ez (-52)) as [E | E | E]; [| reflexivity |]; exfalso.
  all: assert (Hez52 : -52 <= ez) by lia; clear E.
  all: set (W := 2 ^ (-22 - ea)).
  all: assert (HW : 1 <= W) by (assert (0 < W) by (apply Z.pow_pos_nonneg; lia); lia).
  all: assert (HX : 2 ^ (- ea) = 4194304 * W)
         by (unfold W; change 4194304 with (2 ^ 22);
             rewrite <- Z.pow_add_r by lia; f_equal; lia).
  all: assert (HY : 2 * W <= 2 ^ (ez - (ea - 31)))
         by (unfold W; change 2 with (2 ^ 1) at 1;
             rewrite <- Z.pow_add_r by lia; apply Z.pow_le_mono_r; lia).
  all: assert (HD : 2 ^ (d - 53) <= 2)
         by (change 2 with (2 ^ 1) at 2; apply Z.pow_le_mono_r; lia).
  all: set (Y := 2 ^ (ez - (ea - 31))) in *.
  all: assert (A1 : 9007199254740992 * W <= Zpos mz * Y)
         by (change (2 ^ 52) with 4503599627370496 in Hmz; nia).
  all: assert (A3 : 9007199250546688 * Zpos q <= Zpos p * (4194304 * W) * 9007199254740992)
         by (rewrite <- HX, <- Hma; change (2 ^ 53) with 9007199254740992 in Heq; lia).
  all: assert (A4 : Zpos p * W <= 2147483646 * W) by (unfold RAND_MAX in Hr; nia).
  all: lia.
Qed.

(** All rows of the table of move probabilities sum to 1. *)
Lemma move_probabilities_sum n_rules nrules :
  let '(pS, pA, pD) := move_probabilities n_rules nrules in
  dadd (dadd pS pA) pD = d1.
Proof.
  unfold move_probabilities.
  destruct (n_rules =? 1); [reflexivity|].
  destruct (n_rules =? 2); [reflexivity|].
  destruct (n_rules =? nrules - 1); [reflexivity|].
  destruct (n_rules =? nrules - 2); reflexivity.
Qed.

Section LastDraw.
Context {M : MathLib} {L : RuleLib}.

(** The probabilities of every row sum to 1 and [u] is 1 exactly when
    [rand()] returns [RAND_MAX]: with a draw below [RAND_MAX] one of the
    three moves is selected, and with [RAND_MAX] none is, [index1],
    [index2] and [*stepchar] are not assigned and [ruleset_proposal] copies
    the uninitialised indices out. *)
Theorem ruleset_proposal_selects_no_move_at_RAND_MAX :
  forall fuel rs nrules g,
    let r := fst (next_draw (rng g)) in
    (r < RAND_MAX ->
     let '(pS, pA, pD) := move_probabilities (n_rules rs) nrules in
     dlt (unit_double r) (dadd (dadd pS pA) pD) = true) /\
    (r = RAND_MAX -> ruleset_proposal fuel rs nrules g = Fail Undefined).
Proof.
  intros fuel rs nrules g r. split.
  - intros Hr. pose proof (move_probabilities_sum (n_rules rs) nrules) as Hs.
    destruct (move_probabilities (n_rules rs) nrules) as [[pS pA] pD]. rewrite Hs.
    apply unit_double_below_one. pose proof (next_draw_range (rng g)). fold r in H. lia.
  - intros Hr. unfold ruleset_proposal. rewrite moveProbs_table.
    unfold pbind at 1. rewrite rand_run. fold r. rewrite Hr.
    change (unit_double RAND_MAX) with d1.
    unfold move_probabilities.
    destruct (n_rules rs =? 1); [reflexivity|].
    destruct (n_rules rs =? 2); [reflexivity|].
    destruct (n_rules rs =? nrules - 1); [reflexivity|].
    destruct (n_rules rs =? nrules - 2); reflexivity.
Qed.

End LastDraw.

Section Outcome.
Context {M : MathLib} {L : RuleLib}.

(** What [propose] returns, with either predicate. One move is counted.
    A rejected proposal leaves the list and [*ret_log_post]; an accepted one
    replaces both, has a prefix bound above [max_log_post] and a log
    posterior that is a number, and does not move the reject counter. *)
Theorem propose_outcome :
  forall fuel rs rules labels nrules old mx cnt0 extra params accept_func g p g',
    accept_func = mcmc_accepts \/ accept_func = sa_accepts ->
    propose fuel rs rules labels nrules old mx cnt0 extra params accept_func g
    = Ret (p, g') ->
    exists ev g1,
      propose_eval fuel rs rules labels nrules params g = Ret (ev, g1) /\
      jump_prob_out p = ev_jump_prob ev /\
      moves g' = moves g + 1 /\
      ((rs_ret p = rs /\ ret_log_post p = old /\
        cnt p = if dlt (prefix_bound ev) mx then cnt0 + 1 else cnt0) \/
       (rs_ret p = rs_new ev /\ ret_log_post p = new_log_post ev /\
        cnt p = cnt0 /\ dgt (prefix_bound ev) mx = true /\
        is_nan (new_log_post ev) = false)).
Proof.
  intros fuel rs rules labels nrules old mx cnt0 extra params acc g p g' Hacc H.
  unfold propose in H.
  apply pbind_ret in H. destruct H as (ev & g1 & He & H).
  exists ev, g1. split; [exact He|].
  destruct (propose_eval_inv _ _ _ _ _ _ _ _ _ He) as (Mv & _).
  unfold propose_decide in H.
  apply pbind_ret in H. destruct H as (b & g2 & Hb & H).
  assert (Hm : moves_of g2 = moves_of g1).
  { destruct Hacc as [-> | ->];
      [exact (mcmc_accepts_moves _ _ _ _ _ _ _ _ Hb)
      |exact (sa_accepts_moves _ _ _ _ _ _ _ _ Hb)]. }
  assert (Hg : dgt (prefix_bound ev) mx = false -> b = false).
  { intros E. destruct Hacc as [-> | ->];
      [rewrite (mcmc_accepts_guarded _ _ _ _ _ _ E) in Hb
      |rewrite (sa_accepts_guarded _ _ _ _ _ _ E) in Hb]; congruence. }
  assert (Hn : is_nan (new_log_post ev) = true -> b = false).
  { intros E. apply is_nan_eq in E. rewrite E in Hb.
    destruct Hacc as [-> | ->];
      [destruct (mcmc_accepts_nan old (prefix_bound ev) mx
                   (read_extra extra (ev_jump_prob ev)) g1) as (g3 & H3 & _)
      |destruct (sa_accepts_nan old (prefix_bound ev) mx
                   (read_extra extra (ev_jump_prob ev)) g1) as (g3 & H3 & _)];
      congruence. }
  unfold moves_of in Hm. injection Hm as Ha Hd Hs.
  destruct b; apply pret_ret in H; destruct H as [-> ->];
    cbn [jump_prob_out rs_ret ret_log_post cnt];
    (split; [reflexivity|]); (split; [unfold moves in *; lia|]).
  - right. destruct (dgt (prefix_bound ev) mx) eqn:E; [|specialize (Hg eq_refl); discriminate].
    destruct (is_nan (new_log_post ev)) eqn:N; [specialize (Hn eq_refl); discriminate|].
    unfold dgt in E. rewrite (dlt_asym _ _ E). auto.
  - left. auto.
Qed.

(** The loop that draws the initial list of a chain stops at the first
    list whose prefix bound, computed with [length4bound = 0], is not below
    [v_star]: [mcmc_start] returns exactly when, within the fuel, a turn [n]
    leaves such a list, every turn before it (and the start, with
    [prefix_bound = -1e10]) having left a bound below [v_star], and the list
    has a backup; the chain then starts with this list as the best one and
    no reject counted. So the loop is entered only when [v_star] is above
    [-1e10], and no move is counted when the chain starts. *)
Theorem mcmc_start_draws_until_bound :
  forall fuel init_size nsamples nrules rules labels params v_star g st0 g0,
    (mcmc_start fuel init_size nsamples nrules rules labels params v_star g
     = Ret (st0, g0) <->
     exists (n : nat) rs lp pb ids,
       (n <= fuel)%nat /\
       (forall k, (k < n)%nat ->
          exists r l p gk,
            init_turns k init_size nsamples nrules rules labels params
              (None, d0, d_m1e10) (set_moves 0 0 0 g) = Ret ((r, l, p), gk) /\
            dlt p v_star = true) /\
       init_turns n init_size nsamples nrules rules labels params
         (None, d0, d_m1e10) (set_moves 0 0 0 g) = Ret ((Some rs, lp, pb), g0) /\
       dlt pb v_star = false /\
       ruleset_backup rs = Ret ids /\
       st0 = {| cur_rs := rs; log_post_rs := lp; max_log_posterior := lp;
                rs_idarray := ids; len := n_rules rs; nsuccessful_rej := 0 |}) /\
    (mcmc_start fuel init_size nsamples nrules rules labels params v_star g
     = Ret (st0, g0) ->
     dlt d_m1e10 v_star = true /\
     (exists g1 pb,
         compute_log_posterior (cur_rs st0) rules nrules labels params 0 0 g1
         = Ret ((log_post_rs st0, pb), g0) /\
         dlt pb v_star = false) /\
     max_log_posterior st0 = log_post_rs st0 /\
     nsuccessful_rej st0 = 0 /\ moves g0 = 0 /\
     chain_coherent rules labels nrules params st0 g0).
Proof.
  intros fuel init_size nsamples nrules rules labels params v_star g st0 g0.
  split; [split|].
  - intros H. unfold mcmc_start in H.
    apply pbind_ret in H. destruct H as (u & g1 & H1 & H).
    injection H1 as _ <-.
    apply pbind_ret in H. destruct H as ([rs0 lp] & g2 & H2 & H).
    cbv zeta in H.
    apply pbind_ret in H. destruct H as (rs & g3 & H3 & H).
    apply lift_ret in H3. destruct H3 as [H3 ->].
    apply pbind_ret in H. destruct H as (ids & g4 & H4 & H).
    apply lift_ret in H4. destruct H4 as [H4 ->].
    apply pret_ret in H. destruct H as [Hst ->].
    destruct rs0 as [r|]; [|discriminate H3]. injection H3 as ->.
    destruct (mcmc_init_turns _ _ _ _ _ _ _ _ _ _ _ _ _ _ _ H2)
      as (n & pb & Hn & Hb & Ht & Hp).
    exists n, rs, lp, pb, ids. repeat split; auto.
  - intros (n & rs & lp & pb & ids & Hn & Hb & Ht & Hp & Hids & ->).
    unfold mcmc_start, modify. unfold pbind at 1. cbv beta iota.
    unfold pbind at 1.
    rewrite (turns_mcmc_init _ _ _ _ _ _ _ n fuel _ _ _ _ _ _ _ _ Hn Hb Ht Hp).
    cbv zeta. unfold pbind, lift, deref, pret. rewrite Hids. reflexivity.
  - intros H.
    destruct (mcmc_start_inv _ _ _ _ _ _ _ _ _ _ _ H)
      as (Hv & Hpb & Hmax & _ & _ & Hrej & Mv).
    split; [exact Hv|]. split; [exact Hpb|]. split; [exact Hmax|]. split; [exact Hrej|].
    split; [|exact (mcmc_start_coherent _ _ _ _ _ _ _ _ _ _ _ H)].
    unfold moves_of in Mv. injection Mv as Ha Hd Hs. unfold moves. lia.
Qed.

(** When the list of the first chain has a log posterior that is NaN, or
    not above [-1e10], the second chain gets it as [v_star], skips the loop
    that draws its initial list and reads [rs], which is [NULL]. *)
Theorem train_second_chain_needs_number :
  forall fuel train_data initialization method params g rs g1 pos pb g2,
    run_mcmc fuel (iters params) (init_size params) (td_nsamples train_data)
      (td_nrules train_data) (td_rules train_data) (td_labels train_data)
      params d_m1e9 g = Ret (rs, g1) ->
    compute_log_posterior rs (td_rules train_data) (td_nrules train_data)
      (td_labels train_data) params 1 (-1) g1 = Ret ((pos, pb), g2) ->
    dlt d_m1e10 pos = false ->
    2 <= nchain params ->
    train fuel train_data initialization method params g = Fail Undefined.
Proof.
  intros fuel train_data initialization method params g rs g1 pos pb g2 H1 H2 E Hn.
  unfold train, train_chains.
  unfold pbind at 1. unfold pbind at 1. rewrite H1.
  unfold pbind at 1. rewrite H2.
  destruct (Z.to_nat (nchain params - 1)) as [|n] eqn:En; [lia|].
  cbn [pfor_range]. unfold pbind at 1. unfold train_chain at 1.
  unfold pbind at 1. cbn [max_pos].
  rewrite run_mcmc_null by exact E. reflexivity.
Qed.

End Outcome.

Section ListLength.
Context {M : MathLib} {L : RuleLib}.
Variable well_formed : ruleset_t -> Prop.
Hypothesis copy_keeps : forall rs rs',
  well_formed rs -> ruleset_copy rs = Ret rs' ->
  well_formed rs' /\ n_rules rs' = n_rules rs.
Hypothesis add_one : forall rules nrules rs id pos rs',
  well_formed rs -> ruleset_add rules nrules rs id pos = Ret rs' ->
  well_formed rs' /\ n_rules rs' = n_rules rs + 1.
Hypothesis delete_one : forall rules nrules rs pos rs',
  well_formed rs -> ruleset_delete rules nrules rs pos = Ret rs' ->
  well_formed rs' /\ n_rules rs' = n_rules rs - 1.
Hypothesis swap_none : forall rs i j rules rs',
  well_formed rs -> ruleset_swap_any rs i j rules = Ret rs' ->
  well_formed rs' /\ n_rules rs' = n_rules rs.

Lemma propose_eval_length fuel rs rules labels nrules params g ev g1 :
  4 <= nrules -> well_formed rs -> 1 <= n_rules rs <= nrules - 1 ->
  propose_eval fuel rs rules labels nrules params g = Ret (ev, g1) ->
  well_formed (rs_new ev) /\ 1 <= n_rules (rs_new ev) <= nrules - 1.
Proof.
  intros H4 Hwf Hn H. unfold propose_eval in H.
  apply pbind_ret in H. destruct H as (rs_copy & g2 & H2 & H).
  apply lift_ret in H2. destruct H2 as [H2 ->].
  destruct (copy_keeps _ _ Hwf H2) as [Hwf2 Hn2].
  apply pbind_ret in H. destruct H as (p & g3 & H3 & H).
  apply proposal_move_regime in H3; [|lia].
  apply pbind_ret in H. destruct H as ([rs' change_ndx] & g4 & H4' & H).
  cbv zeta in H.
  apply pbind_ret in H. destruct H as ([nlp pb] & g5 & H5 & H).
  apply pret_ret in H. destruct H as [-> _]. cbn [rs_new].
  destruct (stepchar p);
    apply pbind_ret in H4'; destruct H4' as (r & g6 & H6 & H4');
    apply lift_ret in H6; destruct H6 as [H6 ->];
    apply pbind_ret in H4'; destruct H4' as (u & g7 & _ & H4');
    apply pret_ret in H4'; destruct H4' as [H4' _]; injection H4' as <- _.
  - destruct (add_one _ _ _ _ _ _ Hwf2 H6) as [Hw Hl]. split; [exact Hw|].
    specialize (H3 H4). lia.
  - destruct (delete_one _ _ _ _ _ Hwf2 H6) as [Hw Hl]. split; [exact Hw|]. lia.
  - destruct (swap_none _ _ _ _ _ Hwf2 H6) as [Hw Hl]. split; [exact Hw|]. lia.
Qed.

Lemma chain_step_length fuel rules labels nrules params extra accept_func st g st' g' :
  4 <= nrules -> well_formed (cur_rs st) -> 1 <= n_rules (cur_rs st) <= nrules - 1 ->
  chain_step fuel rules labels nrules params extra accept_func st g = Ret (st', g') ->
  well_formed (cur_rs st') /\ 1 <= n_rules (cur_rs st') <= nrules - 1.
Proof.
  intros H4 Hwf Hn H. unfold chain_step in H.
  apply pbind_ret in H. destruct H as (p & g1 & H1 & H).
  unfold propose in H1.
  apply pbind_ret in H1. destruct H1 as (ev & g2 & H2 & H1).
  pose proof (propose_eval_length _ _ _ _ _ _ _ _ _ H4 Hwf Hn H2) as Hev.
  unfold propose_decide in H1.
  apply pbind_ret in H1. destruct H1 as (b & g3 & _ & H1).
  assert (Hp : well_formed (rs_ret p) /\ 1 <= n_rules (rs_ret p) <= nrules - 1)
    by (destruct b; apply pret_ret in H1; destruct H1 as [-> _]; cbn [rs_ret]; auto).
  destruct (dgt (ret_log_post p) (max_log_posterior st)).
  - apply pbind_ret in H. destruct H as (ids & g4 & _ & H).
    apply pret_ret in H. destruct H as [-> _]. exact Hp.
  - apply pret_ret in H. destruct H as [-> _]. exact Hp.
Qed.

(** With a rule library whose [ruleset_copy] and [ruleset_swap_any] keep
    the number of rules, whose [ruleset_add] adds one and whose
    [ruleset_delete] removes one, and at least four rules in the library,
    the list of a chain keeps its default rule and never holds every rule:
    [1 <= n_rules <= nrules - 1] after every iteration of [run_mcmc]. *)
Theorem chain_keeps_list_length :
  forall fuel rules labels nrules params (n : nat) st g st' g',
    4 <= nrules ->
    well_formed (cur_rs st) -> 1 <= n_rules (cur_rs st) <= nrules - 1 ->
    mcmc_iterate fuel rules labels nrules params n st g = Ret (st', g') ->
    well_formed (cur_rs st') /\ 1 <= n_rules (cur_rs st') <= nrules - 1.
Proof.
  intros fuel rules labels nrules params n st g st' g' H4. unfold mcmc_iterate.
  generalize 0 as i. revert st g.
  induction n as [|n IH]; intros st g i Hwf Hn H; cbn [pfor_range] in H.
  - apply pret_ret in H. destruct H as [-> _]. auto.
  - apply pbind_ret in H. destruct H as (s1 & g1 & H1 & H2).
    unfold mcmc_step in H1.
    destruct (chain_step_length _ _ _ _ _ _ _ _ _ _ _ H4 Hwf Hn H1) as [Hwf1 Hn1].
    exact (IH _ _ _ Hwf1 Hn1 H2).
Qed.

End ListLength.

(** ** Fuel, and runs that do not return *)

Lemma returns_as_refl {A} (c : prog A) : returns_as c c.
Proof. intros g a g' H. exact H. Qed.

Lemma returns_as_bind {A B} (c1 c2 : prog A) (k1 k2 : A -> prog B) :
  returns_as c1 c2 -> (forall a, returns_as (k1 a) (k2 a)) ->
  returns_as (pbind c1 k1) (pbind c2 k2).
Proof.
  intros Hc Hk g b g' H. apply pbind_ret in H. destruct H as (a & g1 & H1 & H2).
  unfold pbind. rewrite (Hc _ _ _ H1). exact (Hk _ _ _ _ H2).
Qed.

Lemma returns_as_for {St} (b1 b2 : Z -> St -> prog St) (n : nat) :
  (forall i s, returns_as (b1 i s) (b2 i s)) ->
  forall i s, returns_as (pfor_range n i b1 s) (pfor_range n i b2 s).
Proof.
  intros Hb. induction n as [|n IH]; intros i s; cbn [pfor_range].
  - apply returns_as_refl.
  - apply returns_as_bind; [apply Hb|intros s'; apply IH].
Qed.

Section Fuel.
Context {M : MathLib} {L : RuleLib}.
Variables (f1 f2 : nat).
Hypothesis Hf : (f1 <= f2)%nat.

(** More fuel does not change what a run returns. *)
Lemma draw_other_fuel n index1 :
  returns_as (draw_other f1 n index1) (draw_other f2 n index1).
Proof.
  revert f2 Hf. induction f1 as [|k IH]; intros k2 Hk; [intros g a g' H; discriminate H|].
  destruct k2 as [|k2]; [lia|]. cbn [draw_other].
  apply returns_as_bind; [apply returns_as_refl|intros r].
  apply returns_as_bind; [apply returns_as_refl|intros i].
  destruct (i =? index1); [apply IH; lia|apply returns_as_refl].
Qed.

Lemma ruleset_proposal_fuel rs nrules :
  returns_as (ruleset_proposal f1 rs nrules) (ruleset_proposal f2 rs nrules).
Proof.
  unfold ruleset_proposal. cbv zeta.
  apply returns_as_bind; [apply returns_as_refl|intros r].
  destruct (dlt _ _); [|apply returns_as_refl].
  apply returns_as_bind; [apply returns_as_refl|intros r1].
  apply returns_as_bind; [apply returns_as_refl|intros i1].
  apply returns_as_bind; [apply draw_other_fuel|intros i2]. apply returns_as_refl.
Qed.

Lemma propose_fuel rs rules labels nrules old mx cnt0 extra params accept_func :
  returns_as (propose f1 rs rules labels nrules old mx cnt0 extra params accept_func)
             (propose f2 rs rules labels nrules old mx cnt0 extra params accept_func).
Proof.
  unfold propose, propose_eval.
  apply returns_as_bind; [|intros ?; apply returns_as_refl].
  apply returns_as_bind; [apply returns_as_refl|intros c].
  apply returns_as_bind; [apply ruleset_proposal_fuel|intros p].
  apply returns_as_refl.
Qed.

Lemma chain_step_fuel rules labels nrules params extra accept_func st :
  returns_as (chain_step f1 rules labels nrules params extra accept_func st)
             (chain_step f2 rules labels nrules params extra accept_func st).
Proof.
  unfold chain_step.
  apply returns_as_bind; [apply propose_fuel|intros p]. apply returns_as_refl.
Qed.

Lemma mcmc_init_fuel init_size nsamples nrules rules labels params v_star :
  forall rs lp pb,
    returns_as
      (mcmc_init f1 init_size nsamples nrules rules labels params v_star rs lp pb)
      (mcmc_init f2 init_size nsamples nrules rules labels params v_star rs lp pb).
Proof.
  revert f2 Hf. induction f1 as [|k IH]; intros k2 Hk rs lp pb.
  - cbn [mcmc_init]. destruct (dlt pb v_star) eqn:E.
    + intros g a g' H. discriminate H.
    + destruct k2; cbn [mcmc_init]; rewrite E; apply returns_as_refl.
  - destruct k2 as [|k2]; [lia|]. cbn [mcmc_init].
    destruct (dlt pb v_star); [|apply returns_as_refl].
    apply returns_as_bind; [apply returns_as_refl|intros r].
    apply returns_as_bind; [apply returns_as_refl|intros [l p]].
    cbv zeta. apply IH. lia.
Qed.

Lemma run_mcmc_fuel its init_size nsamples nrules rules labels params v_star :
  returns_as (run_mcmc f1 its init_size nsamples nrules rules labels params v_star)
             (run_mcmc f2 its init_size nsamples nrules rules labels params v_star).
Proof.
  unfold run_mcmc, mcmc_start.
  apply returns_as_bind.
  - apply returns_as_bind; [apply returns_as_refl|intros u].
    apply returns_as_bind; [apply mcmc_init_fuel|intros x]. apply returns_as_refl.
  - intros st0. apply returns_as_bind; [|intros st; apply returns_as_refl].
    apply returns_as_for. intros i s. apply chain_step_fuel.
Qed.

Lemma scored_chain_fuel train_data params v_star :
  returns_as (scored_chain f1 train_data params v_star)
             (scored_chain f2 train_data params v_star).
Proof.
  unfold scored_chain.
  apply returns_as_bind; [apply run_mcmc_fuel|intros rs]. apply returns_as_refl.
Qed.

End Fuel.

Section NeverStarts.
Context {M : MathLib} {L : RuleLib}.
Variables (init_size nsamples nrules : Z) (rules labels : list rule_t)
          (params : params_t) (v_star : double).
Variable I : globals -> Prop.
Hypothesis below :
  forall g, I g ->
    match with_rng (create_random_ruleset init_size nsamples nrules rules) g with
    | Ret (rs, g1) =>
        exists lp pb g2,
          compute_log_posterior rs rules nrules labels params 0 0 g1
          = Ret ((lp, pb), g2) /\
          dlt pb v_star = true /\ I g2
    | Fail e => e = OutOfFuel
    end.

(** When every list that can be drawn has a prefix bound below [v_star],
    the loop that draws the initial list does not end. *)
Lemma mcmc_init_never_ends fuel :
  forall rs0 lp0 pb0 g,
    I g -> dlt pb0 v_star = true ->
    mcmc_init fuel init_size nsamples nrules rules labels params v_star rs0 lp0 pb0 g
    = Fail OutOfFuel.
Proof.
  induction fuel as [|fuel IH]; intros rs0 lp0 pb0 g Hg Hp; cbn [mcmc_init]; rewrite Hp.
  - reflexivity.
  - unfold pbind at 1. pose proof (below g Hg) as Hb.
    destruct (with_rng (create_random_ruleset init_size nsamples nrules rules) g)
      as [[rs g1]|e]; [|now subst].
    destruct Hb as (lp & pb & g2 & H2 & Hpb & Hg2).
    unfold pbind at 1. rewrite H2. cbv zeta. apply IH; assumption.
Qed.

Lemma run_mcmc_never_starts fuel its g :
  I (set_moves 0 0 0 g) -> dlt d_m1e10 v_star = true ->
  run_mcmc fuel its init_size nsamples nrules rules labels params v_star g
  = Fail OutOfFuel.
Proof.
  intros Hg Hv. unfold run_mcmc, mcmc_start, modify.
  unfold pbind at 1. unfold pbind at 1. cbv beta iota. unfold pbind at 1.
  rewrite (mcmc_init_never_ends fuel None d0 d_m1e10 _ Hg Hv). reflexivity.
Qed.

End NeverStarts.

(** ** The rule library of the specification keeps its lists counted *)

Module SpecRulesFacts.
Import SpecRules MoreRuns.

Lemma cascade_length rules ids :
  forall seen es, cascade rules ids seen = Ret es -> length es = length ids.
Proof.
  induction ids as [|id ids IH]; intros seen es H; cbn [cascade] in H.
  - injection H as <-. reflexivity.
  - apply rbind_ret in H. destruct H as (r & _ & H). cbv zeta in H.
    apply rbind_ret in H. destruct H as (es' & He & H). injection H as <-.
    cbn [length]. f_equal. exact (IH _ _ He).
Qed.

Lemma rebuild_counted nsamples rules ids rs :
  rebuild nsamples rules ids = Ret rs ->
  counted rs /\ n_rules rs = Z.of_nat (length ids).
Proof.
  unfold rebuild. intros H. apply rbind_ret in H. destruct H as (es & He & H).
  injection H as <-. unfold counted. cbn [n_rules rs_rules].
  rewrite (cascade_length _ _ _ _ He). auto.
Qed.

Lemma ids_of_length rs : counted rs -> Z.of_nat (length (ids_of rs)) = n_rules rs.
Proof. unfold counted, ids_of. intros ->. rewrite length_map. reflexivity. Qed.

Lemma spec_add_counted rules nrules rs id pos rs' :
  counted rs -> spec_add rules nrules rs id pos = Ret rs' ->
  counted rs' /\ n_rules rs' = n_rules rs + 1.
Proof.
  intros Hc H. unfold spec_add in H.
  destruct ((0 <=? pos) && (pos <=? n_rules rs - 1))%bool; [|discriminate].
  cbv zeta in H. apply rebuild_counted in H. destruct H as [Hw Hn]. split; [exact Hw|].
  rewrite Hn, length_app. cbn [length]. rewrite <- (ids_of_length rs Hc).
  pose proof (firstn_skipn (Z.to_nat pos) (ids_of rs)) as E.
  apply (f_equal (@length Z)) in E. rewrite length_app in E. lia.
Qed.

Lemma spec_delete_counted rules nrules rs pos rs' :
  counted rs -> spec_delete rules nrules rs pos = Ret rs' ->
  counted rs' /\ n_rules rs' = n_rules rs - 1.
Proof.
  intros Hc H. unfold spec_delete in H.
  destruct ((0 <=? pos) && (pos <=? n_rules rs - 2))%bool eqn:E; [|discriminate].
  apply andb_true_iff in E. destruct E as [E1 E2].
  apply Z.leb_le in E1, E2.
  cbv zeta in H. apply rebuild_counted in H. destruct H as [Hw Hn]. split; [exact Hw|].
  pose proof (ids_of_length rs Hc) as Hl.
  rewrite Hn, length_app, length_firstn, length_skipn. lia.
Qed.

Lemma spec_swap_counted rs i j rules rs' :
  counted rs -> spec_swap_any rs i j rules = Ret rs' ->
  counted rs' /\ n_rules rs' = n_rules rs.
Proof.
  intros Hc H. unfold spec_swap_any in H.
  destruct (_ && _)%bool in H; [|discriminate].
  apply rbind_ret in H. destruct H as (a & _ & H).
  apply rbind_ret in H. destruct H as (b & _ & H).
  apply rbind_ret in H. destruct H as (l1 & H1 & H).
  apply rbind_ret in H. destruct H as (l2 & H2 & H).
  apply zset_spec in H1. destruct H1 as (L1 & _).
  apply zset_spec in H2. destruct H2 as (L2 & _).
  apply rebuild_counted in H. destruct H as [Hw Hn]. split; [exact Hw|].
  rewrite Hn, L2, L1. apply ids_of_length. exact Hc.
Qed.

End SpecRulesFacts.

Lemma zsum_app a b : zsum (a ++ b) = zsum a + zsum b.
Proof. unfold zsum. induction a as [|x a IH]; cbn; [reflexivity|]. fold (zsum (a ++ b)) in *. cbn in IH. lia. Qed.

Lemma set_nth_sum (l : list Z) : forall n v c l',
  nth_error l n = Some c -> set_nth l n v = Ret l' -> zsum l' = zsum l - c + v.
Proof.
  induction l as [|h t IH]; intros n v c l' Hc H; [destruct n; discriminate|].
  destruct n as [|n]; cbn in Hc, H.
  - injection Hc as ->. injection H as <-. unfold zsum. cbn. lia.
  - apply rbind_ret in H. destruct H as (t' & Ht & H). injection H as <-.
    specialize (IH _ _ _ _ Hc Ht). unfold zsum in *. cbn. lia.
Qed.

Lemma set_nth_nonneg (l : list Z) : forall n v l',
  Forall (fun x => 0 <= x) l -> 0 <= v -> set_nth l n v = Ret l' ->
  Forall (fun x => 0 <= x) l'.
Proof.
  induction l as [|h t IH]; intros n v l' Hall Hv H; [destruct n; discriminate|].
  apply Forall_cons_iff in Hall. destruct Hall as [Hh Ht].
  destruct n as [|n]; cbn in H.
  - injection H as <-. constructor; assumption.
  - apply rbind_ret in H. destruct H as (t' & Ht' & H). injection H as <-.
    constructor; [assumption|]. eapply IH; eassumption.
Qed.

Lemma set_nth_total {A} (l : list A) : forall n v,
  (n < length l)%nat -> exists l', set_nth l n v = Ret l'.
Proof.
  induction l as [|h t IH]; intros n v Hn; [cbn in Hn; lia|].
  destruct n as [|n]; cbn.
  - eauto.
  - destruct (IH n v) as (t' & ->); [cbn in Hn; lia|]. cbn. eauto.
Qed.

Section GslFacts.
Context {M : MathLib} {G : GslLib}.

(** One roll keeps ten counts that are not negative, and adds at most one
    to their sum. *)
Lemma poisson_roll_inv i p r :
  length p = 10%nat -> Forall (fun x => 0 <= x) p ->
  exists p' r',
    poisson_roll i (p, Some r) = Ret (p', Some r') /\
    length p' = 10%nat /\ Forall (fun x => 0 <= x) p' /\
    zsum p <= zsum p' <= zsum p + 1.
Proof.
  intros Hl Hall. unfold poisson_roll. cbn [sample_poisson snd fst rbind].
  destruct (gsl_ran_poisson r d4_1) as [number r'] eqn:E. cbn [rbind].
  destruct (number <? 10)%N eqn:En.
  - apply N.ltb_lt in En.
    assert (Hn : (Z.to_nat (Z.of_N number) < length p)%nat) by lia.
    destruct (nth_error p (Z.to_nat (Z.of_N number))) as [c|] eqn:Ec;
      [|apply nth_error_None in Ec; lia].
    assert (Hz : zth p (Z.of_N number) = Ret c)
      by (apply zth_nth_error; split; [lia|exact Ec]).
    rewrite Hz. cbn [rbind].
    destruct (set_nth_total p _ (c + 1) Hn) as (p' & Hp').
    assert (Hs : zset p (Z.of_N number) (c + 1) = Ret p').
    { unfold zset. replace (Z.of_N number <? 0) with false; [exact Hp'|].
      symmetry. apply Z.ltb_ge. lia. }
    rewrite Hs. cbn [rbind]. exists p', r'. split; [reflexivity|].
    assert (Hc : 0 <= c).
    { apply nth_error_In in Ec. rewrite Forall_forall in Hall. auto. }
    split; [destruct (set_nth_spec _ _ _ _ Hp') as (-> & _); exact Hl|].
    split; [eapply set_nth_nonneg; [exact Hall| |exact Hp']; lia|].
    rewrite (set_nth_sum _ _ _ _ _ Ec Hp'). lia.
  - exists p, r'. split; [reflexivity|]. repeat split; auto; lia.
Qed.

Lemma poisson_rolls_inv (n : nat) :
  forall i p r,
    length p = 10%nat -> Forall (fun x => 0 <= x) p ->
    exists p' r',
      for_range n i poisson_roll (p, Some r) = Ret (p', Some r') /\
      length p' = 10%nat /\ Forall (fun x => 0 <= x) p' /\
      zsum p <= zsum p' <= zsum p + Z.of_nat n.
Proof.
  induction n as [|n IH]; intros i p r Hl Hall; cbn [for_range].
  - exists p, r. split; [reflexivity|]. repeat split; auto; lia.
  - destruct (poisson_roll_inv i p r Hl Hall) as (p1 & r1 & -> & Hl1 & Hall1 & Hs1).
    cbn [rbind].
    destruct (IH (i + 1) p1 r1 Hl1 Hall1) as (p' & r' & -> & Hl' & Hall' & Hs').
    exists p', r'. split; [reflexivity|]. repeat split; auto; lia.
Qed.

End GslFacts.

Section GslTheorems.
Context {M : MathLib} {G : GslLib}.

Lemma star_rows_inv p (n : nat) :
  forall (k : nat) rows,
    Forall (fun x => 0 <= x) p -> (k + n <= length p)%nat ->
    exists rows',
      for_range n (Z.of_nat k) (star_row p) rows = Ret rows' /\
      length rows' = (length rows + n)%nat /\
      (Forall (fun x => 0 <= x) rows -> Forall (fun x => 0 <= x) rows') /\
      nrolls * (zsum rows' - zsum rows) <= nstars * zsum (firstn n (skipn k p)).
Proof.
  induction n as [|n IH]; intros k rows Hall Hk; cbn [for_range].
  - exists rows. split; [reflexivity|]. split; [lia|]. split; [auto|].
    change (zsum (firstn 0 (skipn k p))) with 0. unfold nrolls, nstars. lia.
  - unfold star_row at 1.
    destruct (nth_error p k) as [c|] eqn:Ec; [|apply nth_error_None in Ec; lia].
    assert (Hz : zth p (Z.of_nat k) = Ret c)
      by (apply zth_nth_error; rewrite Nat2Z.id; split; [lia|exact Ec]).
    rewrite Hz. cbn [rbind].
    replace (Z.of_nat k + 1) with (Z.of_nat (S k)) by lia.
    destruct (IH (S k) (rows ++ [Z.max 0 (Z.quot (c * nstars) nrolls)]) Hall ltac:(lia))
      as (rows' & -> & Hl & Hnn & Hs).
    exists rows'. split; [reflexivity|].
    rewrite length_app in Hl. cbn [length] in Hl. split; [lia|].
    assert (Hc : 0 <= c).
    { apply nth_error_In in Ec. rewrite Forall_forall in Hall. auto. }
    split.
    + intros Hr. apply Hnn. apply Forall_app. split; [exact Hr|].
      constructor; [lia|constructor].
    + rewrite zsum_app in Hs.
      assert (Hsk : skipn k p = c :: skipn (S k) p).
      { clear -Ec. revert k Ec. induction p as [|h t IHp]; intros [|k] Ec;
          try discriminate; cbn in *; [congruence|auto]. }
      rewrite Hsk. cbn [firstn]. unfold zsum at 3. cbn [fold_right].
      fold (zsum (firstn n (skipn (S k) p))).
      assert (Hq : nrolls * Z.max 0 (Z.quot (c * nstars) nrolls) <= nstars * c).
      { unfold nrolls, nstars. rewrite Z.quot_div_nonneg by lia.
        pose proof (Z.mul_div_le (c * 100) 10000 ltac:(lia)).
        pose proof (Z.div_pos (c * 100) 10000 ltac:(lia) ltac:(lia)). lia. }
      set (X := Z.max 0 (Z.quot (c * nstars) nrolls)) in *.
      change (zsum [X]) with (X + 0) in Hs.
      unfold nrolls, nstars in Hs, Hq |- *. lia.
Qed.

(** With a generator, [gsl_ran_poisson_test] stays inside [p]: a sample is
    counted only when it is below 10. It prints ten rows, with at most
    [nstars] stars in all. *)
Theorem gsl_ran_poisson_test_rows :
  forall r,
    exists out r',
      gsl_ran_poisson_test (Some r) = Ret (out, Some r') /\
      length (pt_stars out) = 10%nat /\
      Forall (fun x => 0 <= x) (pt_stars out) /\
      zsum (pt_stars out) <= nstars.
Proof.
  intros r. unfold gsl_ran_poisson_test. cbn [sample_poisson].
  destruct (gsl_ran_poisson r (d_of_int 5)) as [k1 r1]. cbn [rbind sample_poisson].
  destruct (gsl_ran_poisson r1 (d_of_int 5)) as [k2 r2]. cbn [rbind].
  destruct (poisson_rolls_inv (Z.to_nat nrolls) 0 (repeat 0 10) r2)
    as (p & r3 & -> & Hl & Hall & Hs).
  { reflexivity. }
  { repeat constructor; lia. }
  cbn [rbind].
  destruct (star_rows_inv p 10 0 [] Hall ltac:(lia)) as (rows & Hrows & Hlr & Hnn & Hsum).
  change (Z.of_nat 0) with 0 in Hrows. rewrite Hrows. cbn [rbind].
  exists {| pt_k1 := k1; pt_k2 := k2; pt_stars := rows |}, r3.
  split; [reflexivity|]. cbn [pt_stars]. split; [exact Hlr|].
  split; [apply Hnn; constructor|].
  rewrite firstn_all2 in Hsum by (cbn [skipn]; lia). cbn [skipn] in Hsum.
  change (zsum []) with 0 in Hsum. change (zsum (repeat 0 10)) with 0 in Hs.
  unfold nrolls, nstars in *. lia.
Qed.

(** [init_gsl_rand_gen] allocates a generator only when [RAND_GSL] is not
    [NULL] already: from the [NULL] of a process that starts, it stays [NULL]
    however often [init_gsl_rand_gen] is called, and [gen_poisson] and
    [gsl_ran_poisson_test] then hand [NULL] to GSL. A generator that is
    there is replaced by a new one. *)
Theorem init_gsl_rand_gen_keeps_null :
  forall (n : nat) mu,
    Nat.iter n init_gsl_rand_gen None = None /\
    gen_poisson mu (Nat.iter n init_gsl_rand_gen None) = Fail Undefined /\
    gsl_ran_poisson_test (Nat.iter n init_gsl_rand_gen None) = Fail Undefined /\
    forall r, init_gsl_rand_gen (Some r) = Some gsl_rng_alloc_default.
Proof.
  intros n mu.
  assert (H : Nat.iter n init_gsl_rand_gen None = None).
  { induction n as [|n IH]; [reflexivity|]. rewrite Nat.iter_succ, IH. reflexivity. }
  rewrite H. repeat split; reflexivity.
Qed.

End GslTheorems.



(** ** The worked runs *)

Module Examples.

#[local] Existing Instance RefMath.lib.
#[local] Existing Instance SpecRules.lib.
Import Runs.

(** *** [propose] *)

(** From the list [1; 0], whose log posterior is the best seen, the
    generator proposes to add rule 2: the prefix bound of [1; 2; 0] is
    below the best log posterior and the proposal is pruned. *)
Lemma propose_prunes_witness :
  exists jp g1,
    propose 10 (Toy.ruleset [1; 0]) Toy.rules Toy.labels Toy.nrules
      best_post best_post 0 ExtraJumpProb Toy.params mcmc_accepts pruned_state =
    Ret ({| rs_ret := Toy.ruleset [1; 0]; jump_prob_out := jp;
            ret_log_post := best_post; cnt := 0 + 1 |}, g1).
Proof.
  assert (He : propose_eval 10 (Toy.ruleset [1; 0]) Toy.rules Toy.labels
                 Toy.nrules Toy.params pruned_state = pruned_eval)
    by (vm_compute; reflexivity).
  unfold pruned_eval in He.
  eexists; eexists.
  refine (propose_prunes_below_bound _ _ _ _ _ _ _ _ _ _ _ _ _ _ He _ _).
  - vm_compute; reflexivity.
  - left; reflexivity.
Defined.

(** The draw of [mcmc_accepts] at the ends of the range of [random()]. *)
Example unit_draw_0 : unit_draw 0 = d0.
Proof. reflexivity. Qed.

Example unit_draw_max : unit_draw RAND_MAX = d1.
Proof. reflexivity. Qed.

(** The quotient at one half, and a draw of 25 digits that is rounded. *)
Example draw_quotient_half : draw_quotient 1073741824 = d0_5.
Proof. vm_compute. reflexivity. Qed.

Example draw_quotient_rounds : draw_quotient 16777217 = draw_quotient 16777216.
Proof. vm_compute. reflexivity. Qed.


(** *** The chain *)

(** The first iteration is pruned and leaves the maximum; the second
    deletes rule 3, is accepted, and raises the maximum to the log
    posterior of the list [0]. *)
Lemma max_log_posterior_witness :
  exists s1 g1 s2 g2,
    after_1 = Ret (s1, g1) /\ after_2 = Ret (s2, g2) /\
    not_below (max_log_posterior s1) (max_log_posterior s2) /\
    dlt (max_log_posterior s2) (max_log_posterior s1) = false /\
    max_log_posterior s2 = log_post_rs s2 /\
    dgt (log_post_rs s2) (max_log_posterior s1) = true.
Proof.
  assert (H1 : mcmc_iterate 10 Toy.rules Toy.labels Toy.nrules Toy.params 1
                 start start_state = after_1) by (vm_compute; reflexivity).
  assert (H2 : mcmc_iterate 10 Toy.rules Toy.labels Toy.nrules Toy.params 2
                 start start_state = after_2) by (vm_compute; reflexivity).
  unfold after_1 in H1 |- *. unfold after_2 in H2 |- *.
  do 4 eexists. split; [reflexivity|]. split; [reflexivity|].
  destruct (max_log_posterior_never_decreases _ _ _ _ _ _ _ 1%nat 2%nat _ _ _ _
              (le_S _ _ (le_n 1)) H1 H2) as (Ha & Hb & Hc).
  split; [exact Ha|]. split; [exact Hb|].
  apply Hc; [reflexivity|]. vm_compute. discriminate.
Defined.

(** *** The proposal kernel *)


(** The list [1; 2; 0] has two positions to swap; the draw 975884830 gives
    [index1 = 0], the draw 199840141 gives the other position at once. *)
Lemma swap_candidates_witness :
  3 <= n_rules (Toy.ruleset [1; 2; 0]) /\
  exists index2 g',
    draw_other 10 (n_rules (Toy.ruleset [1; 2; 0]) - 1) 0
      (Toy.ready (Toy.replay [199840141])) = Ret (index2, g') /\
    index2 <> 0 /\ 0 <= index2 < n_rules (Toy.ruleset [1; 2; 0]) - 1.
Proof.
  destruct (swap_has_two_candidates (Toy.ruleset [1; 2; 0]) Toy.nrules 55433204)
    as (H3 & _ & Hloop).
  - vm_compute; discriminate.
  - lia.
  - vm_compute; reflexivity.
  - split; [exact H3|].
    apply (Hloop 0 (Toy.ready (Toy.replay [199840141])) 0%nat 10%nat).
    + lia.
    + intros j Hj. lia.
    + vm_compute. discriminate.
Defined.

(** *** The lambda table *)

(** With [lambda = 2.5]: a list of two rules reads the entry 2, a list of
    four rules reads its own entry 3. *)
Lemma prefix_lambda_index_witness :
  prefix_lambda_index 2 d2_5 = Ret (Z.max (2 - 1) 2) /\
  prefix_lambda_index 4 d2_5 = Ret (Z.max (4 - 1) 2).
Proof.
  split.
  - apply (prefix_lambda_index_is_max 2 d2_5 2);
      [reflexivity | reflexivity | vm_compute; split; discriminate
      | vm_compute; split; [reflexivity | discriminate]].
  - apply (prefix_lambda_index_is_max 4 d2_5 2);
      [reflexivity | reflexivity | vm_compute; split; discriminate
      | vm_compute; split; [reflexivity | discriminate]].
Defined.

(** The table of the small training set has four entries; with
    [lambda = 2.5] a two-rule list reads inside it. *)
Lemma lambda_table_witness :
  (exists g' tbl,
      init_pmf Toy.nrules Toy.params (Toy.fresh (Toy.replay [])) = Ret (tt, g') /\
      log_lambda_pmf g' = Some tbl /\
      Z.of_nat (length tbl) = Toy.nrules /\
      (forall i, (exists v, zth tbl i = Ret v) <-> 0 <= i <= Toy.nrules - 1)) /\
  ((exists v, prefix_lambda_term [d0; d0; d0; d0] 2 d2_5 = Ret v) <->
   2 <= Z.of_nat (length [d0; d0; d0; d0]) - 1).
Proof.
  destruct lambda_table_bounds as (Ha & Hb & _). split.
  - apply Ha; [reflexivity | vm_compute; discriminate].
  - apply (Hb [d0; d0; d0; d0] 2 d2_5 2);
      [reflexivity | reflexivity | lia
      | vm_compute; split; [reflexivity | discriminate]
      | vm_compute; discriminate | reflexivity].
Defined.

(** The whole evaluation on the small training set with [lambda = 5]: the
    list [1; 0] has [m = 1 <= lambda] and reads entry 5 of a table of 4. *)
Example compute_log_posterior_out_of_table :
  compute_log_posterior (Toy.ruleset [1; 0]) Toy.rules Toy.nrules Toy.labels
    {| lambda := d_of_int 5; eta := d1; threshold := d0_5; alpha := (d1, d1);
       iters := 3; init_size := 1; nchain := 3 |}
    0 0 (Toy.fresh (Toy.replay []))
  = Fail Undefined.
Proof. vm_compute. reflexivity. Qed.

(** *** The cooling schedule *)

Lemma cooling_schedule_witness :
  exists T,
    @cooling_schedule RefMath.lib = Ret T /\
    T = @schedule_blocks RefMath.lib /\
    map (@block_length RefMath.lib) (seq 1 27) = glibc_block_sizes /\
    length T = 4951%nat /\
    nonincreasing T /\
    nth_error T 0 = Some d0_5.
Proof.
  apply (cooling_schedule_shape RefMath.lib).
  intros k Hk. apply ref_exp_agrees_glibc. exact Hk.
Defined.

(** The schedule is not the one specified: it has 4951 temperatures, not
    about [10^5], and block 2 emits [1/3] twice, at the timepoints 1 and 2. *)
Lemma cooling_schedule_not_as_specified :
  exists T,
    @cooling_schedule RefMath.lib = Ret T /\
    length T = 4951%nat /\
    nth_error T 1 = Some d_third /\ nth_error T 2 = Some d_third /\
    ~ strictly_decreasing T /\
    ~ 50000 <= Z.of_nat (length T) /\
    ~ schedule_as_specified T.
Proof.
  exists glibc_schedule.
  assert (H1 : nth_error glibc_schedule 1 = Some d_third) by (vm_compute; reflexivity).
  assert (H2 : nth_error glibc_schedule 2 = Some d_third) by (vm_compute; reflexivity).
  assert (Hlen : length glibc_schedule = 4951%nat) by (vm_compute; reflexivity).
  assert (Hns : ~ strictly_decreasing glibc_schedule).
  { intros Hs. specialize (Hs 1%nat _ _ H1 H2). vm_compute in Hs. discriminate. }
  split; [vm_compute; reflexivity|]. split; [exact Hlen|].
  split; [exact H1|]. split; [exact H2|]. split; [exact Hns|].
  split; [rewrite Hlen; lia|].
  intros (_ & Hs & _). exact (Hns Hs).
Qed.

(** *** The degenerate [eta] *)

Example eta_norm_is_zero : eta_norm Degenerate.tables = d0.
Proof. reflexivity. Qed.

Example log_eta_pmf_9 :
  rbind (deref (log_eta_pmf Degenerate.tables)) (fun t => zth t 9) = Ret ninf.
Proof. reflexivity. Qed.

Lemma nan_eval_run :
  propose_eval 10 (Degenerate.ruleset [0]) Degenerate.rules Toy.labels
    Degenerate.nrules Degenerate.params Degenerate.nan_state = Degenerate.nan_eval.
Proof. vm_compute. reflexivity. Qed.

Lemma nan_run_run :
  propose 10 (Degenerate.ruleset [0]) Degenerate.rules Toy.labels Degenerate.nrules
    Degenerate.post_default Degenerate.post_default 0
    ExtraJumpProb Degenerate.params mcmc_accepts Degenerate.nan_state
  = Degenerate.nan_run.
Proof. vm_compute. reflexivity. Qed.

Lemma zero_eval_run :
  propose_eval 10 (Degenerate.ruleset [0]) Degenerate.rules Toy.labels
    Degenerate.nrules Degenerate.params Degenerate.zero_state = Degenerate.zero_eval.
Proof. vm_compute. reflexivity. Qed.

Lemma zero_run_run :
  propose 10 (Degenerate.ruleset [0]) Degenerate.rules Toy.labels Degenerate.nrules
    Degenerate.post_default Degenerate.post_default 0
    ExtraJumpProb Degenerate.params mcmc_accepts Degenerate.zero_state
  = Degenerate.zero_run.
Proof. vm_compute. reflexivity. Qed.

(** The NaN proposal is rejected, as every NaN proposal is; the counter
    stays at 0, because the prefix bound is NaN too. *)
Lemma nan_proposal_witness :
  exists ev g1 g2,
    Degenerate.nan_eval = Ret (ev, g1) /\
    printed g1 = [NanHereBB 0; NanHereAA 0] /\
    is_nan (new_log_post ev) = true /\
    propose 10 (Degenerate.ruleset [0]) Degenerate.rules Toy.labels
      Degenerate.nrules Degenerate.post_default Degenerate.post_default 0
      ExtraJumpProb Degenerate.params mcmc_accepts Degenerate.nan_state =
    Ret ({| rs_ret := Degenerate.ruleset [0]; jump_prob_out := ev_jump_prob ev;
            ret_log_post := Degenerate.post_default;
            cnt := if dlt (prefix_bound ev) Degenerate.post_default
                   then 0 + 1 else 0 |}, g2) /\
    printed g2 = printed g1.
Proof.
  pose proof nan_eval_run as He. unfold Degenerate.nan_eval in He |- *.
  do 2 eexists.
  destruct (nan_proposal_rejected 10 (Degenerate.ruleset [0]) Degenerate.rules
              Toy.labels Degenerate.nrules Degenerate.post_default
              Degenerate.post_default 0 ExtraJumpProb Degenerate.params
              Degenerate.nan_state _ _ mcmc_accepts He)
    as (Hn & g2 & Hrun & Hpr).
  - vm_compute. discriminate.
  - left; reflexivity.
  - exists g2. split; [reflexivity|]. split; [reflexivity|].
    split; [exact Hn|]. split; [exact Hrun|exact Hpr].
Defined.

(** C3 fails on the code: the NaN proposal is rejected but not counted,
    and the proposal evaluated with a normalisation constant 0 is accepted,
    with an infinite log posterior, and not counted either. *)
Lemma numeric_failure_not_handled :
  (exists p g2,
      Degenerate.nan_run = Ret (p, g2) /\
      printed g2 = [NanHereBB 0; NanHereAA 0] /\
      rs_ret p = Degenerate.ruleset [0] /\ cnt p = 0) /\
  (exists p g2,
      Degenerate.zero_run = Ret (p, g2) /\
      eta_norm g2 = d0 /\ printed g2 = [] /\
      rs_ret p = Degenerate.ruleset [1; 0] /\ ret_log_post p = pinf /\ cnt p = 0) /\
  ~ numeric_failure_handled RefMath.lib SpecRules.lib.
Proof.
  split; [|split].
  - unfold Degenerate.nan_run. do 2 eexists. repeat split; reflexivity.
  - unfold Degenerate.zero_run. do 2 eexists. repeat split; reflexivity.
  - intros Hclaim.
    pose proof zero_eval_run as He. pose proof zero_run_run as Hr.
    unfold Degenerate.zero_eval in He. unfold Degenerate.zero_run in Hr.
    pose proof (fun Hev =>
                  Hclaim 10%nat (Degenerate.ruleset [0]) Degenerate.rules
                    Toy.labels Degenerate.nrules Degenerate.post_default
                    Degenerate.post_default 0 ExtraJumpProb Degenerate.params
                    Degenerate.zero_state _ _
                    mcmc_accepts _ _ He Hev (or_introl eq_refl) Hr) as H.
    destruct H as (Hrs & _ & _).
    + right. split; [reflexivity | vm_compute; discriminate].
    + vm_compute in Hrs. discriminate Hrs.
Qed.

Lemma chains_run_run :
  train_chains 5 Degenerate.data Degenerate.params Degenerate.chains_state
  = Degenerate.chains_run.
Proof. vm_compute. reflexivity. Qed.

(** C7 fails on the code: the list returned has log posterior plus
    infinity, the destroyed list has NaN, and [+inf >= NaN] is false. *)
Lemma chain_best_fails_on_nan :
  exists b g',
    train_chains 5 Degenerate.data Degenerate.params Degenerate.chains_state
    = Ret (b, g') /\
    max_pos b = pinf /\
    In (Degenerate.ruleset [2; 0], nan) (destroyed b) /\
    dge (max_pos b) nan = false /\
    ~ chain_best_as_specified b.
Proof.
  rewrite chains_run_run. unfold Degenerate.chains_run.
  do 2 eexists. split; [reflexivity|]. cbn [max_pos destroyed].
  split; [reflexivity|]. split; [left; reflexivity|].
  split; [reflexivity|].
  intros Hclaim. specialize (Hclaim _ _ (or_introl eq_refl)).
  discriminate Hclaim.
Qed.

(** *** [train] *)

Lemma train_run_run : train 20 Toy.data 0 0 train_params train_state = train_run.
Proof. vm_compute. reflexivity. Qed.

(** The run returns the list [1; 2; 0] and [theta]; it destroyed the final
    lists [1; 3; 0] and [0], whose log posteriors are below. *)
Example train_run_result :
  exists pm g,
    train_run = Ret (pm, g) /\
    SpecRules.ids_of (pm_rs pm) = [1; 2; 0] /\
    length (pm_theta pm) = 3%nat /\
    log_lambda_pmf g = Some [].
Proof. unfold train_run. do 2 eexists. repeat split; reflexivity. Qed.

(** The three chains of the run: the list returned is the final list of
    one of them, no other compares above it, and its log posterior is a
    number. *)
Lemma train_keeps_best_witness :
  exists pm g' l k pos g1,
    train 20 Toy.data 0 0 train_params train_state = Ret (pm, g') /\
    chains_ran 20 Toy.data train_params train_state l k g1 /\
    length l = 3%nat /\
    nth_error l k = Some (pm_rs pm, pos) /\
    best_at l k pos /\
    dlt d_m1e10 pos = true.
Proof.
  pose proof train_run_run as H. unfold train_run in H.
  assert (Hn : 1 <= nchain train_params) by (vm_compute; discriminate).
  destruct (proj1 (train_keeps_best 20 Toy.data 0 0 train_params train_state Hn) _ _ H)
    as (l & k & pos & b & g1 & Hr & Hlen & Hk & Hbest & Hnum & _).
  do 2 eexists. exists l, k, pos, g1.
  split; [exact H|]. split; [exact Hr|].
  split; [change (nchain train_params) with 3 in Hlen; lia|].
  split; [exact Hk|]. split; [exact Hbest|].
  apply Hnum. vm_compute. discriminate.
Defined.

End Examples.

(** ** More worked runs *)

Module Cases.

#[local] Existing Instance RefMath.lib.
#[local] Existing Instance SpecRules.lib.
Import Runs MoreRuns.

(** *** [compute_log_posterior] *)

Lemma score_10_run :
  compute_log_posterior (Toy.ruleset [1; 0]) Toy.rules Toy.nrules Toy.labels
    Toy.params 0 0 scored_state = score_10.
Proof. vm_compute. reflexivity. Qed.

Lemma score_10_train_run :
  compute_log_posterior (Toy.ruleset [1; 0]) Toy.rules Toy.nrules Toy.labels
    Toy.params 1 (-1) scored_state = score_10_train.
Proof. vm_compute. reflexivity. Qed.

(** The list [1; 0] has the same log posterior with [length4bound = 0], as
    [propose] computes it, and with [-1], as [train] does. *)
Lemma length4bound_witness :
  exists pb',
    compute_log_posterior (Toy.ruleset [1; 0]) Toy.rules Toy.nrules Toy.labels
      Toy.params 1 (-1) scored_state = Ret ((best_post, pb'), scored_state).
Proof.
  pose proof score_10_run as H. unfold score_10 in H.
  apply (proj1 (log_posterior_ignores_length4bound _ _ _ _ _ 0 0 1 (-1) _ _ _)).
  eexists. exact H.
Defined.

(** With the tables in place, a call with [eta = 2] returns what the call
    with [eta = 1] returns. *)
Lemma tables_built_once_witness :
  exists r g',
    score_10 = Ret (r, g') /\
    rng g' = rng scored_state /\
    tables_of g' = tables_of scored_state /\
    compute_log_posterior (Toy.ruleset [1; 0]) Toy.rules Toy.nrules Toy.labels
      {| lambda := d1; eta := d2; threshold := d0_5; alpha := (d1, d1);
         iters := 3; init_size := 1; nchain := 3 |} 0 0 scored_state
    = Ret (r, g').
Proof.
  pose proof score_10_run as H. unfold score_10 in H |- *.
  do 2 eexists. split; [reflexivity|].
  destruct (prior_tables_built_once _ _ _ _ _ _ _ _ _ _ H) as (Hr & _ & _ & Ht).
  destruct Ht as [Ht Hp]; [vm_compute; discriminate|].
  split; [exact Hr|]. split; [exact Ht|]. apply Hp; reflexivity.
Defined.

(** The call on the list [1; 0] stays inside its arrays: the four rules
    have cardinalities 0, 1, 1 and 2, and the list has two of the four
    entries of the lambda table. *)
Lemma requires_witness :
  (forall i, 0 <= i < Toy.nrules ->
     exists x, zth Toy.rules i = Ret x /\ 0 <= cardinality x <= MAX_RULE_CARDINALITY) /\
  (exists l0 l1, zth Toy.labels 0 = Ret l0 /\ zth Toy.labels 1 = Ret l1).
Proof.
  pose proof score_10_run as H. unfold score_10 in H.
  destruct (compute_log_posterior_requires _ _ _ _ _ _ _ _ _ _ H)
    as (Hc & _ & _ & _ & Hl).
  split; [exact Hc|exact Hl].
Defined.

(** The library has two rules of cardinality 1; a rule of cardinality 11
    is counted outside [card_count]. *)
Lemma card_counts_witness :
  (exists cc, card_counts Toy.rules Toy.nrules = Ret cc /\ zth cc 1 = Ret 2) /\
  card_counts [Toy.mk_rule 11 255] 1 = Fail Undefined.
Proof.
  split.
  - assert (H : card_counts Toy.rules Toy.nrules = Ret [1; 2; 1; 0; 0; 0; 0; 0; 0; 0; 0])
      by reflexivity.
    eexists. split; [exact H|].
    rewrite (proj1 (card_counts_counts Toy.rules Toy.nrules) _ H 1)
      by (unfold MAX_RULE_CARDINALITY; lia).
    reflexivity.
  - apply (proj2 (card_counts_counts [Toy.mk_rule 11 255] 1) 0 (Toy.mk_rule 11 255)).
    + lia.
    + reflexivity.
    + right. unfold MAX_RULE_CARDINALITY. cbn. lia.
Defined.

(** As [train] scores the list [1; 0], its prefix bound is the entry 1 of
    the lambda table. *)
Lemma prefix_bound_witness :
  exists lp pb g' llp pl,
    score_10_train = Ret ((lp, pb), g') /\
    log_lambda_pmf g' = Some llp /\
    prefix_lambda_term llp 2 d1 = Ret pl /\
    pb = dadd (dadd d0 pl) d0.
Proof.
  pose proof score_10_train_run as H. unfold score_10_train in H |- *.
  do 3 eexists.
  assert (Hneg : -1 < 0) by lia.
  destruct (prefix_bound_without_prefix _ _ _ _ _ _ (-1) _ _ _ _ Hneg H)
    as (llp & pl & Hl & Hp & Hb).
  exists llp, pl. split; [reflexivity|]. split; [exact Hl|]. split; [exact Hp|exact Hb].
Defined.

(** *** [propose] *)

Lemma improve_eval_run :
  propose_eval 10 (Toy.ruleset [3; 0]) Toy.rules Toy.labels Toy.nrules
    Toy.params improve_state = improve_eval.
Proof. vm_compute. reflexivity. Qed.

Lemma improve_run_run :
  propose 10 (Toy.ruleset [3; 0]) Toy.rules Toy.labels Toy.nrules
    (log_post_rs start) (log_post_rs start) 0 ExtraJumpProb
    Toy.params mcmc_accepts improve_state = improve_run.
Proof. vm_compute. reflexivity. Qed.

(** The delete of rule 3 is accepted: the list returned is the new one,
    the reject counter stays, one move is counted. *)
Lemma propose_outcome_witness :
  exists p g' ev g1,
    improve_run = Ret (p, g') /\
    propose_eval 10 (Toy.ruleset [3; 0]) Toy.rules Toy.labels Toy.nrules
      Toy.params improve_state = Ret (ev, g1) /\
    moves g' = moves improve_state + 1 /\
    rs_ret p = rs_new ev /\ ret_log_post p = new_log_post ev /\ cnt p = 0 /\
    is_nan (ret_log_post p) = false.
Proof.
  pose proof improve_run_run as H. unfold improve_run in H |- *.
  destruct (propose_outcome _ _ _ _ _ _ _ _ _ _ _ _ _ _ (or_introl eq_refl) H)
    as (ev & g1 & He & _ & Hm & Hcase).
  do 2 eexists. exists ev, g1. split; [reflexivity|]. split; [exact He|].
  split; [exact Hm|].
  destruct Hcase as [(Hrs & _) | (Hrs & Hlp & Hc & _ & Hn)].
  - vm_compute in Hrs. discriminate Hrs.
  - rewrite Hlp. auto.
Defined.

(** Simulated annealing accepts the same proposal at the temperature 0. *)
Lemma sa_improvement_witness :
  exists ev g1,
    improve_eval = Ret (ev, g1) /\
    propose 10 (Toy.ruleset [3; 0]) Toy.rules Toy.labels Toy.nrules
      (log_post_rs start) (log_post_rs start) 0 (ExtraCell d0)
      Toy.params sa_accepts improve_state
    = Ret ({| rs_ret := rs_new ev; jump_prob_out := ev_jump_prob ev;
              ret_log_post := new_log_post ev; cnt := 0 |}, g1).
Proof.
  pose proof improve_eval_run as He. unfold improve_eval in He |- *.
  do 2 eexists. split; [reflexivity|].
  apply (sa_accepts_improvement _ _ _ _ _ _ _ _ _ _ _ _ _ He); reflexivity.
Defined.

(** *** [ruleset_proposal] *)


(** When [rand()] returns [RAND_MAX] no move is selected. *)
Lemma no_move_witness :
  ruleset_proposal 10 (Toy.ruleset [1; 2; 0]) Toy.nrules
    (Toy.ready (Toy.replay [RAND_MAX])) = Fail Undefined.
Proof.
  apply (proj2 (ruleset_proposal_selects_no_move_at_RAND_MAX 10 (Toy.ruleset [1; 2; 0])
                  Toy.nrules (Toy.ready (Toy.replay [RAND_MAX])))).
  reflexivity.
Defined.

(** *** The chains *)

Lemma chain_run_run :
  run_mcmc 10 3 1 Toy.nsamples Toy.nrules Toy.rules Toy.labels Toy.params
    d_m1e9 chain_state = chain_run.
Proof. vm_compute. reflexivity. Qed.

Lemma restart_third_run : restart_turn 3 = restart_third.
Proof. vm_compute. reflexivity. Qed.

Lemma restart_below_run : forallb restart_below [0; 1; 2]%nat = true.
Proof. vm_compute. reflexivity. Qed.

(** The chain started from the log posterior of [1; 0] draws [3; 0] and
    [2; 0], whose prefix bounds are below it, and starts at the third list,
    [1; 0]. *)
Lemma mcmc_start_witness :
  exists st0 g0,
    mcmc_start 10 1 Toy.nsamples Toy.nrules Toy.rules Toy.labels Toy.params
      best_post restart_state = Ret (st0, g0) /\
    SpecRules.ids_of (cur_rs st0) = [1; 0] /\
    max_log_posterior st0 = best_post /\
    moves g0 = 0.
Proof.
  pose proof restart_third_run as H3. unfold restart_third, restart_turn in H3.
  pose proof restart_below_run as Hb. rewrite forallb_forall in Hb.
  match type of H3 with
  | _ = Ret ((Some ?rs, ?lp, ?pb), ?g0) =>
      assert (Hs : mcmc_start 10 1 Toy.nsamples Toy.nrules Toy.rules Toy.labels
                     Toy.params best_post restart_state
                   = Ret ({| cur_rs := rs; log_post_rs := lp; max_log_posterior := lp;
                             rs_idarray := SpecRules.ids_of rs; len := n_rules rs;
                             nsuccessful_rej := 0 |}, g0))
  end.
  { apply (proj1 (mcmc_start_draws_until_bound _ _ _ _ _ _ _ _ _ _ _)).
    exists 3%nat. do 4 eexists.
    split; [lia|]. split; [|split; [exact H3|split; [|split]]]; try reflexivity.
    intros k Hk.
    assert (Hin : In k [0; 1; 2]%nat) by (cbn [In]; lia).
    specialize (Hb k Hin). unfold restart_below, restart_turn in Hb.
    destruct (init_turns k _ _ _ _ _ _ _ _) as [[[[r l] p] gk]|e]; [|discriminate Hb].
    exists r, l, p, gk. auto. }
  do 2 eexists. split; [exact Hs|].
  destruct (proj2 (mcmc_start_draws_until_bound _ _ _ _ _ _ _ _ _ _ _) Hs)
    as (_ & _ & _ & _ & Hm & _).
  split; [reflexivity|]. split; [reflexivity|exact Hm].
Defined.

(** After three iterations the chain returns the list [1; 0], rebuilt
    from the backup of the best list it has seen. *)
Lemma run_mcmc_best_witness :
  exists rs g' st,
    chain_run = Ret (rs, g') /\
    SpecRules.ids_of rs = [1; 0] /\
    chain_coherent Toy.rules Toy.labels Toy.nrules Toy.params st g' /\
    ruleset_init (len st) Toy.nsamples (rs_idarray st) Toy.rules = Ret rs.
Proof.
  pose proof chain_run_run as H. unfold chain_run in H |- *.
  destruct (run_mcmc_returns_best _ _ _ _ _ _ _ _ _ _ _ _ H)
    as (st0 & g0 & st & _ & _ & Hc & Hi).
  do 2 eexists. exists st. split; [reflexivity|]. split; [reflexivity|]. auto.
Defined.

(** The three proposals are one add and two deletes. *)
Lemma run_mcmc_counts_witness :
  exists rs g',
    chain_run = Ret (rs, g') /\
    n_add g' = 1 /\ n_delete g' = 2 /\ n_swap g' = 0 /\
    n_add g' + n_delete g' + n_swap g' = Z.max 0 3.
Proof.
  pose proof chain_run_run as H. unfold chain_run in H |- *.
  destruct (run_mcmc_counts_proposals _ _ _ _ _ _ _ _ _ _ _ _ H)
    as (_ & _ & _ & Hsum & _).
  do 2 eexists. split; [reflexivity|]. split; [reflexivity|].
  split; [reflexivity|]. split; [reflexivity|exact Hsum].
Defined.

(** The chain from the list [3; 0] keeps between one and three rules. *)
Lemma list_length_witness :
  exists s2 g2,
    after_2 = Ret (s2, g2) /\
    1 <= n_rules (cur_rs s2) <= Toy.nrules - 1.
Proof.
  assert (H2 : mcmc_iterate 10 Toy.rules Toy.labels Toy.nrules Toy.params 2
                 start start_state = after_2) by (vm_compute; reflexivity).
  unfold after_2 in H2 |- *.
  do 2 eexists. split; [reflexivity|].
  refine (proj2 (chain_keeps_list_length counted _ _ _ _ _ _ _ _ _ _ _ _ _ _ _ _ _ H2)).
  - intros rs rs' Hc E. injection E as <-. auto.
  - intros. eapply SpecRulesFacts.spec_add_counted; eassumption.
  - intros. eapply SpecRulesFacts.spec_delete_counted; eassumption.
  - intros. eapply SpecRulesFacts.spec_swap_counted; eassumption.
  - vm_compute. discriminate.
  - reflexivity.
  - vm_compute. split; discriminate.
Defined.

(** *** Simulated annealing *)

(** With the reference mathematics the schedule holds 4951 temperatures,
    all between 0 and one half. *)
Lemma temperatures_witness :
  exists T,
    cooling_schedule = Ret T /\
    Z.of_nat (length T) <= 100000 /\
    Forall (fun tk => (exists i, 1 <= i <= 27 /\ tk = block_temperature i) /\
                      dlt d0 tk = true /\ dle tk d0_5 = true) T.
Proof.
  assert (H : cooling_schedule = Ret glibc_schedule) by (vm_compute; reflexivity).
  exists glibc_schedule. split; [exact H|].
  exact (cooling_schedule_temperatures _ H).
Defined.



(** *** [get_theta] and [train] *)

Lemma theta_witness :
  exists theta,
    get_theta (Toy.ruleset [1; 0]) Toy.rules Toy.labels Toy.params = Ret theta /\
    Z.of_nat (length theta) = Z.max 0 (n_rules (Toy.ruleset [1; 0])).
Proof.
  assert (H : get_theta (Toy.ruleset [1; 0]) Toy.rules Toy.labels Toy.params = theta_10)
    by (vm_compute; reflexivity).
  unfold theta_10 in H. eexists. split; [exact H|].
  exact (proj1 (get_theta_entries _ _ _ _ _ H)).
Defined.

(** After the run of [train] the tables are freed, and a second [train]
    fails. *)
Lemma train_twice_witness :
  exists pm g',
    train_run = Ret (pm, g') /\
    log_lambda_pmf g' = Some [] /\
    exists e, train 20 Toy.data 0 0 train_params g' = Fail e.
Proof.
  pose proof Examples.train_run_run as H. unfold train_run in H |- *.
  destruct (train_twice_reads_freed_tables _ _ _ _ _ _ _ _ H) as (Hf & _ & Ht).
  do 2 eexists. split; [reflexivity|]. split; [exact Hf|].
  exact (Ht 20%nat Toy.data 0 0 train_params).
Defined.

Lemma no_chain_run_run :
  train 20 Toy.data 0 0 no_chain_params train_state = no_chain_run.
Proof. vm_compute. reflexivity. Qed.

(** With [nchain = 0] one chain is run. *)
Lemma one_chain_witness :
  exists pm g' g1,
    no_chain_run = Ret (pm, g') /\
    run_mcmc 20 2 2 Toy.nsamples Toy.nrules Toy.rules Toy.labels no_chain_params
      d_m1e9 train_state = Ret (pm_rs pm, g1) /\
    Z.of_nat (length (pm_theta pm)) = Z.max 0 (n_rules (pm_rs pm)).
Proof.
  pose proof no_chain_run_run as H. unfold no_chain_run in H |- *.
  assert (Hn : nchain no_chain_params <= 1) by (vm_compute; discriminate).
  destruct (train_runs_one_chain_at_least _ _ _ _ _ _ _ _ Hn H)
    as (g1 & pos & pb & g2 & Hr & _ & _ & _ & Hl).
  do 2 eexists. exists g1. split; [reflexivity|]. split; [exact Hr|exact Hl].
Defined.

Lemma nan_first_chain_run :
  run_mcmc 5 0 1 Toy.nsamples Degenerate.nrules Degenerate.rules Toy.labels
    Degenerate.params d_m1e9 nan_first_state = nan_first_chain.
Proof. vm_compute. reflexivity. Qed.

(** With the degenerate [eta] and a first chain that ends on the list
    [2; 0], whose log posterior is NaN, [train] reads a [NULL] list in its
    second chain. *)
Lemma second_chain_witness :
  train 5 Degenerate.data 0 0 Degenerate.params nan_first_state = Fail Undefined.
Proof.
  pose proof nan_first_chain_run as H1. unfold nan_first_chain in H1.
  match type of H1 with
  | _ = Ret (?rs, ?g1) =>
      assert (H2 : compute_log_posterior rs Degenerate.rules Degenerate.nrules
                     Toy.labels Degenerate.params 1 (-1) g1 = nan_first_score)
        by (vm_compute; reflexivity)
  end.
  unfold nan_first_score in H2.
  refine (train_second_chain_needs_number 5 Degenerate.data 0 0 Degenerate.params
            _ _ _ _ _ _ H1 H2 _ _).
  - reflexivity.
  - vm_compute. discriminate.
Defined.

(** *** A run that does not return *)

Import Stuck.

Lemma draw_fresh_cases fuel n used :
  forall s,
    0 < n ->
    match SpecRules.draw_fresh fuel n used s with
    | Ret (id, _) => 0 <= id < n /\ existsb (Z.eqb id) used = false
    | Fail e => e = OutOfFuel
    end.
Proof.
  induction fuel as [|fuel IH]; intros s Hn; [reflexivity|].
  cbn [SpecRules.draw_fresh].
  pose proof (next_draw_range s) as Hr.
  destruct (next_draw s) as [r s1]. cbn [fst] in Hr.
  unfold c_mod. replace (n =? 0) with false by (symmetry; apply Z.eqb_neq; lia).
  cbn [rbind].
  destruct (existsb (Z.eqb (Z.rem r n)) used) eqn:E; [apply IH; exact Hn|].
  split; [apply Z.rem_bound_pos; lia|exact E].
Qed.

(** [create_random_ruleset] draws one of the six lists, when the draws
    let it. *)
Lemma create_cases s :
  match SpecRules.spec_create_random_ruleset 2 Toy.nsamples Toy.nrules Toy.rules s with
  | Ret (rs, _) => exists ids, In ids drawable /\ rs = Toy.ruleset ids
  | Fail e => e = OutOfFuel
  end.
Proof.
  unfold SpecRules.spec_create_random_ruleset.
  change (Z.to_nat 2) with 2%nat. cbn [SpecRules.draw_ids].
  pose proof (draw_fresh_cases 1000 Toy.nrules [0] s eq_refl) as Ha.
  destruct (SpecRules.draw_fresh 1000 Toy.nrules [0] s) as [[a s1]|e]; [|exact Ha].
  cbn [rbind app]. cbv zeta.
  pose proof (draw_fresh_cases 1000 Toy.nrules [0; a] s1 eq_refl) as Hb.
  destruct (SpecRules.draw_fresh 1000 Toy.nrules [0; a] s1) as [[b s2]|e]; [|exact Hb].
  cbn [rbind app]. cbv zeta.
  destruct Ha as [Ha Ea], Hb as [Hb Eb]. unfold Toy.nrules in Ha, Hb.
  cbn [existsb] in Ea, Eb. rewrite !orb_false_r in *.
  apply orb_false_iff in Eb. destruct Eb as [Eb0 Eba].
  apply Z.eqb_neq in Ea, Eb0, Eba.
  assert (Hab : (a = 1 \/ a = 2 \/ a = 3) /\ (b = 1 \/ b = 2 \/ b = 3)) by lia.
  destruct Hab as [[-> | [-> | ->]] [-> | [-> | ->]]]; try congruence;
    match goal with
    | |- match rbind (SpecRules.rebuild _ _ ?l) _ with _ => _ end =>
        let r := eval vm_compute in (SpecRules.rebuild Toy.nsamples Toy.rules l) in
        change (SpecRules.rebuild Toy.nsamples Toy.rules l) with r;
        cbn [rbind]; exists l;
        split; [unfold drawable; cbn [In]; tauto | vm_compute; reflexivity]
    end.
Qed.

(** The prefix bound of each of the six lists is below the log posterior
    of the list [1; 0]. *)
Lemma drawable_below ids :
  In ids drawable ->
  exists lp pb g',
    compute_log_posterior (Toy.ruleset ids) Toy.rules Toy.nrules Toy.labels
      params 0 0 (Toy.ready (Toy.replay [])) = Ret ((lp, pb), g') /\
    dlt pb Runs.best_post = true.
Proof.
  intros Hin.
  assert (H : forallb below_best drawable = true) by (vm_compute; reflexivity).
  rewrite forallb_forall in H. specialize (H ids Hin).
  unfold below_best, bound_of in H.
  destruct (compute_log_posterior _ _ _ _ _ _ _ _) as [[[lp pb] g']|e];
    [|discriminate H].
  exists lp, pb, g'. auto.
Qed.

(** The first chain deletes rule 2 from the list [1; 2; 0] and returns the
    list [1; 0]. *)
Lemma first_chain_run f :
  exists g1,
    scored_chain 1 Toy.data params d_m1e9 (Toy.ready (replay_then first_draws f))
    = Ret ((Toy.ruleset [1; 0], Runs.best_post), g1) /\
    tables_of g1 = tables_of Toy.tables.
Proof.
  assert (H : match scored_chain 1 Toy.data params d_m1e9
                      (Toy.ready (replay_then first_draws f)) with
              | Ret (x, g1) => Ret (x, tables_of g1)
              | Fail e => Fail e
              end = Ret ((Toy.ruleset [1; 0], Runs.best_post), tables_of Toy.tables))
    by (vm_compute; reflexivity).
  destruct (scored_chain _ _ _ _ _) as [[[rs pos] g1]|e]; [|discriminate H].
  injection H as -> -> T1 T2 T3. exists g1. split; [reflexivity|].
  unfold tables_of. rewrite T1, T2, T3. reflexivity.
Qed.

(** The second chain of this run never starts: the first returns the list
    [1; 0], and no list of three rules has a prefix bound that reaches its
    log posterior. Whatever the later draws are, and however long the loop
    is run, [train] does not return. *)
Lemma train_second_chain_never_starts :
  forall (fuel : nat) (f : nat -> Z),
    train fuel Toy.data 0 0 params (Toy.ready (replay_then first_draws f))
    = Fail OutOfFuel.
Proof.
  intros fuel f. destruct fuel as [|fuel].
  { vm_compute. reflexivity. }
  destruct (first_chain_run f) as (g1 & H1 & T1).
  apply (scored_chain_fuel 1 (S fuel) ltac:(lia)) in H1.
  unfold scored_chain in H1.
  apply pbind_ret in H1. destruct H1 as (rs & ga & Ha & H1).
  apply pbind_ret in H1. destruct H1 as ([pos pb] & gb & Hb & H1).
  cbv zeta in H1. apply pret_ret in H1. destruct H1 as [H1 ->].
  injection H1 as <- <-.
  unfold train, train_chains.
  unfold pbind at 1. unfold pbind at 1. rewrite Ha.
  unfold pbind at 1. rewrite Hb. cbv zeta.
  change (Z.to_nat (nchain params - 1)) with 1%nat. cbn [pfor_range].
  unfold pbind at 1. unfold train_chain at 1. unfold pbind at 1. cbn [max_pos].
  rewrite (run_mcmc_never_starts (init_size params) (td_nsamples Toy.data)
             (td_nrules Toy.data) (td_rules Toy.data) (td_labels Toy.data) params
             Runs.best_post (fun g => tables_of g = tables_of Toy.tables));
    [reflexivity| |exact T1|reflexivity].
  intros g Ig. unfold with_rng.
  pose proof (create_cases (rng g)) as Hc.
  cbn [create_random_ruleset SpecRules.lib init_size params td_nsamples td_nrules
       td_rules td_labels Toy.data].
  destruct (SpecRules.spec_create_random_ruleset 2 Toy.nsamples Toy.nrules Toy.rules
              (rng g)) as [[r s]|e]; [|exact Hc].
  destruct Hc as (ids & Hin & ->).
  destruct (drawable_below ids Hin) as (lp0 & pb0 & g0 & H0 & Hlt).
  match goal with
  | |- exists _ _ _, compute_log_posterior _ _ _ _ _ _ _ ?gx = _ /\ _ =>
      destruct (rto_compute_log_posterior _ _ _ _ _ _ _ _ _ _ gx H0) as (g4 & H4 & _);
        [exact Ig|]
  end.
  exists lp0, pb0, g4. split; [exact H4|]. split; [exact Hlt|].
  destruct (compute_log_posterior_tables _ _ _ _ _ _ _ _ _ _ H4) as [_ Tp].
  rewrite Tp; [exact Ig|].
  cbn [log_lambda_pmf].
  assert (E : log_lambda_pmf g = log_lambda_pmf Toy.tables)
    by (unfold tables_of in Ig; congruence).
  rewrite E. discriminate.
Qed.

End Cases.
